(** * libfetchers: input accessors and the Git input scheme

    A shallow embedding of [src/libfetchers/input-accessor.cc] and
    [src/libfetchers/git.cc].

    Strings are [string] (bytes, compared as unsigned characters, which is
    the order of [std::string::operator<] and of [strcmp]); [std::map] and
    [std::set] are association lists kept in strictly ascending key order;
    fallible code returns [Res]; code that talks to the outside world (the
    [git] program, the store, the fetcher cache, the clock) threads a
    [World] through a small state-and-error monad and logs what it does. *)

From Stdlib Require Import List String Ascii ZArith NArith Lia Bool Permutation.
Import ListNotations.

Local Open Scope string_scope.
Local Open Scope Z_scope.

(** ** Strings *)

Module Str.

Definition Path := string.

(** [std::string::operator<]: lexicographic on unsigned bytes. *)
Definition lt (a b : string) : Prop := String.compare a b = Lt.

Definition ltb (a b : string) : bool := String.ltb a b.

(** [hasPrefix(s, prefix)]. *)
Fixpoint hasPrefix (s prefix : string) {struct prefix} : bool :=
  match prefix, s with
  | EmptyString, _ => true
  | String c p, String d s' => Ascii.eqb c d && hasPrefix s' p
  | String _ _, EmptyString => false
  end.

(** [hasSuffix(s, suffix)]. *)
Definition hasSuffix (s suffix : string) : bool :=
  let n := String.length s in
  let m := String.length suffix in
  Nat.leb m n && String.eqb (substring (n - m) m s) suffix.

(** [s.substr(pos)] for [pos <= s.size()] (beyond that C++ throws
    [std::out_of_range]; every use below is guarded). *)
Fixpoint substr (s : string) (pos : nat) : string :=
  match pos, s with
  | O, _ => s
  | S n, String _ s' => substr s' n
  | S _, EmptyString => EmptyString
  end.

(** [s.substr(0, n)]. *)
Fixpoint take (s : string) (n : nat) : string :=
  match n, s with
  | O, _ => EmptyString
  | S n', String c s' => String c (take s' n')
  | S _, EmptyString => EmptyString
  end.

Definition slash : ascii := "/"%char.

(** Components of a path between slashes (empty ones included). *)
Fixpoint split_slash (cur : string) (s : string) : list string :=
  match s with
  | EmptyString => [cur]
  | String c s' =>
      if Ascii.eqb c slash then cur :: split_slash EmptyString s'
      else split_slash (cur ++ String c EmptyString)%string s'
  end.

(** [strchr(s, '/')]: the suffix of [s] starting at its first slash. *)
Fixpoint strchr_slash (s : string) : option string :=
  match s with
  | EmptyString => None
  | String c s' => if Ascii.eqb c slash then Some s else strchr_slash s'
  end.

End Str.

Import Str.

(** ** Errors *)

Inductive Error : Type :=
  | AssertionFailed (what : string)
  | NotAbsolute (path : string)                (* canonPath: "not an absolute path" *)
  | AccessNotAllowed (absPath : string)        (* "access to path '%s' is not allowed" *)
  | DoesNotExist (path : string)               (* "file '%s' does not exist" *)
  | UnsupportedType (path : string)            (* "file '%s' has an unsupported type" *)
  | NameCollision (a b : string)               (* "file name collision in between ..." *)
  | Unimplemented (what : string)              (* UnimplementedError *)
  | SysError (what : string) (path : string)   (* a failing system or library call *)
  | Interrupted
  | AttrError (name : string)                  (* input attribute missing or of the wrong type *)
  | BadURL (url : string)
  | BadHash (s : string)
  | ExecError (exited : bool) (code : Z)       (* the program's wait status *)
  | DirtyTree (url : string)                   (* "Git tree '%s' is dirty" *)
  | ShallowRepository (url : string)           (* "... is a shallow Git repository, but a
                                                  non-shallow repository is needed" *)
  | RevisionNotFound (rev ref url : string)    (* "Cannot find Git revision ..." *)
  | InvalidNumber (s : string)                 (* std::stoull *)
  | OutOfRange (what : string).                (* std::out_of_range *)

Inductive Res (A : Type) : Type :=
  | Ok (a : A)
  | Err (e : Error).
Arguments Ok {A} a.
Arguments Err {A} e.

Definition rbind {A B} (m : Res A) (f : A -> Res B) : Res B :=
  match m with
  | Ok a => f a
  | Err e => Err e
  end.

Declare Scope res_scope.
Delimit Scope res_scope with res.
Notation "x <- m ;; k" := (rbind m (fun x => k))
  (at level 61, m at next level, right associativity) : res_scope.
Notation "m ;;; k" := (rbind m (fun _ => k))
  (at level 61, right associativity) : res_scope.

Definition of_option {A} (e : Error) (o : option A) : Res A :=
  match o with
  | Some a => Ok a
  | None => Err e
  end.

Definition assert (b : bool) (what : string) : Res unit :=
  if b then Ok tt else Err (AssertionFailed what).

(** ** [std::map] and [std::set] over strings *)

Module SMap.

Definition t (V : Type) := list (string * V).

(** [m.emplace(k, v)]: inserts unless the key is present. The boolean is
    [.second] of the returned pair. *)
Fixpoint emplace {V} (k : string) (v : V) (m : t V) : t V * bool :=
  match m with
  | [] => ([(k, v)], true)
  | (k', v') :: r =>
      match String.compare k k' with
      | Lt => ((k, v) :: m, true)
      | Eq => (m, false)
      | Gt => let (r', b) := emplace k v r in ((k', v') :: r', b)
      end
  end.

(** [m.insert_or_assign(k, v)]. *)
Fixpoint insert_or_assign {V} (k : string) (v : V) (m : t V) : t V :=
  match m with
  | [] => [(k, v)]
  | (k', v') :: r =>
      match String.compare k k' with
      | Lt => (k, v) :: m
      | Eq => (k, v) :: r
      | Gt => (k', v') :: insert_or_assign k v r
      end
  end.

(** [m.find(k)], [None] for [end()]. *)
Fixpoint find {V} (k : string) (m : t V) : option V :=
  match m with
  | [] => None
  | (k', v) :: r => if String.eqb k k' then Some v else find k r
  end.

Definition keys {V} (m : t V) : list string := map fst m.

Definition of_list {V} (l : list (string * V)) : t V :=
  fold_left (fun m kv => fst (emplace (fst kv) (snd kv) m)) l [].

End SMap.

Module SSet.

Definition t := list string.

Fixpoint insert (k : string) (s : t) : t :=
  match s with
  | [] => [k]
  | k' :: r =>
      match String.compare k k' with
      | Lt => k :: s
      | Eq => s
      | Gt => k' :: insert k r
      end
  end.

Definition of_list (l : list string) : t :=
  fold_left (fun s k => insert k s) l [].

(** [s.lower_bound(k)]: the first element not less than [k], [None] for
    [end()]. *)
Fixpoint lower_bound (k : string) (s : t) : option string :=
  match s with
  | [] => None
  | k' :: r => if Str.ltb k' k then lower_bound k r else Some k'
  end.

(** [s.count(k)]. *)
Definition count (k : string) (s : t) : bool :=
  existsb (String.eqb k) s.

(** The representation invariant of a [std::set]: strictly ascending. *)
Fixpoint sorted (s : t) : Prop :=
  match s with
  | [] => True
  | k :: r => (forall k', In k' r -> Str.lt k k') /\ sorted r
  end.

End SSet.

(** ** Path helpers of util.cc *)

Module Util.

Definition canon_step (acc : list string) (c : string) : list string :=
  if String.eqb c "" then acc
  else if String.eqb c "." then acc
  else if String.eqb c ".." then removelast acc
  else acc ++ [c].

Definition join_components (cs : list string) : string :=
  match cs with
  | [] => "/"
  | _ => String.concat "" (map (fun c => String slash c) cs)
  end.

(** Modelled from the spec: [canonPath] is defined in util.cc, which is not
    among the source files. The accessor "canonicalizes the requested
    path": the result is absolute, has no empty, [.] or [..] component
    ([..] removes the component before it, and nothing at the root), and
    symbolic links are not resolved. A path that is empty or does not
    start with a slash is an error. *)
Definition canonPath (path : string) : Res string :=
  match path with
  | EmptyString => Err (AssertionFailed "path is not empty")
  | String c _ =>
      if Ascii.eqb c slash
      then Ok (join_components (fold_left canon_step (split_slash "" path) []))
      else Err (NotAbsolute path)
  end.

(** Modelled from the spec: [isInDir] of util.cc, not among the source
    files: [path] is strictly "nested under" [dir], that is, it is [dir]
    followed by a slash and at least one more character. *)
Definition isInDir (path dir : string) : bool :=
  String.eqb (take path 1) "/"
  && String.eqb (take path (String.length dir)) dir
  && Nat.leb (String.length dir + 2) (String.length path)
  && match String.get (String.length dir) path with
     | Some c => Ascii.eqb c slash
     | None => false
     end.

(** Modelled from the spec: [isDirOrInDir] of util.cc: "the path must equal
    or be nested under" the directory. *)
Definition isDirOrInDir (path dir : string) : bool :=
  String.eqb path dir || isInDir path dir.

End Util.

Import Util.

(** ** The serialisation primitives of the sink *)

Module Sink.

(** Modelled from the spec: the [Sink] operators of serialise.cc are not
    among the source files. An integer is written as eight bytes, least
    significant first; a string as its length, its bytes and zero padding
    "to the next 8-byte boundary". *)
Definition byte_of (n : N) : ascii := ascii_of_N (n mod 256).

Definition u64 (n : N) : string :=
  let b i := String (byte_of (n / 256 ^ i)) EmptyString in
  (b 0 ++ b 1 ++ b 2 ++ b 3 ++ b 4 ++ b 5 ++ b 6 ++ b 7)%N%string.

Fixpoint zeros (n : nat) : string :=
  match n with
  | O => EmptyString
  | S n' => String zero (zeros n')
  end.

(** [writePadding(len, sink)]. *)
Definition padding (len : nat) : string :=
  match Nat.modulo len 8 with
  | O => EmptyString
  | r => zeros (8 - r)
  end.

(** [sink << s] for a string [s]. *)
Definition str (s : string) : string :=
  (u64 (N.of_nat (String.length s)) ++ s ++ padding (String.length s))%string.

End Sink.

(** ** input-accessor.cc *)

Module Accessor.

(** [InputAccessor::Type]. *)
Inductive Type_ : Type := tRegular | tSymlink | tDirectory | tMisc.

(** [InputAccessor::Stat]. *)
Record Stat : Type := mkStat { type : Type_; isExecutable : bool }.

(** [InputAccessor::DirEntries]: [std::map<std::string, std::optional<Type>>]. *)
Definition DirEntries := SMap.t (option Type_).

(** The five virtual operations of [InputAccessor]. *)
Record InputAccessor : Type := mkAccessor {
  readFile : Path -> Res string;
  pathExists : Path -> Res bool;
  lstat : Path -> Res Stat;
  readDirectory : Path -> Res DirEntries;
  readLink : Path -> Res string
}.

(** *** [InputAccessor::dumpPath] *)

Definition narVersionMagic1 : string := "nix-archive-1".
Definition caseHackSuffix : string := "~nix~case~hack~".

(** The condition [/* archiveSettings.useCaseHack */ false] of the loop
    that collects the directory entries. *)
Definition useCaseHack : bool := false.

(** What [dumpPath] asks of the accessor and of the filter, in order. *)
Inductive Call : Type :=
  | CallLstat (p : Path)
  | CallReadFile (p : Path)
  | CallReadDirectory (p : Path)
  | CallReadLink (p : Path)
  | CallFilter (p : Path) (answer : bool).

Record DumpState : Type := mkDump { sink : string; calls : list Call }.

Definition D (A : Type) : Type := DumpState -> Res A * DumpState.

Definition dret {A} (a : A) : D A := fun s => (Ok a, s).
Definition dfail {A} (e : Error) : D A := fun s => (Err e, s).
Definition dbind {A B} (m : D A) (f : A -> D B) : D B :=
  fun s => match m s with
           | (Ok a, s') => f a s'
           | (Err e, s') => (Err e, s')
           end.

Declare Scope dump_scope.
Delimit Scope dump_scope with dump.
Notation "x <- m ;; k" := (dbind m (fun x => k))
  (at level 61, m at next level, right associativity) : dump_scope.
Notation "m ;;; k" := (dbind m (fun _ => k))
  (at level 61, right associativity) : dump_scope.

Definition lift {A} (c : Call) (r : Res A) : D A :=
  fun s => (r, mkDump (sink s) (calls s ++ [c])).

(** [sink << s]. *)
Definition put_str (s : string) : D unit :=
  fun st => (Ok tt, mkDump (sink st ++ Sink.str s) (calls st)).

(** [sink << n]. *)
Definition put_u64 (n : N) : D unit :=
  fun st => (Ok tt, mkDump (sink st ++ Sink.u64 n) (calls st)).

(** [sink(s); writePadding(s.size(), sink)]. *)
Definition put_raw_padded (s : string) : D unit :=
  fun st => (Ok tt, mkDump (sink st ++ s ++ Sink.padding (String.length s)) (calls st)).

Definition ask_filter (filter : Path -> bool) (p : Path) : D bool :=
  fun s => (Ok (filter p), mkDump (sink s) (calls s ++ [CallFilter p (filter p)])).

(** The name with the case-hack suffix and what follows it erased. *)
Definition erase_case_hack (name : string) : string :=
  match String.index 0 caseHackSuffix name with
  | Some pos => take name pos
  | None => name
  end.

(** The loop over [readDirectory(path)] that fills [unhacked]. *)
Fixpoint collect (path : Path) (entries : list (string * option Type_))
    (unhacked : SMap.t string) : Res (SMap.t string) :=
  match entries with
  | [] => Ok unhacked
  | (first, _) :: rest =>
      if useCaseHack then
        let name := erase_case_hack first in
        let (unhacked', inserted) := SMap.emplace name first unhacked in
        if inserted then collect path rest unhacked'
        else Err (NameCollision
                    (path ++ "/" ++ match SMap.find name unhacked with
                                    | Some other => other
                                    | None => ""
                                    end)
                    (path ++ "/" ++ first))
      else collect path rest (fst (SMap.emplace first first unhacked))
  end.

(** The lambda [dumpContents]. *)
Definition dumpContents (acc : InputAccessor) (path : Path) : D unit :=
  (s <- lift (CallReadFile path) (readFile acc path) ;;
   put_str "contents" ;;;
   put_u64 (N.of_nat (String.length s)) ;;;
   put_raw_padded s)%dump.

(** The recursive lambda [dump]. The depth of the C++ recursion is the
    depth of the tree; [fuel] bounds it here, and [Interrupted] is what
    the model answers when the bound is reached. *)
Fixpoint dump (fuel : nat) (acc : InputAccessor) (filter : Path -> bool)
    (path : Path) {struct fuel} : D unit :=
  match fuel with
  | O => dfail Interrupted
  | S fuel' =>
      (st <- lift (CallLstat path) (lstat acc path) ;;
       put_str "(" ;;;
       (match type st with
        | tRegular =>
            put_str "type" ;;; put_str "regular" ;;;
            (if isExecutable st
             then (put_str "executable" ;;; put_str "")
             else dret tt) ;;;
            dumpContents acc path
        | tDirectory =>
            put_str "type" ;;; put_str "directory" ;;;
            entries <- lift (CallReadDirectory path) (readDirectory acc path) ;;
            unhacked <- (fun s => (collect path entries [], s)) ;;
            (fix each (es : list (string * string)) : D unit :=
               match es with
               | [] => dret tt
               | (first, second) :: rest =>
                   keep <- ask_filter filter (path ++ "/" ++ first) ;;
                   (if keep : bool then
                      put_str "entry" ;;; put_str "(" ;;; put_str "name" ;;;
                      put_str first ;;; put_str "node" ;;;
                      dump fuel' acc filter (path ++ "/" ++ second) ;;;
                      put_str ")"
                    else dret tt) ;;;
                   each rest
               end) unhacked
        | tSymlink =>
            put_str "type" ;;; put_str "symlink" ;;; put_str "target" ;;;
            target <- lift (CallReadLink path) (readLink acc path) ;;
            put_str target
        | tMisc => dfail (UnsupportedType path)
        end) ;;;
       put_str ")")%dump
  end.

(** [InputAccessor::dumpPath(path, sink, filter)], on an empty sink. *)
Definition dumpPath (fuel : nat) (acc : InputAccessor) (path : Path)
    (filter : Path -> bool) : Res unit * DumpState :=
  (put_str narVersionMagic1 ;;; dump fuel acc filter path)%dump
    (mkDump "" []).

End Accessor.

(** ** The filesystem-backed accessor *)

Module FS.

Import Accessor.

(** A directory entry as [nix::readDirectory] returns it: the name and the
    [d_type] byte. *)
Record HostDirEntry : Type := mkEntry { name : string; d_type : Z }.

Definition DT_DIR : Z := 4.
Definition DT_REG : Z := 8.
Definition DT_LNK : Z := 10.

(** The host file system behind [nix::readFile], [nix::pathExists],
    [nix::lstat], [nix::readDirectory] and [nix::readLink]; [None] is a
    failing system call. [h_lstat] gives [st_mode]; [h_readDirectory]
    lists the entries in the order the operating system yields them. *)
Record HostFS : Type := mkHost {
  h_readFile : Path -> option string;
  h_pathExists : Path -> bool;
  h_lstat : Path -> option Z;
  h_readDirectory : Path -> option (list HostDirEntry);
  h_readLink : Path -> option string
}.

(** [S_IFMT] and the file types of [st_mode] (octal 0170000, 0100000,
    0040000, 0120000), and [S_IXUSR] (octal 0100). *)
Definition S_IFMT : Z := 61440.
Definition S_IFREG : Z := 32768.
Definition S_IFDIR : Z := 16384.
Definition S_IFLNK : Z := 40960.
Definition S_IXUSR : Z := 64.

Definition S_ISREG (m : Z) : bool := Z.eqb (Z.land m S_IFMT) S_IFREG.
Definition S_ISDIR (m : Z) : bool := Z.eqb (Z.land m S_IFMT) S_IFDIR.
Definition S_ISLNK (m : Z) : bool := Z.eqb (Z.land m S_IFMT) S_IFLNK.

(** [struct FSInputAccessor]. *)
Record FSInputAccessor : Type := mkFS {
  root : Path;
  allowedPaths : option SSet.t
}.

(** The assertions of the constructor. *)
Definition constructor_ok (a : FSInputAccessor) : bool :=
  match allowedPaths a with
  | Some ps => forallb (fun p => negb (hasPrefix p "/") && negb (hasSuffix p "/")) ps
  | None => true
  end.

Definition makeFSInputAccessor (root : Path) (allowed : option SSet.t)
    : Res FSInputAccessor :=
  let a := mkFS root allowed in
  (assert (constructor_ok a) "allowed paths have no leading or trailing slash" ;;;
   Ok a)%res.

(** [FSInputAccessor::makeAbsPath]. *)
Definition makeAbsPath (a : FSInputAccessor) (path : Path) : Res Path :=
  (assert (hasPrefix path "/") "hasPrefix(path, /)" ;;;
   canonPath (root a ++ path))%res.

(** The part of [subPath] that [isAllowed] looks up. *)
Definition subPathOf (a : FSInputAccessor) (absPath : Path) : string :=
  let subPath := substr absPath (String.length (root a)) in
  if hasPrefix subPath "/" then substr subPath 1 else subPath.

(** [FSInputAccessor::isAllowed]. *)
Definition isAllowed (a : FSInputAccessor) (absPath : Path) : bool :=
  if negb (isDirOrInDir absPath (root a)) then false
  else
    match allowedPaths a with
    | Some allowed =>
        let subPath := subPathOf a absPath in
        if negb (String.eqb subPath "") then
          match SSet.lower_bound subPath allowed with
          | None => false
          | Some lb =>
              if negb (isDirOrInDir ("/" ++ lb) ("/" ++ subPath)) then false
              else true
          end
        else true
    | None => true
    end.

(** [FSInputAccessor::checkAllowed]. *)
Definition checkAllowed (a : FSInputAccessor) (absPath : Path) : Res unit :=
  if negb (isAllowed a absPath) then Err (AccessNotAllowed absPath) else Ok tt.

Section Operations.

Variable host : HostFS.
Variable a : FSInputAccessor.

Definition readFile (path : Path) : Res string :=
  (absPath <- makeAbsPath a path ;;
   checkAllowed a absPath ;;;
   of_option (SysError "readFile" absPath) (h_readFile host absPath))%res.

Definition pathExists (path : Path) : Res bool :=
  (absPath <- makeAbsPath a path ;;
   Ok (isAllowed a absPath && h_pathExists host absPath))%res.

Definition lstat (path : Path) : Res Stat :=
  (absPath <- makeAbsPath a path ;;
   checkAllowed a absPath ;;;
   st_mode <- of_option (SysError "lstat" absPath) (h_lstat host absPath) ;;
   Ok (mkStat
         (if S_ISREG st_mode then tRegular
          else if S_ISDIR st_mode then tDirectory
          else if S_ISLNK st_mode then tSymlink
          else tMisc)
         (S_ISREG st_mode && negb (Z.eqb (Z.land st_mode S_IXUSR) 0))))%res.

(** The [switch (entry.type)] of [readDirectory]. *)
Definition entryType (d : Z) : option Type_ :=
  if Z.eqb d DT_REG then Some tRegular
  else if Z.eqb d DT_LNK then Some tSymlink
  else if Z.eqb d DT_DIR then Some tDirectory
  else None.

(** The loop of [readDirectory] over the host's entries. *)
Fixpoint listAllowed (absPath : Path) (entries : list HostDirEntry)
    (res : DirEntries) : DirEntries :=
  match entries with
  | [] => res
  | entry :: rest =>
      let type := entryType (d_type entry) in
      if isAllowed a (absPath ++ "/" ++ name entry)
      then listAllowed absPath rest (fst (SMap.emplace (name entry) type res))
      else listAllowed absPath rest res
  end.

Definition readDirectory (path : Path) : Res DirEntries :=
  (absPath <- makeAbsPath a path ;;
   checkAllowed a absPath ;;;
   entries <- of_option (SysError "readDirectory" absPath)
                (h_readDirectory host absPath) ;;
   Ok (listAllowed absPath entries []))%res.

Definition readLink (path : Path) : Res string :=
  (absPath <- makeAbsPath a path ;;
   checkAllowed a absPath ;;;
   of_option (SysError "readLink" absPath) (h_readLink host absPath))%res.

(** The accessor as an [InputAccessor]. *)
Definition accessor : InputAccessor :=
  mkAccessor readFile pathExists lstat readDirectory readLink.

End Operations.

End FS.

(** ** The in-memory accessor *)

Module Memory.

Import Accessor.

(** [struct MemoryInputAccessorImpl]: the map [files]. *)
Record MemoryInputAccessorImpl : Type := mkMemory {
  files : SMap.t string
}.

(** [makeMemoryInputAccessor()]. *)
Definition makeMemoryInputAccessor : MemoryInputAccessorImpl := mkMemory [].

Definition readFile (m : MemoryInputAccessorImpl) (path : Path) : Res string :=
  match SMap.find path (files m) with
  | None => Err (DoesNotExist path)
  | Some contents => Ok contents
  end.

Definition pathExists (m : MemoryInputAccessorImpl) (path : Path) : Res bool :=
  Ok (match SMap.find path (files m) with Some _ => true | None => false end).

Definition lstat (m : MemoryInputAccessorImpl) (path : Path) : Res Stat :=
  Err (Unimplemented "MemoryInputAccessor::lstat").

Definition readDirectory (m : MemoryInputAccessorImpl) (path : Path)
    : Res DirEntries :=
  Ok [].

Definition readLink (m : MemoryInputAccessorImpl) (path : Path) : Res string :=
  Err (Unimplemented "MemoryInputAccessor::readLink").

(** [addFile(path, contents)]: [files.emplace(path, std::move(contents))]. *)
Definition addFile (m : MemoryInputAccessorImpl) (path : Path)
    (contents : string) : MemoryInputAccessorImpl :=
  mkMemory (fst (SMap.emplace path contents (files m))).

(** The accessor as an [InputAccessor]. *)
Definition accessor (m : MemoryInputAccessorImpl) : InputAccessor :=
  mkAccessor (readFile m) (pathExists m) (lstat m) (readDirectory m)
    (readLink m).

End Memory.

(** ** The archive-backed accessor *)

Module Zip.

Import Accessor.

(** [ZIP_OPSYS_UNIX] of zip.h. *)
Definition ZIP_OPSYS_UNIX : Z := 3.

(** What libzip knows of one archive member: [zip_stat_index] gives the
    name and the size, [zip_file_get_external_attributes] the operating
    system and the attributes ([None] when it returns -1). *)
Record ZipEntry : Type := mkZipEntry {
  ze_name : string;
  ze_size : Z;
  ze_external : option (Z * Z)
}.

(** [struct zip_stat], as far as the accessor uses it. *)
Record zip_stat : Type := mkZipStat { zs_index : nat; zs_size : Z }.

(** [struct ZipInputAccessor]: the archive and the index [members],
    ordered by [strcmp]. *)
Record ZipInputAccessor : Type := mkZip {
  zipFile : list ZipEntry;
  members : SMap.t zip_stat
}.

(** The loop of the constructor: every member whose name has a slash is
    entered under the part of its name from the first slash on. *)
Fixpoint index_members (n : nat) (entries : list ZipEntry)
    (members : SMap.t zip_stat) : SMap.t zip_stat :=
  match entries with
  | [] => members
  | e :: rest =>
      match strchr_slash (ze_name e) with
      | None => index_members (S n) rest members
      | Some slash =>
          index_members (S n) rest
            (fst (SMap.emplace slash (mkZipStat n (ze_size e)) members))
      end
  end.

Definition makeZipInputAccessor (archive : list ZipEntry) : ZipInputAccessor :=
  mkZip archive (index_members 0 archive []).

Definition zip_file_get_external_attributes (z : ZipInputAccessor)
    (index : nat) : option (Z * Z) :=
  match nth_error (zipFile z) index with
  | Some e => ze_external e
  | None => None
  end.

(** [ZipInputAccessor::pathExists]. *)
Definition pathExists (z : ZipInputAccessor) (_path : Path) : Res bool :=
  (path <- canonPath _path ;;
   Ok (match SMap.find path (members z) with Some _ => true | None => false end))%res.

(** [ZipInputAccessor::lstat]. The declaration [auto type = ...] inside
    [case ZIP_OPSYS_UNIX] opens a new variable, [type_1] here, and the
    assignments of the inner [switch] go to it; the [type] of the returned
    [Stat] is the one declared at the top of the function. *)
Definition lstat (z : ZipInputAccessor) (_path : Path) : Res Stat :=
  (path <- canonPath _path ;;
   let type := tRegular in
   let isExecutable := false in
   let i := SMap.find path (members z) in
   let '(i, type) :=
     match i with
     | None => (SMap.find (path ++ "/") (members z), tDirectory)
     | Some _ => (i, type)
     end in
   match i with
   | None => Err (DoesNotExist path)
   | Some sb =>
       match zip_file_get_external_attributes z (zs_index sb) with
       | None => Err (SysError "zip_file_get_external_attributes" path)
       | Some (opsys, attributes) =>
           if Z.eqb opsys ZIP_OPSYS_UNIX then
             let type_1 := Z.land (Z.shiftr attributes 16) 258048 in (* 0770000 *)
             if Z.eqb type_1 16384 then                               (* 0040000 *)
               let type_1 := tDirectory in
               Ok (mkStat type isExecutable)
             else if Z.eqb type_1 32768 then                          (* 0100000 *)
               let type_1 := tRegular in
               let isExecutable :=
                 negb (Z.eqb (Z.land (Z.shiftr attributes 16) 64) 0) in (* 0000100 *)
               Ok (mkStat type isExecutable)
             else if Z.eqb type_1 40960 then                          (* 0120000 *)
               let type_1 := tSymlink in
               Ok (mkStat type isExecutable)
             else Err (UnsupportedType path)
           else Ok (mkStat type isExecutable)
       end
   end)%res.

(** [ZipInputAccessor::readFile]. [data] is what [zip_fopen_index] and
    [zip_fread] deliver for the member at an index: [None] when the member
    cannot be opened, else the bytes it holds, of which [zip_fread] reads
    at most the size that the index recorded. *)
Definition readFile (data : nat -> option string) (z : ZipInputAccessor)
    (_path : Path) : Res string :=
  (path <- canonPath _path ;;
   match SMap.find path (members z) with
   | None => Err (DoesNotExist path)
   | Some sb =>
       match data (zs_index sb) with
       | None => Err (SysError "zip_fopen_index" path)
       | Some bytes =>
           let buf := take bytes (Z.to_nat (zs_size sb)) in
           if negb (Z.eqb (Z.of_nat (String.length buf)) (zs_size sb))
           then Err (SysError "zip_fread" path)
           else Ok buf
       end
   end)%res.

(** The iterator [++i] after [members.find(path)]: what follows the entry
    of [path] in the order of the map; [None] when there is no such
    entry. *)
Fixpoint after_key (path : string) (m : SMap.t zip_stat)
    : option (SMap.t zip_stat) :=
  match m with
  | [] => None
  | (first, _) :: r => if String.eqb path first then Some r else after_key path r
  end.

(** The loop of [readDirectory]: it runs while the key starts with [path]
    ([strncmp]), skips a key with a slash that is not its last character,
    and enters the others by the part after [path], without a final
    slash. *)
Fixpoint children (path : string) (i : SMap.t zip_stat) (entries : DirEntries)
    : DirEntries :=
  match i with
  | [] => entries
  | (first, _) :: i' =>
      if hasPrefix first path then
        let start := substr first (String.length path) in
        match strchr_slash start with
        | Some slash =>
            if negb (String.eqb slash "/") then children path i' entries
            else
              let name :=
                take start (String.length start - String.length slash) in
              children path i' (fst (SMap.emplace name None entries))
        | None => children path i' (fst (SMap.emplace start None entries))
        end
      else entries
  end.

(** [ZipInputAccessor::readDirectory]. *)
Definition readDirectory (z : ZipInputAccessor) (_path : Path) : Res DirEntries :=
  (path <- canonPath _path ;;
   let path := path ++ "/" in
   match after_key path (members z) with
   | None => Err (DoesNotExist path)
   | Some i => Ok (children path i [])
   end)%res.

(** [ZipInputAccessor::readLink]. *)
Definition readLink (z : ZipInputAccessor) (path : Path) : Res string :=
  Err (Unimplemented "ZipInputAccessor::readLink").

(** The accessor as an [InputAccessor]. *)
Definition accessor (data : nat -> option string) (z : ZipInputAccessor)
    : InputAccessor :=
  mkAccessor (readFile data z) (pathExists z) (lstat z) (readDirectory z)
    (readLink z).

End Zip.

(** ** Attributes, the cache and the world of the fetcher *)

Module Fetchers.

(** [Attr]: [std::variant<std::string, uint64_t, Explicit<bool>>]. *)
Inductive Attr : Type :=
  | AStr (s : string)
  | AInt (n : Z)
  | ABool (b : bool).

(** [Attrs]: [std::map<std::string, Attr>]. *)
Definition Attrs := SMap.t Attr.

Definition Attr_eqb (a b : Attr) : bool :=
  match a, b with
  | AStr s, AStr t => String.eqb s t
  | AInt n, AInt m => Z.eqb n m
  | ABool x, ABool y => Bool.eqb x y
  | _, _ => false
  end.

Fixpoint Attrs_eqb (a b : Attrs) : bool :=
  match a, b with
  | [], [] => true
  | (k, v) :: a', (k', v') :: b' =>
      String.eqb k k' && Attr_eqb v v' && Attrs_eqb a' b'
  | _, _ => false
  end.

(** [Attrs({...})]: a map from an initialiser list. *)
Definition mkAttrs (l : list (string * Attr)) : Attrs := SMap.of_list l.

(** Modelled from the spec: the getters of attrs.cc are not among the
    source files. An optional getter yields nothing for an absent
    attribute and fails on one of another type; a required getter also
    fails on an absent one. *)
Definition maybeGetStrAttr (attrs : Attrs) (name : string) : Res (option string) :=
  match SMap.find name attrs with
  | None => Ok None
  | Some (AStr s) => Ok (Some s)
  | Some _ => Err (AttrError name)
  end.

Definition maybeGetIntAttr (attrs : Attrs) (name : string) : Res (option Z) :=
  match SMap.find name attrs with
  | None => Ok None
  | Some (AInt n) => Ok (Some n)
  | Some _ => Err (AttrError name)
  end.

Definition maybeGetBoolAttr (attrs : Attrs) (name : string) : Res (option bool) :=
  match SMap.find name attrs with
  | None => Ok None
  | Some (ABool b) => Ok (Some b)
  | Some _ => Err (AttrError name)
  end.

Definition required {A} (name : string) (r : Res (option A)) : Res A :=
  (o <- r ;; of_option (AttrError name) o)%res.

Definition getStrAttr (attrs : Attrs) (name : string) : Res string :=
  required name (maybeGetStrAttr attrs name).

Definition getIntAttr (attrs : Attrs) (name : string) : Res Z :=
  required name (maybeGetIntAttr attrs name).

Definition value_or {A} (d : A) (o : option A) : A :=
  match o with Some a => a | None => d end.

(** [struct Input], as far as the Git scheme uses it. *)
Record Input : Type := mkInput { attrs : Attrs }.

Definition set_attr (input : Input) (name : string) (v : Attr) : Input :=
  mkInput (SMap.insert_or_assign name v (attrs input)).

Definition StorePath := string.

(** [ParsedURL], as far as the Git scheme reads it. *)
Record ParsedURL : Type := mkURL { scheme : string; base : string; path : string }.

(** The wait status of a child process: [WIFEXITED] with [WEXITSTATUS], or
    anything else. *)
Inductive WaitStatus : Type :=
  | Exited (code : Z)
  | Killed (signal : Z).

Definition statusOk (s : WaitStatus) : bool :=
  match s with Exited 0 => true | _ => false end.

Definition WIFEXITED (s : WaitStatus) : bool :=
  match s with Exited _ => true | Killed _ => false end.

Definition WEXITSTATUS (s : WaitStatus) : Z :=
  match s with Exited c => c | Killed _ => 0 end.

Definition execError (s : WaitStatus) : Error :=
  ExecError (WIFEXITED s) (match s with Exited c => c | Killed n => n end).

(** A node of the host file system as [stat], [pathExists], [readFile],
    [readDirectory] and [utimes] see it. *)
Inductive Node : Type :=
  | RegularFile (mtime : Z) (content : string)
  | Directory (mtime : Z) (entries : list string).

Definition Files := Path -> option Node.

Definition mtime_of (n : Node) : Z :=
  match n with RegularFile t _ => t | Directory t _ => t end.

Definition touch (t : Z) (n : Node) : Node :=
  match n with
  | RegularFile _ c => RegularFile t c
  | Directory _ es => Directory t es
  end.

Definition update (fs : Files) (p : Path) (n : option Node) : Files :=
  fun q => if String.eqb q p then n else fs q.

(** The filter handed to [addToStore]. *)
Inductive Filter : Type :=
  | defaultPathFilter
  | isNotDotGitDirectory
  | trackedFiles (url : Path) (files : SSet.t).

(** One row of the fetcher cache. *)
Record CacheRow : Type := mkRow {
  row_key : Attrs;
  row_info : Attrs;
  row_path : StorePath;
  row_immutable : bool;
  row_timestamp : Z
}.

Definition Cache := list CacheRow.

(** Modelled from the spec: the cache of cache.cc is not among the source
    files. It is a "key -> value store mapping a cache key to (metadata
    attributes, content identifier)"; writing a key overwrites its entry;
    an immutable entry is "valid forever", a mutable one "only while
    now - storedAt < ttl". *)
Definition cache_add (now : Z) (key info : Attrs) (sp : StorePath)
    (immutable : bool) (c : Cache) : Cache :=
  mkRow key info sp immutable now
    :: filter (fun r => negb (Attrs_eqb (row_key r) key)) c.

Definition cache_lookup (ttl now : Z) (key : Attrs) (c : Cache)
    : option (Attrs * StorePath) :=
  match List.find (fun r => Attrs_eqb (row_key r) key) c with
  | Some r =>
      if row_immutable r || Z.ltb (now - row_timestamp r) ttl
      then Some (row_info r, row_path r)
      else None
  | None => None
  end.

(** What a run of the [git] program does: its wait status, what it
    prints, and the file system it leaves. *)
Record GitRun : Type := mkRun {
  status : WaitStatus;
  output : string;
  after : Files
}.

(** Everything outside this translation unit that [fetch] depends on. *)
Record Env : Type := mkEnv {
  parseURL : string -> option ParsedURL;
  (** [Hash::parseAny(s, htSHA1).gitRev()] *)
  parseGitRev : string -> option string;
  getCacheDir : Path;
  (** [hashString(htSHA256, s).to_string(Base32, false)] *)
  hashString : string -> string;
  (** [getEnv("_NIX_FORCE_HTTP") == "1"] *)
  forceHttp : bool;
  (** [settings.tarballTtl], [settings.allowDirty], [settings.warnDirty] *)
  tarballTtl : Z;
  allowDirty : bool;
  warnDirty : bool;
  (** [runProgram("git", ...)] with these arguments on this file system *)
  git : list string -> Files -> GitRun;
  (** [std::stoull] *)
  stoull : string -> option Z;
  createTempDir : Files -> Path * Files;
  unpackTarfile : string -> Path -> Files -> option Files;
  (** [store->addToStore(name, path, Recursive, htSHA256, filter)] *)
  addToStore : string -> Path -> Filter -> Files -> option StorePath
}.

(** The state [fetch] reads and writes. *)
Record World : Type := mkWorld {
  files : Files;
  cache : Cache;
  now : Z
}.

(** What [fetch] does to the outside, in order. *)
Inductive Event : Type :=
  | EvGit (args : list string)
  | EvPathExists (p : Path)
  | EvStat (p : Path)
  | EvReadFile (p : Path)
  | EvReadDirectory (p : Path)
  | EvUtimes (p : Path) (t : Z)
  | EvCreateDirs (p : Path)
  | EvLock (p : Path)
  | EvUnlock (p : Path)
  | EvCreateTempDir (p : Path)
  | EvDelete (p : Path)
  | EvUnpack (p : Path)
  | EvCacheLookup (key : Attrs) (hit : bool)
  | EvCacheAdd (key info : Attrs) (sp : StorePath) (immutable : bool)
  | EvAddToStore (name : string) (p : Path) (f : Filter)
  | EvWarn (msg : string).

(** The refresh of the mirror from the remote: [git -C <mirror> fetch
    --quiet --force -- <url> <ref>:<ref>]. *)
Definition is_refresh (e : Event) : bool :=
  match e with
  | EvGit ("-C" :: _ :: "fetch" :: "--quiet" :: "--force" :: "--" :: _ :: _ :: nil) =>
      true
  | _ => false
  end.

(** A run of the version-control tool. *)
Definition is_git (e : Event) : bool :=
  match e with EvGit _ => true | _ => false end.

(** The ingestion of an extracted tree (the dirty-tree branch hands the
    working tree itself to the store, with the filter of tracked files). *)
Definition is_ingestion (e : Event) : bool :=
  match e with
  | EvAddToStore _ _ (trackedFiles _ _) => false
  | EvAddToStore _ _ _ => true
  | _ => false
  end.

Definition is_cache_add (e : Event) : bool :=
  match e with EvCacheAdd _ _ _ _ => true | _ => false end.

(** An access to the host file system by [fetch] itself. *)
Definition is_fs (e : Event) : bool :=
  match e with
  | EvPathExists _ | EvStat _ | EvReadFile _ | EvReadDirectory _
  | EvUtimes _ _ | EvCreateDirs _ | EvLock _ | EvUnlock _
  | EvCreateTempDir _ | EvDelete _ | EvUnpack _ => true
  | _ => false
  end.

Definition M (A : Type) : Type := World -> Res A * World * list Event.

Definition ret {A} (a : A) : M A := fun w => (Ok a, w, []).
Definition throw {A} (e : Error) : M A := fun w => (Err e, w, []).
Definition bind {A B} (m : M A) (f : A -> M B) : M B :=
  fun w =>
    match m w with
    | (Ok a, w', evs) =>
        match f a w' with
        | (r, w'', evs') => (r, w'', (evs ++ evs')%list)
        end
    | (Err e, w', evs) => (Err e, w', evs)
    end.

(** [try { m } catch (Error & e) { handler(e) }]. *)
Definition try_catch {A} (m : M A) (handler : Error -> M A) : M A :=
  fun w =>
    match m w with
    | (Ok a, w', evs) => (Ok a, w', evs)
    | (Err e, w', evs) =>
        match handler e w' with
        | (r, w'', evs') => (r, w'', (evs ++ evs')%list)
        end
    end.

(** A scope with a destructor: [leave] runs however [body] ends. *)
Definition scoped {A} (leave : list Event) (body : M A) : M A :=
  fun w => match body w with (r, w', evs) => (r, w', (evs ++ leave)%list) end.

Definition result_of {A} (x : Res A * World * list Event) : Res A := fst (fst x).
Definition world_of {A} (x : Res A * World * list Event) : World := snd (fst x).
Definition events_of {A} (x : Res A * World * list Event) : list Event := snd x.

Definition emit (e : Event) : M unit := fun w => (Ok tt, w, [e]).
Definition liftR {A} (r : Res A) : M A := fun w => (r, w, []).
Definition get_world : M World := fun w => (Ok w, w, []).
Definition set_files (fs : Files) : M unit :=
  fun w => (Ok tt, mkWorld fs (cache w) (now w), []).

End Fetchers.

(** ** git.cc *)

Module Git.

Import Fetchers.

Declare Scope fetch_scope.
Delimit Scope fetch_scope with fetch.
Notation "x <- m ;; k" := (bind m (fun x => k))
  (at level 61, m at next level, right associativity) : fetch_scope.
Notation "m ;;; k" := (bind m (fun _ => k))
  (at level 61, right associativity) : fetch_scope.

Definition gitInitialBranch : string := "__nix_dummy_branch".

(** Modelled from the spec: [chomp] of util.cc, not among the source
    files, removes the white space (blank, newline, carriage return, tab)
    that ends what the tool printed. *)
Definition is_space (c : ascii) : bool :=
  Ascii.eqb c " "%char || Ascii.eqb c "010"%char
  || Ascii.eqb c "013"%char || Ascii.eqb c "009"%char.

Fixpoint chomp (s : string) : string :=
  match s with
  | EmptyString => EmptyString
  | String c s' =>
      match chomp s' with
      | EmptyString => if is_space c then EmptyString else String c EmptyString
      | rest => String c rest
      end
  end.

(** Modelled from the spec: [dirOf] of util.cc, the path without its last
    component. *)
Fixpoint dirOf_aux (s : string) : option string :=
  match s with
  | EmptyString => None
  | String c s' =>
      match dirOf_aux s' with
      | Some d => Some (String c d)
      | None => if Ascii.eqb c slash then Some EmptyString else None
      end
  end.

Definition dirOf (p : Path) : Path :=
  match dirOf_aux p with
  | None => "."
  | Some EmptyString => "/"
  | Some d => d
  end.

(** [tokenizeString<std::set<std::string>>(s, "\0"s)]: the non-empty
    pieces of [s] between NUL bytes. *)
Fixpoint tokens (cur : string) (s : string) : list string :=
  match s with
  | EmptyString => if String.eqb cur "" then [] else [cur]
  | String c s' =>
      if Ascii.eqb c zero
      then (if String.eqb cur "" then tokens "" s' else cur :: tokens "" s')
      else tokens (cur ++ String c EmptyString) s'
  end.

(** What [.] of an ECMAScript regular expression does not match: a line
    feed or a carriage return. *)
Definition is_line_terminator (c : ascii) : bool :=
  Ascii.eqb c "010"%char || Ascii.eqb c "013"%char.

Fixpoint no_line_terminator (s : string) : bool :=
  match s with
  | EmptyString => true
  | String c s' => negb (is_line_terminator c) && no_line_terminator s'
  end.

(** [isNotDotGitDirectory]: the whole path does not match
    [^(?:.*/)?\.git$], that is, it is neither [.git] nor a line without
    terminators followed by [/.git]. *)
Definition isNotDotGitDirectory (path : Path) : bool :=
  negb (String.eqb path ".git"
        || (hasSuffix path "/.git"
            && no_line_terminator (take path (String.length path - 5)))).

(** [struct RepoInfo]. *)
Record RepoInfo : Type := mkRepoInfo {
  shallow : bool;
  submodules : bool;
  allRefs : bool;
  cacheType : string;
  isLocal : bool;
  isDirty : bool;
  hasCommits : bool;
  url : string
}.

(** The lambda [PathFilter filter] of the dirty-tree branch of [fetch].
    [std::string file(p, pos)] throws [std::out_of_range] when [pos] is
    beyond the end of [p], which is the case of [p = repoInfo.url]. *)
Definition trackedFilter (fs : Files) (url : Path) (tracked : SSet.t)
    (p : Path) : Res bool :=
  (assert (hasPrefix p url) "hasPrefix(p, repoInfo.url)" ;;;
   file <- (if Nat.ltb (String.length p) (String.length url + 1)
            then Err (OutOfRange "basic_string::basic_string")
            else Ok (substr p (String.length url + 1))) ;;
   st <- of_option (SysError "lstat" p) (fs p) ;;
   match st with
   | Directory _ _ =>
       let prefix := file ++ "/" in
       match SSet.lower_bound prefix tracked with
       | Some i => Ok (hasPrefix i prefix)
       | None => Ok false
       end
   | RegularFile _ _ => Ok (SSet.count file tracked)
   end)%res.

Section WithEnv.

Variable E : Env.

(** *** The outside world, one call at a time *)

(** [runProgram("git", true, args)]: the output, or [ExecError]. *)
Definition runProgram (args : list string) : M string :=
  fun w =>
    let r := git E args (files w) in
    let w' := mkWorld (after r) (cache w) (now w) in
    if statusOk (status r) then (Ok (output r), w', [EvGit args])
    else (Err (execError (status r)), w', [EvGit args]).

(** [runProgram(RunOptions { ... })]: the status and the output. *)
Definition runProgramStatus (args : list string) : M (WaitStatus * string) :=
  fun w =>
    let r := git E args (files w) in
    (Ok (status r, output r), mkWorld (after r) (cache w) (now w), [EvGit args]).

Definition pathExists (p : Path) : M bool :=
  fun w => (Ok (match files w p with Some _ => true | None => false end),
            w, [EvPathExists p]).

(** [stat(p, &st)]: [st.st_mtime], or [None] when it returns non-zero. *)
Definition stat (p : Path) : M (option Z) :=
  fun w => (Ok (option_map mtime_of (files w p)), w, [EvStat p]).

Definition readFile (p : Path) : M string :=
  fun w => (match files w p with
            | Some (RegularFile _ c) => Ok c
            | _ => Err (SysError "readFile" p)
            end, w, [EvReadFile p]).

Definition readDirectory (p : Path) : M (list string) :=
  fun w => (match files w p with
            | Some (Directory _ es) => Ok es
            | _ => Err (SysError "readDirectory" p)
            end, w, [EvReadDirectory p]).

(** [utimes(p, times)], whose result [fetch] ignores. *)
Definition utimes (p : Path) (t : Z) : M unit :=
  fun w => (Ok tt,
            mkWorld (update (files w) p (option_map (touch t) (files w p)))
              (cache w) (now w),
            [EvUtimes p t]).

(** [time(0)]. *)
Definition time : M Z := fun w => (Ok (now w), w, []).

Fixpoint createDirs_files (fuel : nat) (t : Z) (p : Path) (fs : Files) : Files :=
  match fuel with
  | O => fs
  | S fuel' =>
      if String.eqb p "/" || String.eqb p "." then fs
      else
        let fs' := createDirs_files fuel' t (dirOf p) fs in
        match fs' p with
        | Some _ => fs'
        | None => update fs' p (Some (Directory t []))
        end
  end.

Definition createDirs (p : Path) : M unit :=
  fun w => (Ok tt,
            mkWorld (createDirs_files (String.length p) (now w) p (files w))
              (cache w) (now w),
            [EvCreateDirs p]).

Definition createTempDirM : M Path :=
  fun w => let (p, fs) := createTempDir E (files w) in
           (Ok p, mkWorld fs (cache w) (now w), [EvCreateTempDir p]).

(** [getCache()->lookup(store, key)]. *)
Definition cacheLookup (key : Attrs) : M (option (Attrs * StorePath)) :=
  fun w => let r := cache_lookup (tarballTtl E) (now w) key (cache w) in
           (Ok r, w, [EvCacheLookup key (match r with Some _ => true | None => false end)]).

(** [getCache()->add(store, key, info, storePath, immutable)]. *)
Definition cacheAdd (key info : Attrs) (sp : StorePath) (immutable : bool) : M unit :=
  fun w => (Ok tt,
            mkWorld (files w) (cache_add (now w) key info sp immutable (cache w)) (now w),
            [EvCacheAdd key info sp immutable]).

Definition addToStoreM (name : string) (p : Path) (f : Filter) : M StorePath :=
  fun w => (of_option (SysError "addToStore" p) (addToStore E name p f (files w)),
            w, [EvAddToStore name p f]).

Definition stoullR (s : string) : Res Z :=
  of_option (InvalidNumber s) (stoull E s).

(** [Hash::parseAny(s, htSHA1).gitRev()]. *)
Definition gitRevOf (s : string) : Res string :=
  of_option (BadHash s) (parseGitRev E s).

(** *** [Input] *)

(** [input.getRev()], the hash being identified with its [gitRev()]. *)
Definition getRev (input : Input) : Res (option string) :=
  (s <- maybeGetStrAttr (attrs input) "rev" ;;
   match s with
   | Some s => r <- gitRevOf s ;; Ok (Some r)
   | None => Ok None
   end)%res.

Definition getRef (input : Input) : Res (option string) :=
  maybeGetStrAttr (attrs input) "ref".

Definition getName (input : Input) : Res string :=
  (n <- maybeGetStrAttr (attrs input) "name" ;; Ok (value_or "source" n))%res.

(** [static std::string readHead(const Path & path)]. *)
Definition readHead (path : Path) : M string :=
  (out <- runProgram ["-C"; path; "rev-parse"; "--abbrev-ref"; "HEAD"] ;;
   ret (chomp out))%fetch.

(** [RepoInfo::checkDirty]. *)
Definition checkDirty (repoInfo : RepoInfo) : M unit :=
  if isDirty repoInfo then
    if negb (allowDirty E) then throw (DirtyTree (url repoInfo))
    else if warnDirty E
         then emit (EvWarn ("Git tree '" ++ url repoInfo ++ "' is dirty"))
    else ret tt
  else ret tt.

(** [GitInputScheme::getRepoInfo]. *)
Definition getRepoInfo (input : Input) : M RepoInfo :=
  (shallow <- liftR (maybeGetBoolAttr (attrs input) "shallow") ;;
   let shallow := value_or false shallow in
   submodules <- liftR (maybeGetBoolAttr (attrs input) "submodules") ;;
   let submodules := value_or false submodules in
   allRefs <- liftR (maybeGetBoolAttr (attrs input) "allRefs") ;;
   let allRefs := value_or false allRefs in
   let cacheType :=
     "git" ++ (if shallow then "-shallow" else "")
           ++ (if submodules then "-submodules" else "")
           ++ (if allRefs then "-all-refs" else "") in
   s <- liftR (getStrAttr (attrs input) "url") ;;
   url <- liftR (of_option (BadURL s) (parseURL E s)) ;;
   isBareRepository <-
     (if String.eqb (scheme url) "file"
      then (e <- pathExists (path url ++ "/.git") ;; ret (negb e))
      else ret false) ;;
   let isLocal :=
     String.eqb (scheme url) "file" && negb (forceHttp E)
     && negb isBareRepository in
   let repoUrl := if isLocal then path url else base url in
   ref <- liftR (getRef input) ;;
   workingTree <-
     match ref with
     | Some _ => ret false
     | None =>
         rev <- liftR (getRev input) ;;
         ret (match rev with Some _ => false | None => isLocal end)
     end ;;
   if workingTree : bool then
     let gitDir := repoUrl ++ "/.git" in
     out <- runProgram ["-C"; repoUrl; "rev-parse"; "--git-common-dir"] ;;
     let commonGitDir := chomp out in
     let gitDir :=
       if negb (String.eqb commonGitDir ".git") then commonGitDir else gitDir in
     heads <- readDirectory (gitDir ++ "/refs/heads") ;;
     let hasCommits := match heads with [] => false | _ => true end in
     isDirty <-
       try_catch
         (if hasCommits then
            runProgram ["-C"; repoUrl; "diff-index"; "--quiet"; "HEAD"; "--"] ;;;
            ret false
          else ret true)
         (fun e =>
            match e with
            | ExecError exited code =>
                if negb exited || negb (Z.eqb code 1) then throw e else ret true
            | _ => throw e
            end) ;;
     ret (mkRepoInfo shallow submodules allRefs cacheType isLocal isDirty
            hasCommits repoUrl)
   else
     ret (mkRepoInfo shallow submodules allRefs cacheType isLocal false
            true repoUrl))%fetch.

(** [GitInputScheme::listFiles]. *)
Definition listFiles (repoInfo : RepoInfo) : M SSet.t :=
  (let gitOpts := ["-C"; url repoInfo; "ls-files"; "-z"] in
   let gitOpts :=
     if submodules repoInfo then (gitOpts ++ ["--recurse-submodules"])%list
     else gitOpts in
   out <- runProgram gitOpts ;;
   ret (SSet.of_list (tokens "" out)))%fetch.

(** *** [GitInputScheme::fetch] *)

(** The lambda [getImmutableAttrs]. *)
Definition getImmutableAttrs (repoInfo : RepoInfo) (name : string)
    (input : Input) : Res Attrs :=
  (rev <- getRev input ;;
   rev <- of_option (AssertionFailed "input.getRev()") rev ;;
   Ok (mkAttrs [("type", AStr (cacheType repoInfo));
                ("name", AStr name);
                ("rev", AStr rev)]))%res.

Definition opt_eqb (a b : option string) : bool :=
  match a, b with
  | Some x, Some y => String.eqb x y
  | None, None => true
  | _, _ => false
  end.

(** The lambda [makeResult]. *)
Definition makeResult (_input : Input) (repoInfo : RepoInfo) (input : Input)
    (infoAttrs : Attrs) (storePath : StorePath) : Res (StorePath * Input) :=
  (rev <- getRev input ;;
   assert (match rev with Some _ => true | None => false end) "input.getRev()" ;;;
   _rev <- getRev _input ;;
   assert (match _rev with None => true | Some _ => opt_eqb _rev rev end)
     "!_input.getRev() || _input.getRev() == input.getRev()" ;;;
   input <-
     (if negb (shallow repoInfo) then
        n <- getIntAttr infoAttrs "revCount" ;;
        Ok (set_attr input "revCount" (AInt n))
      else Ok input) ;;
   n <- getIntAttr infoAttrs "lastModified" ;;
   Ok (storePath, set_attr input "lastModified" (AInt n)))%res.

(** Lines 286-289: the look-up under the immutable key when [rev] is
    already known. *)
Definition lookupPinned (repoInfo : RepoInfo) (name : string) (input : Input)
    : M (option (Attrs * StorePath)) :=
  (rev <- liftR (getRev input) ;;
   match rev with
   | Some _ =>
       key <- liftR (getImmutableAttrs repoInfo name input) ;;
       cacheLookup key
   | None => ret None
   end)%fetch.

(** Lines 292-322: the unclean working tree. *)
Definition fetchDirty (repoInfo : RepoInfo) (input : Input)
    : M (StorePath * Input) :=
  (checkDirty repoInfo ;;;
   files <- listFiles repoInfo ;;
   name <- liftR (getName input) ;;
   storePath <- addToStoreM name (url repoInfo)
                  (trackedFiles (url repoInfo) files) ;;
   lastModified <-
     (if hasCommits repoInfo then
        out <- runProgram ["-C"; url repoInfo; "log"; "-1"; "--format=%ct";
                           "--no-show-signature"; "HEAD"] ;;
        liftR (stoullR out)
      else ret 0) ;;
   ret (storePath, set_attr input "lastModified" (AInt lastModified)))%fetch.

(** Line 325: the default [ref]. *)
Definition defaultRef (repoInfo : RepoInfo) (input : Input) : M Input :=
  (ref <- liftR (getRef input) ;;
   match ref with
   | Some _ => ret input
   | None =>
       r <- (if isLocal repoInfo then readHead (url repoInfo) else ret "master") ;;
       ret (set_attr input "ref" (AStr r))
   end)%fetch.

(** [*input.getRef()]. *)
Definition theRef (input : Input) : Res string :=
  required "ref" (getRef input).

Definition mutableAttrsOf (repoInfo : RepoInfo) (name ref : string) : Attrs :=
  mkAttrs [("type", AStr (cacheType repoInfo));
           ("name", AStr name);
           ("url", AStr (url repoInfo));
           ("ref", AStr ref)].

(** How the resolution of the revision ends: with the result of the
    whole [fetch] (the [return] of line 350), or with the repository to
    read and the input that now has its [rev]. *)
Inductive Resolution : Type :=
  | Returned (result : StorePath * Input)
  | Resolved (repoDir : Path) (input : Input).

(** Lines 336-342: a local repository. *)
Definition resolveLocal (repoInfo : RepoInfo) (input : Input) : M Resolution :=
  (rev <- liftR (getRev input) ;;
   input <-
     match rev with
     | Some _ => ret input
     | None =>
         ref <- liftR (theRef input) ;;
         out <- runProgram ["-C"; url repoInfo; "rev-parse"; ref] ;;
         r <- liftR (gitRevOf (chomp out)) ;;
         ret (set_attr input "rev" (AStr r))
     end ;;
   ret (Resolved (url repoInfo) input))%fetch.

(** Lines 346-352: the look-up under the mutable key. *)
Definition lookupMutable (_input : Input) (repoInfo : RepoInfo)
    (mutableAttrs : Attrs) (input : Input) : M (option (StorePath * Input)) :=
  (res <- cacheLookup mutableAttrs ;;
   match res with
   | Some (info, storePath) =>
       s <- liftR (getStrAttr info "rev") ;;
       rev2 <- liftR (gitRevOf s) ;;
       rev <- liftR (getRev input) ;;
       if match rev with None => true | Some r => String.eqb r rev2 end then
         let input := set_attr input "rev" (AStr rev2) in
         r <- liftR (makeResult _input repoInfo input info storePath) ;;
         ret (Some r)
       else ret None
   | None => ret None
   end)%fetch.

Definition cacheDirOf (repoInfo : RepoInfo) : Path :=
  getCacheDir E ++ "/nix/gitv3/" ++ hashString E (url repoInfo).

(** Lines 364-367. *)
Definition localRefFileOf (cacheDir : Path) (ref : string) : Path :=
  if hasPrefix ref "refs/" then cacheDir ++ "/" ++ ref
  else cacheDir ++ "/refs/heads/" ++ ref.

(** [(uint64_t) x]. *)
Definition u64 (x : Z) : Z := x mod 2 ^ 64.

(** Lines 369-395: [doFetch]. *)
Definition needFetch (repoInfo : RepoInfo) (repoDir localRefFile : Path)
    (input : Input) (now : Z) : M bool :=
  (rev <- liftR (getRev input) ;;
   match rev with
   | Some r =>
       try_catch
         (runProgram ["-C"; repoDir; "cat-file"; "-e"; r] ;;; ret false)
         (fun e =>
            match e with
            | ExecError true _ => ret true
            | _ => throw e
            end)
   | None =>
       if allRefs repoInfo then ret true
       else
         st <- stat localRefFile ;;
         ret (match st with
              | None => true
              | Some st_mtime =>
                  Z.leb (u64 (u64 st_mtime + tarballTtl E)) (u64 now)
              end)
   end)%fetch.

(** The ref that the refresh asks the remote for. *)
Definition fetchRefOf (repoInfo : RepoInfo) (ref : string) : string :=
  if allRefs repoInfo then "refs/*"
  else if hasPrefix ref "refs/" then ref
  else if String.eqb ref "HEAD" then ref
  else "refs/heads/" ++ ref.

Definition fetchArgs (repoInfo : RepoInfo) (repoDir : Path) (ref : string)
    : list string :=
  let fetchRef := fetchRefOf repoInfo ref in
  ["-C"; repoDir; "fetch"; "--quiet"; "--force"; "--"; url repoInfo;
   fetchRef ++ ":" ++ fetchRef].

Definition staleWarning (url : string) : string :=
  "could not update local clone of Git repository '" ++ url
  ++ "'; continuing with the most recent version".

(** Lines 397-424: the body of [if (doFetch)]. [catch (Error & e)] takes
    what derives from [nix::Error]; a failed assertion, an interrupt and
    the exceptions of the standard library pass through it. *)
Definition refresh (repoInfo : RepoInfo) (repoDir localRefFile : Path)
    (input : Input) (now : Z) : M unit :=
  (try_catch
     (ref <- liftR (theRef input) ;;
      runProgram (fetchArgs repoInfo repoDir ref) ;;;
      ret tt)
     (fun e =>
        match e with
        | AssertionFailed _ | Interrupted | InvalidNumber _ | OutOfRange _ =>
            throw e
        | _ =>
            exists_ <- pathExists localRefFile ;;
            if negb exists_ then throw e
            else emit (EvWarn (staleWarning (url repoInfo)))
        end) ;;;
   utimes localRefFile now)%fetch.

(** Lines 426-427. *)
Definition revFromRefFile (localRefFile : Path) (input : Input) : M Input :=
  (rev <- liftR (getRev input) ;;
   match rev with
   | Some _ => ret input
   | None =>
       content <- readFile localRefFile ;;
       r <- liftR (gitRevOf (chomp content)) ;;
       ret (set_attr input "rev" (AStr r))
   end)%fetch.

(** Lines 369-427: decide, refresh if need be, and read the revision. *)
Definition syncMirror (repoInfo : RepoInfo) (repoDir localRefFile : Path)
    (input : Input) (now : Z) : M Input :=
  (doFetch <- needFetch repoInfo repoDir localRefFile input now ;;
   (if doFetch then refresh repoInfo repoDir localRefFile input now
    else ret tt) ;;;
   revFromRefFile localRefFile input)%fetch.

(** Lines 354-430: the local mirror of a remote repository, under its
    lock. *)
Definition useMirror (repoInfo : RepoInfo) (input : Input) : M Resolution :=
  (let cacheDir := cacheDirOf repoInfo in
   let repoDir := cacheDir in
   createDirs (dirOf cacheDir) ;;;
   emit (EvLock (cacheDir ++ ".lock")) ;;;
   scoped [EvUnlock (cacheDir ++ ".lock")]
     (exists_ <- pathExists cacheDir ;;
      (if negb exists_ then
         runProgram ["-c"; "init.defaultBranch=" ++ gitInitialBranch;
                     "init"; "--bare"; repoDir] ;;; ret tt
       else ret tt) ;;;
      ref <- liftR (theRef input) ;;
      let localRefFile := localRefFileOf cacheDir ref in
      now <- time ;;
      input <- syncMirror repoInfo repoDir localRefFile input now ;;
      ret (Resolved repoDir input)))%fetch.

(** Lines 344-430: a remote repository. *)
Definition resolveRemote (_input : Input) (repoInfo : RepoInfo)
    (mutableAttrs : Attrs) (input : Input) : M Resolution :=
  (hit <- lookupMutable _input repoInfo mutableAttrs input ;;
   match hit with
   | Some result => ret (Returned result)
   | None => useMirror repoInfo input
   end)%fetch.

(** Lines 432-435: the shallow check. *)
Definition checkShallow (repoInfo : RepoInfo) (repoDir : Path) : M unit :=
  (out <- runProgram ["-C"; repoDir; "rev-parse"; "--is-shallow-repository"] ;;
   let isShallow := String.eqb (chomp out) "true" in
   if isShallow && negb (shallow repoInfo)
   then throw (ShallowRepository (url repoInfo))
   else ret tt)%fetch.

Definition contains (needle s : string) : bool :=
  match String.index 0 needle s with Some _ => true | None => false end.

(** Lines 469-497: the tree of the revision, in [tmpDir]. *)
Definition extract (repoInfo : RepoInfo) (repoDir tmpDir : Path) (rev : string)
    : M Filter :=
  (if submodules repoInfo then
     tmpGitDir <- createTempDirM ;;
     scoped [EvDelete tmpGitDir]
       (runProgram ["-c"; "init.defaultBranch=" ++ gitInitialBranch; "init";
                    tmpDir; "--separate-git-dir"; tmpGitDir] ;;;
        runProgram ["-C"; tmpDir; "fetch"; "--quiet"; "--force";
                    "--update-head-ok"; "--"; repoDir; "refs/*:refs/*"] ;;;
        runProgram ["-C"; tmpDir; "checkout"; "--quiet"; rev] ;;;
        runProgram ["-C"; tmpDir; "remote"; "add"; "origin"; url repoInfo] ;;;
        runProgram ["-C"; tmpDir; "submodule"; "--quiet"; "update"; "--init";
                    "--recursive"] ;;;
        ret Fetchers.isNotDotGitDirectory)
   else
     tar <- runProgram ["-C"; repoDir; "archive"; rev] ;;
     w <- get_world ;;
     fs <- liftR (of_option (SysError "unpackTarfile" tmpDir)
                    (unpackTarfile E tar tmpDir (files w))) ;;
     set_files fs ;;;
     emit (EvUnpack tmpDir) ;;;
     ret defaultPathFilter)%fetch.

(** Lines 512-525: what is written to the cache. *)
Definition recordInCache (_input : Input) (repoInfo : RepoInfo) (name : string)
    (mutableAttrs : Attrs) (input : Input) (infoAttrs : Attrs)
    (storePath : StorePath) : M unit :=
  (_rev <- liftR (getRev _input) ;;
   (match _rev with
    | None => cacheAdd mutableAttrs infoAttrs storePath false
    | Some _ => ret tt
    end) ;;;
   key <- liftR (getImmutableAttrs repoInfo name input) ;;
   cacheAdd key infoAttrs storePath true)%fetch.

(** Lines 446-527: extraction, ingestion and the cache. *)
Definition ingest (_input : Input) (repoInfo : RepoInfo) (name : string)
    (mutableAttrs : Attrs) (repoDir : Path) (input : Input) (rev : string)
    : M (StorePath * Input) :=
  (tmpDir <- createTempDirM ;;
   scoped [EvDelete tmpDir]
     (result <- runProgramStatus ["-C"; repoDir; "cat-file"; "commit"; rev] ;;
      (if Z.eqb (WEXITSTATUS (fst result)) 128 && contains "bad file" (snd result)
       then
         ref <- liftR (theRef input) ;;
         throw (RevisionNotFound rev ref (url repoInfo))
       else ret tt) ;;;
      filter <- extract repoInfo repoDir tmpDir rev ;;
      storePath <- addToStoreM name tmpDir filter ;;
      out <- runProgram ["-C"; repoDir; "log"; "-1"; "--format=%ct";
                         "--no-show-signature"; rev] ;;
      lastModified <- liftR (stoullR out) ;;
      let infoAttrs := mkAttrs [("rev", AStr rev);
                                ("lastModified", AInt lastModified)] in
      infoAttrs <-
        (if negb (shallow repoInfo) then
           out <- runProgram ["-C"; repoDir; "rev-list"; "--count"; rev] ;;
           n <- liftR (stoullR out) ;;
           ret (SMap.insert_or_assign "revCount" (AInt n) infoAttrs)
         else ret infoAttrs) ;;
      recordInCache _input repoInfo name mutableAttrs input infoAttrs storePath ;;;
      liftR (makeResult _input repoInfo input infoAttrs storePath)))%fetch.

(** Lines 432-527: what follows the resolution of the revision. *)
Definition fetchResolved (_input : Input) (repoInfo : RepoInfo) (name : string)
    (mutableAttrs : Attrs) (repoDir : Path) (input : Input)
    : M (StorePath * Input) :=
  (checkShallow repoInfo repoDir ;;;
   rev <- liftR (getRev input) ;;
   rev <- liftR (of_option (AssertionFailed "input.getRev()") rev) ;;
   key <- liftR (getImmutableAttrs repoInfo name input) ;;
   res <- cacheLookup key ;;
   match res with
   | Some (info, storePath) =>
       liftR (makeResult _input repoInfo input info storePath)
   | None => ingest _input repoInfo name mutableAttrs repoDir input rev
   end)%fetch.

(** [GitInputScheme::fetch(store, _input)]. *)
Definition fetch (_input : Input) : M (StorePath * Input) :=
  (let input := _input in
   repoInfo <- getRepoInfo input ;;
   name <- liftR (getName input) ;;
   pinned <- lookupPinned repoInfo name input ;;
   match pinned with
   | Some (info, storePath) =>
       liftR (makeResult _input repoInfo input info storePath)
   | None =>
       if isDirty repoInfo then fetchDirty repoInfo input
       else
         input <- defaultRef repoInfo input ;;
         ref <- liftR (theRef input) ;;
         let mutableAttrs := mutableAttrsOf repoInfo name ref in
         resolution <-
           (if isLocal repoInfo then resolveLocal repoInfo input
            else resolveRemote _input repoInfo mutableAttrs input) ;;
         match resolution with
         | Returned result => ret result
         | Resolved repoDir input =>
             fetchResolved _input repoInfo name mutableAttrs repoDir input
         end
   end)%fetch.

End WithEnv.

End Git.

(** ** The other operations of [GitInputScheme] *)

Module GitScheme.

Import Fetchers Git.

(** What the front end of the scheme throws: the errors of [Error], and
    two [Error]s of its own. *)
Inductive SchemeError : Type :=
  | UnsupportedAttribute (name : string)  (* "unsupported Git input attribute '%s'" *)
  | CommitWithoutBranch                   (* "Git input '%s' has a commit hash but
                                             no branch/tag name" *)
  | Raised (e : Error).

Inductive Outcome (A : Type) : Type :=
  | Done (a : A)
  | Thrown (e : SchemeError).
Arguments Done {A} a.
Arguments Thrown {A} e.

Definition obind {A B} (m : Outcome A) (f : A -> Outcome B) : Outcome B :=
  match m with
  | Done a => f a
  | Thrown e => Thrown e
  end.

Definition raised {A} (r : Res A) : Outcome A :=
  match r with
  | Ok a => Done a
  | Err e => Thrown (Raised e)
  end.

Declare Scope scheme_scope.
Delimit Scope scheme_scope with scheme.
Notation "x <- m ;; k" := (obind m (fun x => k))
  (at level 61, m at next level, right associativity) : scheme_scope.
Notation "m ;;; k" := (obind m (fun _ => k))
  (at level 61, right associativity) : scheme_scope.

(** The condition of the loop of [inputFromAttrs]: the name is none of
    the eleven that the scheme knows. *)
Definition unsupported (name : string) : bool :=
  negb (String.eqb name "type") && negb (String.eqb name "url")
  && negb (String.eqb name "ref") && negb (String.eqb name "rev")
  && negb (String.eqb name "shallow") && negb (String.eqb name "submodules")
  && negb (String.eqb name "lastModified") && negb (String.eqb name "revCount")
  && negb (String.eqb name "narHash") && negb (String.eqb name "allRefs")
  && negb (String.eqb name "name").

(** The loop over the attributes, in the order of the map. *)
Fixpoint checkNames (attrs : Attrs) : Outcome unit :=
  match attrs with
  | [] => Done tt
  | (name, _) :: rest =>
      if unsupported name then Thrown (UnsupportedAttribute name)
      else checkNames rest
  end.

(** What [lazyFetch] returns: what [InputScheme::lazyFetch(store, input)]
    of the base class returns, or an accessor on the working tree. *)
Inductive LazyResult : Type :=
  | InputScheme_lazyFetch (input : Input)
  | WorkingTree (accessor : FS.FSInputAccessor) (input : Input).

Section WithEnv.

Variable E : Env.

(** [std::regex_search(ref, badGitRefRegex)]; the expression is defined in
    url-parts.hh. *)
Variable badGitRef : string -> bool.

(** [GitInputScheme::inputFromAttrs]. *)
Definition inputFromAttrs (attrs : Attrs) : Outcome (option Input) :=
  (type <- raised (maybeGetStrAttr attrs "type") ;;
   if negb (opt_eqb type (Some "git")) then Done None
   else
     checkNames attrs ;;;
     s <- raised (getStrAttr attrs "url") ;;
     raised (of_option (BadURL s) (parseURL E s)) ;;;
     raised (maybeGetBoolAttr attrs "shallow") ;;;
     raised (maybeGetBoolAttr attrs "submodules") ;;;
     raised (maybeGetBoolAttr attrs "allRefs") ;;;
     ref <- raised (maybeGetStrAttr attrs "ref") ;;
     (match ref with
      | Some ref =>
          if badGitRef ref then Thrown (Raised (BadURL ref)) else Done tt
      | None => Done tt
      end) ;;;
     Done (Some (mkInput attrs)))%scheme.

(** [GitInputScheme::hasAllInfo]. *)
Definition hasAllInfo (input : Input) : Res bool :=
  (ref <- getRef input ;;
   let maybeDirty := match ref with Some _ => false | None => true end in
   shallow <- maybeGetBoolAttr (attrs input) "shallow" ;;
   let shallow := value_or false shallow in
   lastModified <- maybeGetIntAttr (attrs input) "lastModified" ;;
   match lastModified with
   | None => Ok false
   | Some _ =>
       if shallow || maybeDirty then Ok true
       else
         revCount <- maybeGetIntAttr (attrs input) "revCount" ;;
         Ok (match revCount with Some _ => true | None => false end)
   end)%res.

(** [GitInputScheme::applyOverrides]; [rev] is the [gitRev()] of the hash
    that is passed. *)
Definition applyOverrides (input : Input) (ref rev : option string)
    : Outcome Input :=
  (let res := input in
   let res := match rev with Some r => set_attr res "rev" (AStr r) | None => res end in
   let res := match ref with Some r => set_attr res "ref" (AStr r) | None => res end in
   r <- raised (getRef res) ;;
   match r with
   | Some _ => Done res
   | None =>
       rv <- raised (getRev E res) ;;
       match rv with
       | Some _ => Thrown CommitWithoutBranch
       | None => Done res
       end
   end)%scheme.

(** [GitInputScheme::clone]. *)
Definition clone (input : Input) (destDir : Path) : M unit :=
  (repoInfo <- getRepoInfo E input ;;
   let args := ["clone"; url repoInfo] in
   ref <- liftR (getRef input) ;;
   let args :=
     match ref with
     | Some ref => (args ++ ["--branch"; ref])%list
     | None => args
     end in
   rev <- liftR (getRev E input) ;;
   match rev with
   | Some _ =>
       throw (Unimplemented "cloning a specific revision is not implemented")
   | None =>
       runProgram E (args ++ [destDir])%list ;;; ret tt
   end)%fetch.

(** [GitInputScheme::getSourcePath]. *)
Definition getSourcePath (input : Input) : Res (option Path) :=
  (s <- getStrAttr (attrs input) "url" ;;
   url <- of_option (BadURL s) (parseURL E s) ;;
   if String.eqb (scheme url) "file" then
     ref <- getRef input ;;
     match ref with
     | Some _ => Ok None
     | None =>
         rev <- getRev E input ;;
         match rev with
         | Some _ => Ok None
         | None => Ok (Some (path url))
         end
     end
   else Ok None)%res.

(** [GitInputScheme::markChangedFile]. *)
Definition markChangedFile (input : Input) (file : string)
    (commitMsg : option string) : M unit :=
  (sourcePath <- liftR (getSourcePath input) ;;
   sourcePath <- liftR (of_option (AssertionFailed "sourcePath") sourcePath) ;;
   runProgram E ["-C"; sourcePath; "add"; "--force"; "--intent-to-add"; "--";
                 file] ;;;
   match commitMsg with
   | Some msg =>
       runProgram E ["-C"; sourcePath; "commit"; file; "-m"; msg] ;;; ret tt
   | None => ret tt
   end)%fetch.

(** [GitInputScheme::lazyFetch]. *)
Definition lazyFetch (input : Input) : M LazyResult :=
  (repoInfo <- getRepoInfo E input ;;
   ref <- liftR (getRef input) ;;
   viaStore <-
     match ref with
     | Some _ => ret true
     | None =>
         rev <- liftR (getRev E input) ;;
         ret (match rev with Some _ => true | None => negb (isLocal repoInfo) end)
     end ;;
   if viaStore : bool then ret (InputScheme_lazyFetch input)
   else
     checkDirty E repoInfo ;;;
     files <- listFiles E repoInfo ;;
     accessor <- liftR (FS.makeFSInputAccessor (url repoInfo) (Some files)) ;;
     ret (WorkingTree accessor input))%fetch.

End WithEnv.

(** [ParsedURL] with its query: the scheme, the parameters of the query,
    and the rest (authority, path and fragment), which the scheme passes
    on untouched. *)
Record URL : Type := mkParsedURL {
  u_scheme : string;
  u_rest : string;
  query : SMap.t string
}.

(** One round of the loop of [inputFromURL] over [url.query]: [rev] and
    [ref] become string attributes, [shallow] and [submodules] become
    [Explicit<bool> { value == "1" }], and any other parameter goes to the
    query of [url2]. *)
Definition fromQuery (st : Attrs * SMap.t string) (nv : string * string)
    : Attrs * SMap.t string :=
  let (attrs, query2) := st in
  let (name, value) := nv in
  if String.eqb name "rev" || String.eqb name "ref"
  then (fst (SMap.emplace name (AStr value) attrs), query2)
  else if String.eqb name "shallow" || String.eqb name "submodules"
  then (fst (SMap.emplace name (ABool (String.eqb value "1")) attrs), query2)
  else (attrs, fst (SMap.emplace name value query2)).

Section URLs.

Variable E : Env.
Variable badGitRef : string -> bool.

(** [ParsedURL::to_string] and [parseURL] of url.cc, the latter with the
    query it reads. *)
Variable to_string : URL -> string.
Variable parseURLq : string -> option URL.

(** [GitInputScheme::inputFromURL]. *)
Definition inputFromURL (url : URL) : Outcome (option Input) :=
  if negb (String.eqb (u_scheme url) "git")
     && negb (String.eqb (u_scheme url) "git+http")
     && negb (String.eqb (u_scheme url) "git+https")
     && negb (String.eqb (u_scheme url) "git+ssh")
     && negb (String.eqb (u_scheme url) "git+file")
  then Done None
  else
    let scheme2 :=
      if hasPrefix (u_scheme url) "git+" then substr (u_scheme url) 4
      else u_scheme url in
    let attrs := fst (SMap.emplace "type" (AStr "git") []) in
    let (attrs, query2) := fold_left fromQuery (query url) (attrs, []) in
    let url2 := mkParsedURL scheme2 (u_rest url) query2 in
    let attrs := fst (SMap.emplace "url" (AStr (to_string url2)) attrs) in
    inputFromAttrs E badGitRef attrs.

(** [GitInputScheme::toURL]. *)
Definition toURL (input : Input) : Res URL :=
  (s <- getStrAttr (attrs input) "url" ;;
   url <- of_option (BadURL s) (parseURLq s) ;;
   let url :=
     if negb (String.eqb (u_scheme url) "git")
     then mkParsedURL ("git+" ++ u_scheme url) (u_rest url) (query url)
     else url in
   rev <- getRev E input ;;
   let url :=
     match rev with
     | Some rev =>
         mkParsedURL (u_scheme url) (u_rest url)
           (SMap.insert_or_assign "rev" rev (query url))
     | None => url
     end in
   ref <- getRef input ;;
   let url :=
     match ref with
     | Some ref =>
         mkParsedURL (u_scheme url) (u_rest url)
           (SMap.insert_or_assign "ref" ref (query url))
     | None => url
     end in
   shallow <- maybeGetBoolAttr (attrs input) "shallow" ;;
   Ok (if value_or false shallow
       then mkParsedURL (u_scheme url) (u_rest url)
              (SMap.insert_or_assign "shallow" "1" (query url))
       else url))%res.

End URLs.

End GitScheme.

(** ** A small world to run [fetch] in *)

Module Fixture.

Import Fetchers Git.

Definition newline : string := String "010"%char EmptyString.

Definition rev1 : string := "1111111111111111111111111111111111111111".

(** Decimal digits at the start of a string, as [std::stoull] reads them. *)
Fixpoint digits (acc : option Z) (s : string) : option Z :=
  match s with
  | EmptyString => acc
  | String c s' =>
      let n := Z.of_N (N_of_ascii c) in
      if Z.leb 48 n && Z.leb n 57
      then digits (Some (10 * value_or 0 acc + (n - 48))) s'
      else acc
  end.

Definition sampleParseURL (s : string) : option ParsedURL :=
  if hasPrefix s "file://" then Some (mkURL "file" s (substr s 7))
  else if hasPrefix s "https://" then Some (mkURL "https" s (substr s 8))
  else None.

(** A [git] that answers from a script: the upstream can or cannot be
    reached, the repository is or is not shallow; a successful fetch
    leaves [rev1] behind the ref [main]. *)
Definition sampleGit (upstreamOk isShallow : bool) (args : list string)
    (fs : Files) : GitRun :=
  match args with
  | ["-C"; dir; "fetch"; "--quiet"; "--force"; "--"; _; _] =>
      if upstreamOk
      then mkRun (Exited 0) ""
             (update fs (dir ++ "/refs/heads/main")
                (Some (RegularFile 0 (rev1 ++ newline))))
      else mkRun (Exited 128) "" fs
  | ["-c"; _; "init"; "--bare"; dir] =>
      mkRun (Exited 0) "" (update fs dir (Some (Directory 0 ["refs"])))
  | ["-C"; _; "rev-parse"; "--is-shallow-repository"] =>
      mkRun (Exited 0) ((if isShallow then "true" else "false") ++ newline) fs
  | ["-C"; _; "cat-file"; "-e"; _] => mkRun (Exited 1) "" fs
  | ["-C"; _; "log"; "-1"; _; _; _] => mkRun (Exited 0) ("1700000000" ++ newline) fs
  | ["-C"; _; "rev-list"; "--count"; _] => mkRun (Exited 0) ("42" ++ newline) fs
  | _ => mkRun (Exited 0) "" fs
  end.

Definition sampleEnv (ttl : Z) (upstreamOk isShallow : bool) : Env :=
  mkEnv sampleParseURL
    (fun s => if Nat.eqb (String.length s) 40 then Some s else None)
    "/cache"
    (fun _ => "0mirror")
    false ttl true true
    (sampleGit upstreamOk isShallow)
    (digits None)
    (fun fs => ("/tmp/nix-1", fs))
    (fun _ _ fs => Some fs)
    (fun name _ _ _ => Some ("/nix/store/0000-" ++ name)).

Definition remoteUrl : string := "https://example.org/repo".

(** [{ type = "git"; url = ...; ref = "main"; }] *)
Definition byRef : Input :=
  mkInput (mkAttrs [("type", AStr "git"); ("url", AStr remoteUrl);
                    ("ref", AStr "main")]).

(** The same with [rev] pinned. *)
Definition byRev : Input := set_attr byRef "rev" (AStr rev1).

(** The same with [allRefs = true]. *)
Definition byRefAllRefs : Input := set_attr byRef "allRefs" (ABool true).

(** The same with [shallow = true]. *)
Definition byRefShallow : Input := set_attr byRef "shallow" (ABool true).

(** A pinned revision of a repository given by a [file://] URL. *)
Definition localByRev : Input :=
  mkInput (mkAttrs [("type", AStr "git"); ("url", AStr "file:///repo");
                    ("ref", AStr "main"); ("rev", AStr rev1)]).

Definition emptyWorld (now : Z) : World := mkWorld (fun _ => None) [] now.

(** The world a first [fetch] of [input] leaves, with the clock moved. *)
Definition afterFetch (E : Env) (input : Input) (w : World) (later : Z) : World :=
  let w' := world_of (fetch E input w) in
  mkWorld (files w') (cache w') later.

End Fixture.

(** ** Notions used to state the properties *)

Module FSSpec.

Import Accessor FS.

(** The claim of C2 read literally, as a property of one accessor with an
    allow-list: a path under the root other than the root itself is let
    through exactly when it equals or is nested under an entry. *)
Definition nested_under_entry_rule (a : FSInputAccessor) : Prop :=
  forall allowed absPath,
    allowedPaths a = Some allowed ->
    isDirOrInDir absPath (root a) = true ->
    subPathOf a absPath <> "" ->
    (isAllowed a absPath = true <->
     exists entry, In entry allowed
       /\ isDirOrInDir ("/" ++ subPathOf a absPath) ("/" ++ entry) = true).

Definition emptyHost : HostFS :=
  mkHost (fun _ => None) (fun _ => false) (fun _ => None) (fun _ => None)
    (fun _ => None).

Definition fullHost : HostFS :=
  mkHost (fun _ => Some "data") (fun _ => true) (fun _ => Some S_IFREG)
    (fun _ => Some []) (fun _ => Some "target").

End FSSpec.

Module ZipSpec.

Import Accessor Zip.

(** An archive with a directory, an executable file and a symbolic link,
    all written on Unix: the attributes hold [st_mode] in their upper 16
    bits (octal 040755, 0100755 and 0120777). *)
Definition sampleArchive : list ZipEntry :=
  [ mkZipEntry "top/dir/" 0 (Some (ZIP_OPSYS_UNIX, Z.shiftl 16877 16));
    mkZipEntry "top/dir/tool" 4 (Some (ZIP_OPSYS_UNIX, Z.shiftl 33261 16));
    mkZipEntry "top/link" 3 (Some (ZIP_OPSYS_UNIX, Z.shiftl 41471 16));
    mkZipEntry "top/fifo" 0 (Some (ZIP_OPSYS_UNIX, Z.shiftl 4516 16)) ].

End ZipSpec.

Module DumpSpec.

Import Accessor.

(** With [useCaseHack] off, the loop that fills [unhacked] is a fold of
    [emplace(name, name)] and cannot fail. *)
Definition collected (entries : list (string * option Type_))
    (unhacked : SMap.t string) : SMap.t string :=
  fold_left (fun m e => fst (SMap.emplace (fst e) (fst e) m)) entries unhacked.

(** What a call made while dumping [root] under [filter] looks like: the
    filter is asked about paths below [root], and answers as [filter]
    does; the accessor is asked about [root] and about paths below it
    that the filter lets through. *)
Definition visits (root : Path) (filter : Path -> bool) (c : Call) : Prop :=
  match c with
  | CallFilter p answer =>
      hasPrefix p (root ++ "/") = true /\ answer = filter p
  | CallLstat p | CallReadFile p | CallReadDirectory p | CallReadLink p =>
      p = root \/ (hasPrefix p (root ++ "/") = true /\ filter p = true)
  end.

(** [m] only adds calls, and those it adds satisfy [P]. *)
Definition emits (P : Call -> Prop) {A} (m : D A) : Prop :=
  forall s, exists new, calls (snd (m s)) = (calls s ++ new)%list /\ Forall P new.

(** Pruning: the accessor that hides from every listing the entries the
    filter refuses. *)
Definition prune (filter : Path -> bool) (acc : InputAccessor) : InputAccessor :=
  mkAccessor (readFile acc) (pathExists acc) (lstat acc)
    (fun p =>
       (entries <- readDirectory acc p ;;
        Ok (List.filter (fun e => filter (p ++ "/" ++ fst e)) entries))%res)
    (readLink acc).

(** Two runs that wrote the same bytes and ended alike, with results
    related by [R]. *)
Definition outcome_rel {A B} (R : A -> B -> Prop)
    (x : Res A * DumpState) (y : Res B * DumpState) : Prop :=
  sink (snd x) = sink (snd y)
  /\ match fst x, fst y with
     | Ok a, Ok b => R a b
     | Err e, Err e' => e = e'
     | _, _ => False
     end.

Definition simR {A B} (R : A -> B -> Prop) (m1 : D A) (m2 : D B) : Prop :=
  forall s1 s2, sink s1 = sink s2 -> outcome_rel R (m1 s1) (m2 s2).

(** A host where [/R] holds the file [a] and the directory [b], and [b]
    the file [c]. *)
Definition sampleHost (listing : list FS.HostDirEntry) : FS.HostFS :=
  FS.mkHost
    (fun p => if String.eqb p "/R/a" then Some "hello"
              else if String.eqb p "/R/b/c" then Some "bye" else None)
    (fun _ => true)
    (fun p => if String.eqb p "/R" || String.eqb p "/R/b"
              then Some FS.S_IFDIR else Some FS.S_IFREG)
    (fun p => if String.eqb p "/R" then Some listing
              else if String.eqb p "/R/b"
                   then Some [FS.mkEntry "c" FS.DT_REG] else None)
    (fun _ => None).

Definition deq {A} (m1 m2 : D A) : Prop := forall s, m1 s = m2 s.

(** Two accessors that answer alike, up to the types that their listings
    attach to the names. *)
Definition same_answers (acc1 acc2 : InputAccessor) : Prop :=
  (forall p, readFile acc1 p = readFile acc2 p)
  /\ (forall p, lstat acc1 p = lstat acc2 p)
  /\ (forall p, readLink acc1 p = readLink acc2 p)
  /\ (forall p, match readDirectory acc1 p, readDirectory acc2 p with
                | Ok e1, Ok e2 => map fst e1 = map fst e2
                | Err x, Err y => x = y
                | _, _ => False
                end).

Definition listed (a : FS.FSInputAccessor) (absPath : Path)
    (l : list FS.HostDirEntry) (k : string) : Prop :=
  exists e, In e l /\ FS.name e = k
            /\ FS.isAllowed a (absPath ++ "/" ++ FS.name e) = true.

(** Two hosts that hold the same tree: they agree on every file, every
    [st_mode] and every link, and list every directory with the same
    entries, in whatever order. *)
Definition same_tree (h1 h2 : FS.HostFS) : Prop :=
  (forall p, FS.h_readFile h1 p = FS.h_readFile h2 p)
  /\ (forall p, FS.h_lstat h1 p = FS.h_lstat h2 p)
  /\ (forall p, FS.h_readLink h1 p = FS.h_readLink h2 p)
  /\ (forall p, match FS.h_readDirectory h1 p, FS.h_readDirectory h2 p with
                | Some l1, Some l2 => Permutation l1 l2
                | None, None => True
                | _, _ => False
                end).

End DumpSpec.

Module GitSpec.

Import Fetchers Git Fixture.

Section WithEnv.

Variable E : Env.

(** What [needFetch] answers for a request without [rev]. *)
Definition stale (repoInfo : RepoInfo) (marker : Path) (t : Z) (w : World) : bool :=
  allRefs repoInfo
  || match files w marker with
     | None => true
     | Some node => Z.leb (u64 (u64 (mtime_of node) + tarballTtl E)) (u64 t)
     end.

Definition only (P : Event -> Prop) {A} (m : M A) : Prop :=
  forall w, Forall P (events_of (m w)).

(** Before the extraction nothing is ingested and nothing is written to
    the cache. *)
Definition preliminary (e : Event) : Prop :=
  is_ingestion e = false /\ is_cache_add e = false.

Definition no_cache_add (e : Event) : Prop := is_cache_add e = false.

Definition shallowProbe (repoDir : Path) : list string :=
  ["-C"; repoDir; "rev-parse"; "--is-shallow-repository"].

End WithEnv.

Definition E1 : Env := sampleEnv 3600 true false.

Definition mirror : Path := "/cache/nix/gitv3/0mirror".

Definition mainMarker : Path := "/cache/nix/gitv3/0mirror/refs/heads/main".

Definition remoteInfo (shallow allRefs : bool) (cacheType : string) : RepoInfo :=
  mkRepoInfo shallow false allRefs cacheType false false true remoteUrl.

Definition fullInfo : Attrs :=
  mkAttrs [("rev", AStr rev1); ("lastModified", AInt 1700000000);
           ("revCount", AInt 42)].

(** The claim of C1 read literally, for one request in one world. *)
Definition silent_on_pinned_hit (E : Env) (input : Input) (w : World) : Prop :=
  forall rev repoInfo name info sp,
    getRev E input = Ok (Some rev) ->
    result_of (getRepoInfo E input w) = Ok repoInfo ->
    getName input = Ok name ->
    cache_lookup (tarballTtl E) (now w)
      (mkAttrs [("type", AStr (cacheType repoInfo)); ("name", AStr name);
                ("rev", AStr rev)]) (cache w) = Some (info, sp) ->
    result_of (fetch E input w) = makeResult E input repoInfo input info sp
    /\ forall e, In e (events_of (fetch E input w)) ->
                 is_git e = false /\ is_fs e = false.

(** The claim of C3 read literally, for one request in one world: the
    mirror is refreshed exactly when [allRefs] is set or the marker is
    absent or too old. *)
Definition refreshed_iff_stale (E : Env) (input : Input) (w : World) : Prop :=
  forall repoInfo ref,
    result_of (getRepoInfo E input w) = Ok repoInfo ->
    isLocal repoInfo = false ->
    getRev E input = Ok None ->
    theRef input = Ok ref ->
    (existsb is_refresh (events_of (fetch E input w)) = true
     <-> allRefs repoInfo = true
         \/ files w (localRefFileOf (cacheDirOf E repoInfo) ref) = None
         \/ exists node,
              files w (localRefFileOf (cacheDirOf E repoInfo) ref) = Some node
              /\ tarballTtl E < now w - mtime_of node).

(** What the first fetch of [byRef] returns. *)
Definition firstResult : StorePath * Input :=
  ("/nix/store/0000-source",
   mkInput (mkAttrs [("type", AStr "git"); ("url", AStr remoteUrl);
                     ("ref", AStr "main"); ("rev", AStr rev1);
                     ("revCount", AInt 42);
                     ("lastModified", AInt 1700000000)])).

End GitSpec.

Module MemorySpec.

Import Memory.

(** The accessor after a sequence of [addFile] calls. *)
Definition added (adds : list (Path * string)) : MemoryInputAccessorImpl :=
  fold_left (fun m e => addFile m (fst e) (snd e)) adds makeMemoryInputAccessor.

End MemorySpec.

Module ZipIndexSpec.

Import Zip.

(** The first member of the archive, counted from [n], whose name from
    its first slash on is [k]. *)
Fixpoint first_member (k : string) (n : nat) (entries : list ZipEntry)
    : option zip_stat :=
  match entries with
  | [] => None
  | e :: rest =>
      match strchr_slash (ze_name e) with
      | Some slash =>
          if String.eqb k slash then Some (mkZipStat n (ze_size e))
          else first_member k (S n) rest
      | None => first_member k (S n) rest
      end
  end.

(** An archive without an entry for the directory [dir] itself. *)
Definition filesOnly : list ZipEntry :=
  [ mkZipEntry "top/dir/tool" 4 None; mkZipEntry "README" 6 None ].

(** An archive with the entries of [top/], of [top/dir/] and of what
    they hold. *)
Definition nestedArchive : list ZipEntry :=
  [ mkZipEntry "top/" 0 None;
    mkZipEntry "top/dir/" 0 None;
    mkZipEntry "top/dir/sub/" 0 None;
    mkZipEntry "top/dir/sub/deep" 1 None;
    mkZipEntry "top/dir/tool" 4 None;
    mkZipEntry "top/dir.txt" 2 None;
    mkZipEntry "top/file" 5 None ].

End ZipIndexSpec.

Module NarSpec.

Import Accessor DumpSpec.

Local Open Scope nat_scope.

(** The sink holds a whole number of 8-byte words. *)
Definition aligned (s : DumpState) : Prop :=
  Nat.modulo (String.length (sink s)) 8 = 0.

(** [m] keeps the invariant [I] of the state, however it ends. *)
Definition keeps (I : DumpState -> Prop) {A} (m : D A) : Prop :=
  forall s, I s -> I (snd (m s)).

(** A file-system tree; the children of a directory come with their
    names. *)
Inductive Tree : Type :=
  | File (executable : bool) (contents : string)
  | Symlink (target : string)
  | Dir (children : Forest)
with Forest : Type :=
  | NoMore
  | Child (name : string) (node : Tree) (rest : Forest).

Fixpoint names (f : Forest) : list string :=
  match f with
  | NoMore => []
  | Child name _ rest => name :: names rest
  end.

Fixpoint depth (t : Tree) : nat :=
  match t with
  | Dir f => S (depth_children f)
  | _ => 1
  end
with depth_children (f : Forest) : nat :=
  match f with
  | NoMore => 0
  | Child _ node rest => Nat.max (depth node) (depth_children rest)
  end.

(** The serialisation of a tree that sits at [path], the filter being
    asked about every child of a directory by its path. *)
Fixpoint nar (filter : Path -> bool) (path : Path) (t : Tree) : string :=
  match t with
  | File executable contents =>
      Sink.str "(" ++ Sink.str "type" ++ Sink.str "regular"
      ++ (if executable then Sink.str "executable" ++ Sink.str "" else "")
      ++ Sink.str "contents"
      ++ Sink.u64 (N.of_nat (String.length contents))
      ++ (contents ++ Sink.padding (String.length contents))
      ++ Sink.str ")"
  | Symlink target =>
      Sink.str "(" ++ Sink.str "type" ++ Sink.str "symlink"
      ++ Sink.str "target" ++ Sink.str target ++ Sink.str ")"
  | Dir f =>
      Sink.str "(" ++ Sink.str "type" ++ Sink.str "directory"
      ++ nar_children filter path f ++ Sink.str ")"
  end
with nar_children (filter : Path -> bool) (path : Path) (f : Forest) : string :=
  match f with
  | NoMore => ""
  | Child name node rest =>
      (if filter (path ++ "/" ++ name)
       then Sink.str "entry" ++ Sink.str "(" ++ Sink.str "name"
            ++ Sink.str name ++ Sink.str "node"
            ++ nar filter (path ++ "/" ++ name) node ++ Sink.str ")"
       else "")
      ++ nar_children filter path rest
  end.

(** The accessor shows the tree [t] at [path]: [lstat], [readFile] and
    [readLink] answer as [t] says, a directory lists the names of its
    children (in any order, repeated or not: [names f] is what the
    ordered map of [dumpPath] makes of the listing), and so on below, in
    the children that the filter keeps. *)
Fixpoint holds (acc : InputAccessor) (filter : Path -> bool) (path : Path)
    (t : Tree) : Prop :=
  match t with
  | File executable contents =>
      lstat acc path = Ok (mkStat tRegular executable)
      /\ readFile acc path = Ok contents
  | Symlink target =>
      (exists x, lstat acc path = Ok (mkStat tSymlink x))
      /\ readLink acc path = Ok target
  | Dir f =>
      (exists x, lstat acc path = Ok (mkStat tDirectory x))
      /\ (exists entries,
            readDirectory acc path = Ok entries
            /\ SMap.keys (collected entries []) = names f)
      /\ holds_children acc filter path f
  end
with holds_children (acc : InputAccessor) (filter : Path -> bool) (path : Path)
    (f : Forest) : Prop :=
  match f with
  | NoMore => True
  | Child name node rest =>
      (filter (path ++ "/" ++ name) = true ->
       holds acc filter (path ++ "/" ++ name) node)
      /\ holds_children acc filter path rest
  end.

(** [m] returns [a] and appends [out] to the sink. *)
Definition yields {A} (a : A) (out : string) (m : D A) : Prop :=
  forall s, fst (m s) = Ok a /\ sink (snd (m s)) = (sink s ++ out)%string.

(** The tree that [sampleHost] holds below [/R]. *)
Definition sampleTree : Tree :=
  Dir (Child "a" (File false "hello")
         (Child "b" (Dir (Child "c" (File false "bye") NoMore)) NoMore)).

End NarSpec.

Module FSListingSpec.

(** A name that can be a directory entry: one component, and not one
    that [canonPath] drops or resolves. *)
Definition plain (k : string) : Prop :=
  strchr_slash k = None /\ k <> "" /\ k <> "." /\ k <> "..".

End FSListingSpec.

Module GitSchemeSpec.

Import Fetchers Git GitScheme Fixture.

(** How the input that [makeResult] is applied to relates to the request. *)
Definition resolved_from (_input input : Input) : Prop :=
  (forall k, k <> "ref" -> k <> "rev" ->
             SMap.find k (attrs input) = SMap.find k (attrs _input))
  /\ (SMap.find "ref" (attrs input) = SMap.find "ref" (attrs _input)
      \/ (getRef _input = Ok None
          /\ exists r, SMap.find "ref" (attrs input) = Some (AStr r))).

(** A [git] that answers for a working tree with uncommitted changes:
    [diff-index --quiet HEAD] exits with 1, and [ls-files -z] lists [a]
    and [b/c]. *)
Definition workGit (args : list string) (fs : Files) : GitRun :=
  match args with
  | ["-C"; _; "rev-parse"; "--git-common-dir"] =>
      mkRun (Exited 0) (".git" ++ newline) fs
  | ["-C"; _; "diff-index"; "--quiet"; "HEAD"; "--"] => mkRun (Exited 1) "" fs
  | ["-C"; _; "ls-files"; "-z"] =>
      mkRun (Exited 0) ("a" ++ String zero ("b/c" ++ String zero "")) fs
  | ["-C"; _; "log"; "-1"; _; _; _] =>
      mkRun (Exited 0) ("1700000000" ++ newline) fs
  | _ => mkRun (Exited 0) "" fs
  end.

Definition workEnv (allowDirty : bool) : Env :=
  mkEnv sampleParseURL
    (fun s => if Nat.eqb (String.length s) 40 then Some s else None)
    "/cache"
    (fun _ => "0mirror")
    false 3600 allowDirty true
    workGit
    (digits None)
    (fun fs => ("/tmp/nix-1", fs))
    (fun _ _ fs => Some fs)
    (fun name _ _ _ => Some ("/nix/store/0000-" ++ name)).

(** [{ type = "git"; url = "file:///repo"; }] *)
Definition workTree : Input :=
  mkInput (mkAttrs [("type", AStr "git"); ("url", AStr "file:///repo")]).

(** A world where [/repo] is a repository with one branch. *)
Definition workWorld : World :=
  mkWorld
    (fun p => if String.eqb p "/repo/.git" then Some (Directory 0 ["refs"])
              else if String.eqb p "/repo/.git/refs/heads"
                   then Some (Directory 0 ["main"])
                   else None)
    [] 1000.

Definition workInfo : RepoInfo :=
  mkRepoInfo false false false "git" true true true "/repo".

(** A [git] whose repository lacks the commit that is asked for. *)
Definition lostGit (args : list string) (fs : Files) : GitRun :=
  match args with
  | ["-C"; _; "cat-file"; "commit"; _] =>
      mkRun (Exited 128) "fatal: git cat-file: could not get object info; bad file" fs
  | _ => sampleGit true false args fs
  end.

Definition lostEnv : Env :=
  mkEnv sampleParseURL
    (fun s => if Nat.eqb (String.length s) 40 then Some s else None)
    "/cache"
    (fun _ => "0mirror")
    false 3600 true true
    lostGit
    (digits None)
    (fun fs => ("/tmp/nix-1", fs))
    (fun _ _ fs => Some fs)
    (fun name _ _ _ => Some ("/nix/store/0000-" ++ name)).

(** The cache after the writes that a trace records, made at time [t]. *)
Definition replay (t : Z) (evs : list Event) (c : Cache) : Cache :=
  fold_left
    (fun c e =>
       match e with
       | EvCacheAdd key info sp immutable => cache_add t key info sp immutable c
       | _ => c
       end)
    evs c.

(** [m] does not touch the clock and changes the cache only by the
    writes that it records. *)
Definition logged {A} (m : M A) : Prop :=
  forall w,
    now (world_of (m w)) = now w
    /\ cache (world_of (m w)) = replay (now w) (events_of (m w)) (cache w).

(** A key that no entry of the cache and no request uses. *)
Definition otherKey : Attrs := mkAttrs [("type", AStr "tarball")].

(** What the loop of [inputFromURL] makes of a parameter of the query
    when it is an attribute. *)
Definition attrOfQuery (k : string) (q : SMap.t string) : option Attr :=
  if String.eqb k "rev" || String.eqb k "ref"
  then option_map AStr (SMap.find k q)
  else if String.eqb k "shallow" || String.eqb k "submodules"
  then option_map (fun v => ABool (String.eqb v "1")) (SMap.find k q)
  else None.

(** What it leaves in the query. *)
Definition restOfQuery (k : string) (q : SMap.t string) : option string :=
  if String.eqb k "rev" || String.eqb k "ref" || String.eqb k "shallow"
     || String.eqb k "submodules"
  then None
  else SMap.find k q.

(** A printer that leaves the query out, and a reader for what it prints
    for an https URL. *)
Definition printURL (u : URL) : string := u_scheme u ++ "://" ++ u_rest u.

Definition readURL (s : string) : option URL :=
  if hasPrefix s "https://" then Some (mkParsedURL "https" (substr s 8) [])
  else None.

(** [git+https://example.org/repo?ref=main&shallow=1&submodules=1] *)
Definition sampleURL : URL :=
  mkParsedURL "git+https" "example.org/repo"
    [("ref", "main"); ("shallow", "1"); ("submodules", "1")].

Definition fromSampleURL : Input :=
  mkInput
    [("ref", AStr "main"); ("shallow", ABool true); ("submodules", ABool true);
     ("type", AStr "git"); ("url", AStr remoteUrl)].

(** The cache is consulted or written. *)
Definition is_cache_access (e : Event) : bool :=
  match e with
  | EvCacheLookup _ _ | EvCacheAdd _ _ _ _ => true
  | _ => false
  end.

(** [m] leaves the cache as it is and does not consult it. *)
Definition cache_silent {A} (m : M A) : Prop :=
  forall w,
    cache (world_of (m w)) = cache w
    /\ Forall (fun e => is_cache_access e = false) (events_of (m w)).

End GitSchemeSpec.

(** * Properties *)

(** ** The order of strings and the ordered containers *)

Module StrFacts.

Lemma ascii_compare_refl (c : ascii) : Ascii.compare c c = Eq.
Proof. unfold Ascii.compare. apply N.compare_refl. Qed.

Lemma ascii_compare_trans (a b c : ascii) :
  Ascii.compare a b = Lt -> Ascii.compare b c = Lt -> Ascii.compare a c = Lt.
Proof.
  unfold Ascii.compare. rewrite !N.compare_lt_iff. lia.
Qed.

Lemma compare_refl (s : string) : String.compare s s = Eq.
Proof.
  induction s as [|c s IH]; simpl; [reflexivity|].
  now rewrite ascii_compare_refl.
Qed.

Lemma compare_eq (a b : string) : String.compare a b = Eq <-> a = b.
Proof.
  split; [apply String.compare_eq_iff|intros ->; apply compare_refl].
Qed.

Lemma compare_gt_lt (a b : string) :
  String.compare a b = Gt <-> String.compare b a = Lt.
Proof.
  rewrite (String.compare_antisym b a).
  destruct (String.compare a b); simpl; split; congruence.
Qed.

Lemma lt_irrefl (s : string) : ~ Str.lt s s.
Proof. unfold Str.lt. rewrite compare_refl. discriminate. Qed.

Lemma lt_trans (a b c : string) : Str.lt a b -> Str.lt b c -> Str.lt a c.
Proof.
  unfold Str.lt. revert b c.
  induction a as [|x a IH]; intros [|y b] [|z c]; simpl; try congruence.
  destruct (Ascii.compare x y) eqn:Hxy; try discriminate;
    destruct (Ascii.compare y z) eqn:Hyz; try discriminate; intros H1 H2.
  - apply Ascii.compare_eq_iff in Hxy, Hyz. subst.
    rewrite ascii_compare_refl. eauto.
  - apply Ascii.compare_eq_iff in Hxy. subst. now rewrite Hyz.
  - apply Ascii.compare_eq_iff in Hyz. subst. now rewrite Hxy.
  - now rewrite (ascii_compare_trans _ _ _ Hxy Hyz).
Qed.

Lemma lt_asym (a b : string) : Str.lt a b -> ~ Str.lt b a.
Proof. intros H1 H2. exact (lt_irrefl _ (lt_trans _ _ _ H1 H2)). Qed.

Lemma ltb_lt (a b : string) : Str.ltb a b = true <-> Str.lt a b.
Proof.
  unfold Str.ltb, String.ltb, Str.lt.
  destruct (String.compare a b); split; congruence.
Qed.

Lemma eqb_refl (s : string) : String.eqb s s = true.
Proof. apply String.eqb_refl. Qed.

(** Two strictly ascending lists with the same elements are equal. *)
Lemma sorted_ext (l1 l2 : list string) :
  SSet.sorted l1 -> SSet.sorted l2 ->
  (forall k, In k l1 <-> In k l2) -> l1 = l2.
Proof.
  revert l2. induction l1 as [|a l1 IH]; intros [|b l2] S1 S2 Hin.
  - reflexivity.
  - exfalso. apply (proj2 (Hin b)). now left.
  - exfalso. apply (proj1 (Hin a)). now left.
  - destruct S1 as [A1 S1], S2 as [B1 S2].
    assert (a = b) as ->.
    { destruct (proj1 (Hin a) (or_introl eq_refl)) as [E|Ia]; [now symmetry|].
      destruct (proj2 (Hin b) (or_introl eq_refl)) as [E|Ib]; [assumption|].
      exfalso. exact (lt_asym _ _ (A1 _ Ib) (B1 _ Ia)). }
    f_equal. apply IH; try assumption.
    intro k. split; intro Hk.
    + destruct (proj1 (Hin k) (or_intror Hk)) as [E|?]; [|assumption].
      subst. exfalso. exact (lt_irrefl _ (A1 _ Hk)).
    + destruct (proj2 (Hin k) (or_intror Hk)) as [E|?]; [|assumption].
      subst. exfalso. exact (lt_irrefl _ (B1 _ Hk)).
Qed.

(** [emplace] keeps the keys ascending and adds exactly its key. *)
Lemma emplace_keys_in {V} (k : string) (v : V) (m : SMap.t V) (x : string) :
  In x (SMap.keys (fst (SMap.emplace k v m))) <-> x = k \/ In x (SMap.keys m).
Proof.
  induction m as [|[k' v'] m IH]; simpl.
  - intuition.
  - destruct (String.compare k k') eqn:C; simpl.
    + apply compare_eq in C. subst. intuition.
    + intuition.
    + destruct (SMap.emplace k v m) as [r b]. simpl in *. intuition.
Qed.

Lemma emplace_sorted {V} (k : string) (v : V) (m : SMap.t V) :
  SSet.sorted (SMap.keys m) ->
  SSet.sorted (SMap.keys (fst (SMap.emplace k v m))).
Proof.
  induction m as [|[k' v'] m IH]; simpl.
  - intros _. split; [intros ? []|exact I].
  - intros [Hlt Hs]. destruct (String.compare k k') eqn:C; simpl.
    + now split.
    + split; [|now split].
      intros x [<-|Hx]; [exact C|].
      apply (lt_trans _ k'); [exact C|now apply Hlt].
    + pose proof (emplace_keys_in k v m) as Hin.
      destruct (SMap.emplace k v m) as [r b]. simpl in *.
      split; [|now apply IH].
      intros x Hx. apply Hin in Hx. destruct Hx as [->|Hx].
      * now apply compare_gt_lt.
      * now apply Hlt.
Qed.

(** The first element not below [k]. *)
Lemma lower_bound_in (k : string) (s : SSet.t) (lb : string) :
  SSet.lower_bound k s = Some lb -> In lb s /\ ~ Str.lt lb k.
Proof.
  induction s as [|x s IH]; simpl; [discriminate|].
  destruct (Str.ltb x k) eqn:L.
  - intro H. destruct (IH H). auto.
  - intros [= <-]. split; [now left|].
    intro H. apply ltb_lt in H. congruence.
Qed.

Lemma lower_bound_member (k : string) (s : SSet.t) :
  SSet.sorted s -> In k s -> SSet.lower_bound k s = Some k.
Proof.
  induction s as [|x s IH]; simpl; [intros _ []|].
  intros [Hlt Hs] [->|Hin].
  - unfold Str.ltb, String.ltb. now rewrite compare_refl.
  - replace (Str.ltb x k) with true; [now apply IH|].
    symmetry. apply ltb_lt. now apply Hlt.
Qed.

End StrFacts.

(** ** The filesystem-backed accessor *)

Module FSFacts.

Import Accessor FS FSSpec StrFacts.

Lemma checkAllowed_denied (a : FSInputAccessor) (absPath : Path) :
  isAllowed a absPath = false ->
  checkAllowed a absPath = Err (AccessNotAllowed absPath).
Proof. unfold checkAllowed. now intros ->. Qed.

(** The four checked operations refuse a path that [isAllowed] rejects,
    whatever the host file system holds. *)
Lemma denied_operations (host : HostFS) (a : FSInputAccessor)
    (path absPath : Path) :
  makeAbsPath a path = Ok absPath ->
  isAllowed a absPath = false ->
  readFile host a path = Err (AccessNotAllowed absPath)
  /\ lstat host a path = Err (AccessNotAllowed absPath)
  /\ readDirectory host a path = Err (AccessNotAllowed absPath)
  /\ readLink host a path = Err (AccessNotAllowed absPath).
Proof.
  intros Habs Hden.
  unfold readFile, lstat, readDirectory, readLink.
  rewrite Habs. simpl. rewrite (checkAllowed_denied _ _ Hden). simpl. auto.
Qed.

Lemma outside_root_not_allowed (a : FSInputAccessor) (absPath : Path) :
  isDirOrInDir absPath (root a) = false -> isAllowed a absPath = false.
Proof. unfold isAllowed. now intros ->. Qed.

(** What the allow-list look-up establishes when it lets a path through. *)
Lemma allowed_has_entry (a : FSInputAccessor) (allowed : SSet.t)
    (absPath : Path) :
  allowedPaths a = Some allowed ->
  subPathOf a absPath <> "" ->
  isAllowed a absPath = true ->
  exists entry,
    In entry allowed
    /\ SSet.lower_bound (subPathOf a absPath) allowed = Some entry
    /\ isDirOrInDir ("/" ++ entry) ("/" ++ subPathOf a absPath) = true.
Proof.
  intros Hal Hsub. unfold isAllowed. rewrite Hal.
  destruct (isDirOrInDir absPath (root a)); cbn [negb]; [|discriminate].
  destruct (String.eqb (subPathOf a absPath) "") eqn:He.
  { apply String.eqb_eq in He. contradiction. }
  cbn [negb].
  destruct (SSet.lower_bound (subPathOf a absPath) allowed) as [lb|] eqn:Hlb;
    [|discriminate].
  destruct (isDirOrInDir ("/" ++ lb) ("/" ++ subPathOf a absPath)) eqn:Hd;
    cbn [negb]; [|discriminate].
  intros _. exists lb. repeat split; try assumption.
  now apply (lower_bound_in _ _ _ Hlb).
Qed.

Lemma isDirOrInDir_refl (p : string) : isDirOrInDir p p = true.
Proof. unfold isDirOrInDir. now rewrite String.eqb_refl. Qed.

(** A path that is itself an entry of the allow-list is let through. *)
Lemma allowed_entry_itself (a : FSInputAccessor) (allowed : SSet.t)
    (absPath : Path) :
  allowedPaths a = Some allowed ->
  SSet.sorted allowed ->
  isDirOrInDir absPath (root a) = true ->
  In (subPathOf a absPath) allowed ->
  isAllowed a absPath = true.
Proof.
  intros Hal Hs Hroot Hin. unfold isAllowed. rewrite Hal, Hroot. cbn [negb].
  destruct (String.eqb (subPathOf a absPath) ""); cbn [negb]; [reflexivity|].
  rewrite (lower_bound_member _ _ Hs Hin).
  now rewrite isDirOrInDir_refl.
Qed.

(** With an absolute root and a request that starts with a slash,
    [makeAbsPath] has a result. *)
Lemma makeAbsPath_total (a : FSInputAccessor) (path : Path) :
  hasPrefix path "/" = true -> hasPrefix (root a) "/" = true ->
  exists absPath, makeAbsPath a path = Ok absPath.
Proof.
  intros Hp Hr. unfold makeAbsPath, assert. rewrite Hp. simpl.
  destruct (root a) as [|c r]; cbn [hasPrefix append canonPath] in *;
    [discriminate|].
  apply andb_prop in Hr. destruct Hr as [Hc _].
  apply Ascii.eqb_eq in Hc. subst c. unfold slash.
  rewrite Ascii.eqb_refl. eauto.
Qed.

(** C2, counterexample: rooted at [/R] with the allow-list [{sub/x}], the
    accessor lets [/sub] through, which neither equals nor is nested under
    [sub/x] (and it refuses [/sub/x/y], which is nested under it). *)
Lemma allow_list_not_nested_under_entry :
  ~ nested_under_entry_rule (mkFS "/R" (Some ["sub/x"])).
Proof.
  intro H.
  specialize (H ["sub/x"] "/R/sub" eq_refl eq_refl).
  assert (Hne : subPathOf (mkFS "/R" (Some ["sub/x"])) "/R/sub" <> "")
    by (vm_compute; discriminate).
  destruct (proj1 (H Hne) eq_refl) as [entry [[<-|[]] Hd]].
  vm_compute in Hd. discriminate.
Qed.

(** C2, amended: every checked operation (readFile, lstat, readDirectory,
    readLink) canonicalises the requested path against the root and
    answers "access not allowed" for a path that [isAllowed] rejects; a
    path outside the root is rejected; with an allow-list, a path other
    than the root is let through only if the first entry not below it in
    the order of the set (the lower bound) equals the path or is nested
    under it, so a path that no entry equals or lies under is refused; and
    a path that is itself an entry is let through. *)
Theorem fs_sandbox_containment (host : HostFS) (a : FSInputAccessor)
    (path absPath : Path) :
  makeAbsPath a path = Ok absPath ->
  (isDirOrInDir absPath (root a) = false -> isAllowed a absPath = false)
  /\ (isAllowed a absPath = false ->
      readFile host a path = Err (AccessNotAllowed absPath)
      /\ lstat host a path = Err (AccessNotAllowed absPath)
      /\ readDirectory host a path = Err (AccessNotAllowed absPath)
      /\ readLink host a path = Err (AccessNotAllowed absPath))
  /\ (forall allowed,
        allowedPaths a = Some allowed ->
        subPathOf a absPath <> "" ->
        (isAllowed a absPath = true ->
         exists entry,
           In entry allowed
           /\ SSet.lower_bound (subPathOf a absPath) allowed = Some entry
           /\ isDirOrInDir ("/" ++ entry) ("/" ++ subPathOf a absPath) = true)
        /\ ((forall entry, In entry allowed ->
               isDirOrInDir ("/" ++ entry) ("/" ++ subPathOf a absPath) = false) ->
            isAllowed a absPath = false)
        /\ (SSet.sorted allowed ->
            isDirOrInDir absPath (root a) = true ->
            In (subPathOf a absPath) allowed ->
            isAllowed a absPath = true)).
Proof.
  intro Habs. split; [apply outside_root_not_allowed|].
  split; [now apply denied_operations|].
  intros allowed Hal Hsub. split; [now apply allowed_has_entry|]. split.
  - intro Hnone. destruct (isAllowed a absPath) eqn:Ha; [|reflexivity].
    destruct (allowed_has_entry _ _ _ Hal Hsub Ha) as [e [Hin [_ Hd]]].
    rewrite (Hnone _ Hin) in Hd. discriminate.
  - now apply allowed_entry_itself.
Qed.

(** The sandbox example of the specification: rooted at [/R] with the
    allow-list [{sub/x}], reading [/sub/y] is refused. *)
Lemma fs_sandbox_containment_witness :
  makeAbsPath (mkFS "/R" (Some ["sub/x"])) "/sub/y" = Ok "/R/sub/y"
  /\ readFile emptyHost (mkFS "/R" (Some ["sub/x"])) "/sub/y"
     = Err (AccessNotAllowed "/R/sub/y").
Proof.
  split; [reflexivity|].
  apply (fs_sandbox_containment emptyHost (mkFS "/R" (Some ["sub/x"]))
           "/sub/y" "/R/sub/y" eq_refl).
  reflexivity.
Defined.

(** Without an allow-list, [/../outside] resolves outside [/R] and [lstat]
    refuses it. *)
Example outside_root_denied :
  lstat emptyHost (mkFS "/R" None) "/../outside"
  = Err (AccessNotAllowed "/outside").
Proof. reflexivity. Qed.

(** With the allow-list [{sub/x}], [/sub/x] passes the check and the
    result is the host's. *)
Example allowed_file_read (host : HostFS) :
  readFile host (mkFS "/R" (Some ["sub/x"])) "/sub/x"
  = of_option (SysError "readFile" "/R/sub/x") (h_readFile host "/R/sub/x").
Proof. reflexivity. Qed.

(** The look-up takes the lower bound of the path itself: an entry that
    sorts between the directory and its contents hides them. The filter of
    the dirty-tree branch of [fetch] looks up the path followed by a
    slash, and finds them. *)
Example lower_bound_hides_directory :
  isAllowed (mkFS "/R" (Some ["foo.nix"; "foo/bar.nix"])) "/R/foo" = false
  /\ Git.trackedFilter (fun _ => Some (Fetchers.Directory 0 []))
       "/R" ["foo.nix"; "foo/bar.nix"] "/R/foo" = Ok true.
Proof. split; reflexivity. Qed.

(** C10: for a request that starts with a slash, on an accessor with an
    absolute root, [pathExists] always has a result, and for a path
    outside the root or outside the allow-list this result is [false],
    where readFile, lstat, readDirectory and readLink answer "access not
    allowed". *)
Theorem pathExists_false_on_disallowed (host : HostFS) (a : FSInputAccessor)
    (path : Path) :
  hasPrefix path "/" = true ->
  hasPrefix (root a) "/" = true ->
  exists absPath,
    makeAbsPath a path = Ok absPath
    /\ (exists b, pathExists host a path = Ok b)
    /\ (isAllowed a absPath = false ->
        pathExists host a path = Ok false
        /\ readFile host a path = Err (AccessNotAllowed absPath)
        /\ lstat host a path = Err (AccessNotAllowed absPath)
        /\ readDirectory host a path = Err (AccessNotAllowed absPath)
        /\ readLink host a path = Err (AccessNotAllowed absPath)).
Proof.
  intros Hp Hr. destruct (makeAbsPath_total a path Hp Hr) as [absPath Habs].
  exists absPath. split; [assumption|]. unfold pathExists. rewrite Habs. simpl.
  split; [eauto|].
  intro Hden. rewrite Hden. simpl. split; [reflexivity|].
  now apply denied_operations.
Qed.

(** On a host where every path exists, [pathExists] of a path outside the
    allow-list is [false] and [readFile] of it is refused. *)
Lemma pathExists_false_on_disallowed_witness :
  pathExists fullHost (mkFS "/R" (Some ["sub/x"])) "/sub/y" = Ok false
  /\ readFile fullHost (mkFS "/R" (Some ["sub/x"])) "/sub/y"
     = Err (AccessNotAllowed "/R/sub/y").
Proof.
  destruct (pathExists_false_on_disallowed fullHost
              (mkFS "/R" (Some ["sub/x"])) "/sub/y" eq_refl eq_refl)
    as [absPath [Habs [_ H]]].
  vm_compute in Habs. injection Habs as <-.
  destruct (H eq_refl) as [H1 [H2 _]].
  split; assumption.
Defined.

End FSFacts.

(** ** The archive-backed accessor *)

Module ZipFacts.

Import Accessor Zip ZipSpec.

(** The type of the result never comes from the attribute bits: it is
    [tRegular] when the path is a member as it stands and [tDirectory]
    when it is one with a slash added. *)
Lemma lstat_type_from_lookup (z : ZipInputAccessor) (_path path : Path)
    (st : Stat) :
  canonPath _path = Ok path ->
  lstat z _path = Ok st ->
  type st = match SMap.find path (members z) with
            | Some _ => tRegular
            | None => tDirectory
            end.
Proof.
  intros Hc. unfold lstat. rewrite Hc. cbn [rbind].
  destruct (SMap.find path (members z)) as [sb|].
  - destruct (zip_file_get_external_attributes z (zs_index sb)) as [[o at_]|];
      [|discriminate].
    repeat match goal with
           | |- context [if ?b then _ else _] => destruct b
           end; intros [= <-]; reflexivity || discriminate.
  - destruct (SMap.find (path ++ "/") (members z)) as [sb|]; [|discriminate].
    destruct (zip_file_get_external_attributes z (zs_index sb)) as [[o at_]|];
      [|discriminate].
    repeat match goal with
           | |- context [if ?b then _ else _] => destruct b
           end; intros [= <-]; reflexivity || discriminate.
Qed.

(** C9, the failing input: the member [/link] carries the file type of a
    symbolic link (octal 0120000) and [lstat] answers with a regular
    file. On the same archive the directory, the executable file, the
    unsupported type and the missing path come out as the claim says. *)
Theorem zip_lstat_symlink_is_regular :
  lstat (makeZipInputAccessor sampleArchive) "/link" = Ok (mkStat tRegular false)
  /\ lstat (makeZipInputAccessor sampleArchive) "/dir" = Ok (mkStat tDirectory false)
  /\ lstat (makeZipInputAccessor sampleArchive) "/dir/tool" = Ok (mkStat tRegular true)
  /\ lstat (makeZipInputAccessor sampleArchive) "/fifo" = Err (UnsupportedType "/fifo")
  /\ lstat (makeZipInputAccessor sampleArchive) "/missing" = Err (DoesNotExist "/missing").
Proof. repeat split; reflexivity. Qed.

End ZipFacts.

(** ** [dumpPath] *)

Module DumpFacts.

Import Accessor DumpSpec StrFacts.

Lemma append_assoc (a b c : string) : ((a ++ b) ++ c)%string = (a ++ (b ++ c))%string.
Proof. induction a as [|x a IH]; simpl; [reflexivity|now rewrite IH]. Qed.

Lemma hasPrefix_app (a b : string) : hasPrefix (a ++ b) a = true.
Proof.
  induction a as [|x a IH]; simpl; [reflexivity|].
  now rewrite Ascii.eqb_refl.
Qed.

Lemma hasPrefix_app_l (p a b : string) :
  hasPrefix p (a ++ b) = true -> hasPrefix p a = true.
Proof.
  revert p. induction a as [|x a IH]; intros [|y p]; simpl; try congruence.
  intro H. apply andb_prop in H. destruct H as [H1 H2].
  rewrite H1. simpl. now apply IH.
Qed.

Lemma collect_collected (path : Path) entries unhacked :
  collect path entries unhacked = Ok (collected entries unhacked).
Proof.
  revert unhacked. induction entries as [|[first t] rest IH]; intro m; simpl.
  - reflexivity.
  - apply IH.
Qed.

Lemma emplace_same_value (k : string) (m : SMap.t string) :
  Forall (fun e => fst e = snd e) m ->
  Forall (fun e => fst e = snd e) (fst (SMap.emplace k k m)).
Proof.
  induction m as [|[k' v'] m IH]; simpl; intro H.
  - constructor; [reflexivity|constructor].
  - inversion H; subst. destruct (String.compare k k'); simpl.
    + assumption.
    + constructor; [reflexivity|assumption].
    + destruct (SMap.emplace k k m) as [r b]. simpl in *.
      constructor; [assumption|now apply IH].
Qed.

Lemma collected_same_value entries (m : SMap.t string) :
  Forall (fun e => fst e = snd e) m ->
  Forall (fun e => fst e = snd e) (collected entries m).
Proof.
  revert m. induction entries as [|e rest IH]; intros m H; simpl; [assumption|].
  apply IH. now apply emplace_same_value.
Qed.

Lemma emits_bind (P : Call -> Prop) {A B} (m : D A) (f : A -> D B) :
  emits P m -> (forall a, emits P (f a)) -> emits P (dbind m f).
Proof.
  intros Hm Hf s. unfold dbind. destruct (Hm s) as [n1 [E1 F1]].
  destruct (m s) as [[a|e] s1]; simpl in *.
  - destruct (Hf a s1) as [n2 [E2 F2]]. exists (n1 ++ n2)%list.
    rewrite E2, E1, app_assoc. split; [reflexivity|].
    apply Forall_app. now split.
  - exists n1. now split.
Qed.

Lemma emits_bind_pure (P : Call -> Prop) {A B} (v : A) (f : A -> D B) :
  emits P (f v) -> emits P (dbind (fun s => (Ok v, s)) f).
Proof. intros H s. exact (H s). Qed.

Lemma emits_quiet (P : Call -> Prop) {A} (m : D A) :
  (forall s, calls (snd (m s)) = calls s) -> emits P m.
Proof.
  intros H s. exists []. rewrite H, app_nil_r. split; [reflexivity|constructor].
Qed.

Lemma emits_put_str P s : emits P (put_str s).
Proof. now apply emits_quiet. Qed.

Lemma emits_put_u64 P n : emits P (put_u64 n).
Proof. now apply emits_quiet. Qed.

Lemma emits_put_raw P s : emits P (put_raw_padded s).
Proof. now apply emits_quiet. Qed.

Lemma emits_dret P {A} (a : A) : emits P (dret a).
Proof. now apply emits_quiet. Qed.

Lemma emits_dfail P {A} e : emits P (@dfail A e).
Proof. now apply emits_quiet. Qed.

Lemma emits_lift (P : Call -> Prop) {A} (c : Call) (r : Res A) :
  P c -> emits P (lift c r).
Proof.
  intros Hc s. exists [c]. split; [reflexivity|]. now constructor.
Qed.

Lemma emits_ask (P : Call -> Prop) (filter : Path -> bool) (p : Path) :
  P (CallFilter p (filter p)) -> emits P (ask_filter filter p).
Proof.
  intros Hc s. exists [CallFilter p (filter p)]. split; [reflexivity|].
  now constructor.
Qed.

Lemma emits_bind_ask (P : Call -> Prop) {B} (filter : Path -> bool)
    (p : Path) (f : bool -> D B) :
  P (CallFilter p (filter p)) -> emits P (f (filter p)) ->
  emits P (dbind (ask_filter filter p) f).
Proof.
  intros Hc Hf s. unfold dbind, ask_filter.
  destruct (Hf (mkDump (sink s) (calls s ++ [CallFilter p (filter p)])))
    as [new [E F]].
  exists (CallFilter p (filter p) :: new). split.
  - rewrite E. simpl. now rewrite <- app_assoc.
  - now constructor.
Qed.

Lemma emits_weaken (P Q : Call -> Prop) {A} (m : D A) :
  (forall c, P c -> Q c) -> emits P m -> emits Q m.
Proof.
  intros HPQ Hm s. destruct (Hm s) as [new [E F]]. exists new.
  split; [assumption|]. eapply Forall_impl; eauto.
Qed.

Create HintDb dump_emits.
#[local] Hint Resolve emits_put_str emits_put_u64 emits_put_raw emits_dret
  emits_dfail : dump_emits.

Ltac emits_step :=
  first [ apply emits_bind; [|intro]
        | solve [auto with dump_emits]
        | apply emits_lift; simpl; auto ].

(** A call made while dumping a child that the filter lets through is a
    call of the dump of the parent. *)
Lemma visits_child (root : Path) (filter : Path -> bool) (name : string)
    (c : Call) :
  filter (root ++ "/" ++ name) = true ->
  visits (root ++ "/" ++ name) filter c -> visits root filter c.
Proof.
  intros Hf.
  assert (Hq : hasPrefix (root ++ "/" ++ name) (root ++ "/") = true).
  { rewrite <- append_assoc. apply hasPrefix_app. }
  assert (Hp : forall p, hasPrefix p ((root ++ "/" ++ name) ++ "/") = true ->
                         hasPrefix p (root ++ "/") = true).
  { intros p H. apply hasPrefix_app_l in H.
    rewrite <- append_assoc in H. now apply hasPrefix_app_l in H. }
  destruct c; simpl; intuition (subst; auto).
Qed.

Lemma dump_visits (acc : InputAccessor) (filter : Path -> bool) (fuel : nat) :
  forall path, emits (visits path filter) (dump fuel acc filter path).
Proof.
  induction fuel as [|fuel IH]; intro path; [apply emits_dfail|].
  cbn [dump].
  apply emits_bind; [apply emits_lift; simpl; auto|intro st].
  apply emits_bind; [auto with dump_emits|intros _].
  apply emits_bind; [|intros _; auto with dump_emits].
  destruct (type st).
  - (* regular *)
    repeat emits_step. destruct (isExecutable st); repeat emits_step.
  - (* symlink *)
    repeat emits_step.
  - (* directory *)
    apply emits_bind; [auto with dump_emits|intros _].
    apply emits_bind; [auto with dump_emits|intros _].
    apply emits_bind; [apply emits_lift; simpl; auto|intro entries].
    rewrite collect_collected.
    apply emits_bind_pure.
    pose proof (collected_same_value entries [] (Forall_nil _)) as Hsame.
    induction (collected entries []) as [|[first second] rest IHrest].
    + auto with dump_emits.
    + inversion Hsame as [|? ? Hfs Hrest]; subst. simpl in Hfs. subst second.
      apply emits_bind_ask.
      { cbv beta iota delta [visits]. split; [|reflexivity].
        rewrite <- append_assoc. apply hasPrefix_app. }
      apply emits_bind; [|intros _; now apply IHrest].
      destruct (filter (path ++ "/" ++ first)) eqn:Hkeep; [|apply emits_dret].
      do 5 (apply emits_bind; [solve [auto with dump_emits]|intros _]).
      apply emits_bind; [|intros _; auto with dump_emits].
      eapply emits_weaken; [|apply IH].
      intros c Hc. now apply (visits_child path filter first).
  - (* neither *)
    apply emits_dfail.
Qed.

Lemma simR_bind {A B A' B'} (R : A -> B -> Prop) (Q : A' -> B' -> Prop)
    (m1 : D A) (m2 : D B) (f1 : A -> D A') (f2 : B -> D B') :
  simR R m1 m2 -> (forall a b, R a b -> simR Q (f1 a) (f2 b)) ->
  simR Q (dbind m1 f1) (dbind m2 f2).
Proof.
  intros Hm Hf s1 s2 E. unfold dbind. specialize (Hm s1 s2 E).
  destruct (m1 s1) as [[a|e] s1'], (m2 s2) as [[b|e'] s2'];
    destruct Hm as [Hs Hr]; simpl in *; try contradiction.
  - now apply Hf.
  - now split.
Qed.

Lemma simR_quiet {A} (f : string -> string) (a : A) :
  simR eq (fun st => (Ok a, mkDump (f (sink st)) (calls st)))
          (fun st => (Ok a, mkDump (f (sink st)) (calls st))).
Proof. intros s1 s2 E. split; simpl; [now rewrite E|reflexivity]. Qed.

Lemma simR_put_str s : simR eq (put_str s) (put_str s).
Proof. exact (simR_quiet (fun x => (x ++ Sink.str s)%string) tt). Qed.

Lemma simR_put_u64 n : simR eq (put_u64 n) (put_u64 n).
Proof. exact (simR_quiet (fun x => (x ++ Sink.u64 n)%string) tt). Qed.

Lemma simR_put_raw s : simR eq (put_raw_padded s) (put_raw_padded s).
Proof.
  exact (simR_quiet
           (fun x => (x ++ s ++ Sink.padding (String.length s))%string) tt).
Qed.

Lemma simR_dret {A B} (R : A -> B -> Prop) a b : R a b -> simR R (dret a) (dret b).
Proof. intros H s1 s2 E. now split. Qed.

Lemma simR_dfail {A B} (R : A -> B -> Prop) e : simR R (dfail e) (dfail e).
Proof. intros s1 s2 E. now split. Qed.

Lemma simR_lift {A B} (R : A -> B -> Prop) c1 c2 (r1 : Res A) (r2 : Res B) :
  match r1, r2 with
  | Ok a, Ok b => R a b
  | Err e, Err e' => e = e'
  | _, _ => False
  end ->
  simR R (lift c1 r1) (lift c2 r2).
Proof. intros H s1 s2 E. now split. Qed.

Lemma simR_lift_eq {A} c1 c2 (r : Res A) : simR eq (lift c1 r) (lift c2 r).
Proof. apply simR_lift. now destruct r. Qed.

Lemma simR_ask_l {A B} (R : A -> B -> Prop) filter p (f : bool -> D A)
    (m2 : D B) :
  simR R (f (filter p)) m2 -> simR R (dbind (ask_filter filter p) f) m2.
Proof. intros H s1 s2 E. unfold dbind, ask_filter. now apply H. Qed.

Lemma simR_ask_r {A B} (R : A -> B -> Prop) filter p (m1 : D A)
    (f : bool -> D B) :
  simR R m1 (f (filter p)) -> simR R m1 (dbind (ask_filter filter p) f).
Proof. intros H s1 s2 E. unfold dbind, ask_filter. now apply H. Qed.

Lemma simR_ret_l {A B C} (R : A -> B -> Prop) (c : C) (f : C -> D A) (m2 : D B) :
  simR R (f c) m2 -> simR R (dbind (dret c) f) m2.
Proof. intros H s1 s2 E. exact (H s1 s2 E). Qed.

Lemma simR_pure {A B} (R : A -> B -> Prop) {C C'} (v : C) (v' : C')
    (f : C -> D A) (g : C' -> D B) :
  simR R (f v) (g v') ->
  simR R (dbind (fun s => (Ok v, s)) f) (dbind (fun s => (Ok v', s)) g).
Proof. intros H s1 s2 E. exact (H s1 s2 E). Qed.

Create HintDb dump_sim.
#[local] Hint Resolve simR_put_str simR_put_u64 simR_put_raw simR_lift_eq
  simR_dfail : dump_sim.
#[local] Hint Extern 1 (simR eq (dret _) (dret _)) =>
  apply simR_dret; reflexivity : dump_sim.

(** One step through a bind whose two sides yield equal values. *)
Ltac sim_step :=
  first [ solve [auto with dump_sim]
        | eapply (simR_bind eq); [solve [auto with dump_sim]|intros ? ? <-] ].

Lemma emplace_fst_cons {V} (k : string) (v : V) k' v' (r : SMap.t V) :
  fst (SMap.emplace k v ((k', v') :: r))
  = match String.compare k k' with
    | Lt => (k, v) :: (k', v') :: r
    | Eq => (k', v') :: r
    | Gt => (k', v') :: fst (SMap.emplace k v r)
    end.
Proof.
  simpl. destruct (String.compare k k'); try reflexivity.
  now destruct (SMap.emplace k v r).
Qed.

Lemma emplace_below {V} (k : string) (v : V) (l : SMap.t V) :
  (forall x, In x (SMap.keys l) -> Str.lt k x) ->
  fst (SMap.emplace k v l) = (k, v) :: l.
Proof.
  destruct l as [|[k' v'] l]; [reflexivity|]. intro H.
  rewrite emplace_fst_cons. now rewrite (H k' (or_introl eq_refl)).
Qed.

Lemma keys_filter_in {V} (g : string * V -> bool) (m : SMap.t V) (x : string) :
  In x (SMap.keys (List.filter g m)) -> In x (SMap.keys m).
Proof.
  unfold SMap.keys. rewrite !in_map_iff.
  intros [e [<- He]]. apply filter_In in He. exists e. tauto.
Qed.

(** Inserting a key and then hiding the refused keys is hiding them and
    then inserting the key, if it is not refused. *)
Lemma emplace_filter {V} (f : string -> bool) (k : string) (v : V)
    (m : SMap.t V) :
  SSet.sorted (SMap.keys m) ->
  List.filter (fun e => f (fst e)) (fst (SMap.emplace k v m))
  = if f k then fst (SMap.emplace k v (List.filter (fun e => f (fst e)) m))
    else List.filter (fun e => f (fst e)) m.
Proof.
  induction m as [|[k' v'] m IH]; intro Hs.
  - simpl. now destruct (f k).
  - destruct Hs as [Hlt Hs]. specialize (IH Hs).
    rewrite emplace_fst_cons.
    destruct (String.compare k k') eqn:C.
    + apply compare_eq in C. subst k'. cbn [List.filter fst].
      destruct (f k); [|reflexivity].
      rewrite emplace_fst_cons. now rewrite compare_refl.
    + cbn [List.filter fst]. destruct (f k) eqn:Fk.
      * destruct (f k') eqn:Fk'.
        -- rewrite emplace_fst_cons. now rewrite C.
        -- symmetry. apply emplace_below. intros x Hx.
           apply keys_filter_in in Hx.
           apply (lt_trans _ k'); [exact C|now apply Hlt].
      * reflexivity.
    + cbn [List.filter fst]. rewrite IH.
      destruct (f k) eqn:Fk; destruct (f k') eqn:Fk'; try reflexivity.
      rewrite emplace_fst_cons. now rewrite C.
Qed.

Lemma collected_sorted entries (m : SMap.t string) :
  SSet.sorted (SMap.keys m) -> SSet.sorted (SMap.keys (collected entries m)).
Proof.
  revert m. induction entries as [|e rest IH]; intros m H; simpl; [assumption|].
  apply IH. now apply emplace_sorted.
Qed.

Lemma collected_filter (f : string -> bool) entries (m : SMap.t string) :
  SSet.sorted (SMap.keys m) ->
  List.filter (fun e => f (fst e)) (collected entries m)
  = collected (List.filter (fun e => f (fst e)) entries)
      (List.filter (fun e => f (fst e)) m).
Proof.
  revert m. induction entries as [|e rest IH]; intros m Hs; [reflexivity|].
  cbn [List.filter]. change (collected (e :: rest) m)
    with (collected rest (fst (SMap.emplace (fst e) (fst e) m))).
  rewrite IH by now apply emplace_sorted.
  rewrite emplace_filter by assumption.
  now destruct (f (fst e)).
Qed.

Lemma collected_filter_nil (f : string -> bool) entries :
  collected (List.filter (fun e => f (fst e)) entries) []
  = List.filter (fun e => f (fst e)) (collected entries []).
Proof. symmetry. now apply (collected_filter f entries []). Qed.

(** The bytes written under [filter] are the bytes written, with no
    filter, over the pruned accessor. *)
Lemma dump_prune (acc : InputAccessor) (filter : Path -> bool) (fuel : nat) :
  forall path,
    simR eq (dump fuel acc filter path)
            (dump fuel (prune filter acc) (fun _ => true) path).
Proof.
  induction fuel as [|fuel IH]; intro path; [apply simR_dfail|].
  cbn [dump].
  eapply (simR_bind eq); [apply simR_lift_eq|intros st ? <-].
  sim_step.
  eapply (simR_bind eq); [|intros ? ? <-; auto with dump_sim].
  destruct (type st).
  - do 2 sim_step.
    eapply (simR_bind eq);
      [destruct (isExecutable st); repeat sim_step|intros ? ? <-].
    unfold dumpContents. cbn [readFile prune]. repeat sim_step.
  - cbn [readLink prune]. repeat sim_step.
  - do 2 sim_step.
    eapply (simR_bind
              (fun e1 e2 =>
                 e2 = List.filter (fun e => filter (path ++ "/" ++ fst e)) e1)).
    { apply simR_lift. cbn [readDirectory prune].
      destruct (readDirectory acc path); reflexivity. }
    intros entries ? ->.
    rewrite !collect_collected. apply simR_pure.
    rewrite (collected_filter_nil (fun k => filter (path ++ "/" ++ k))).
    pose proof (collected_same_value entries [] (Forall_nil _)) as Hsame.
    induction (collected entries []) as [|[first second] rest IHrest].
    + apply simR_dret. reflexivity.
    + inversion Hsame as [|? ? Hfs Hrest]; subst. simpl in Hfs. subst second.
      apply simR_ask_l. cbn [List.filter fst].
      destruct (filter (path ++ "/" ++ first)) eqn:Hkeep.
      * apply simR_ask_r.
        eapply (simR_bind eq); [|intros ? ? <-; now apply IHrest].
        do 5 sim_step.
        eapply (simR_bind eq); [apply IH|intros ? ? <-; auto with dump_sim].
      * apply simR_ret_l. now apply IHrest.
  - apply simR_dfail.
Qed.


(** Over the filesystem accessor rooted at [/R], dumping [/] with a
    predicate that refuses [//b]: the predicate is asked about [//a] and
    [//b], never about [/R/a], and [b] is not entered. *)
Example filter_asked_below_root :
  calls (snd (dumpPath 3
                (FS.accessor
                   (sampleHost [FS.mkEntry "b" FS.DT_DIR; FS.mkEntry "a" FS.DT_REG])
                   (FS.mkFS "/R" None))
                "/" (fun p => negb (String.eqb p "//b"))))
  = [CallLstat "/"; CallReadDirectory "/"; CallFilter "//a" true;
     CallLstat "//a"; CallReadFile "//a"; CallFilter "//b" false].
Proof. reflexivity. Qed.

(** *** Independence from the order of the host's listings *)

Lemma deq_refl {A} (m : D A) : deq m m.
Proof. now intro. Qed.

Lemma deq_bind {A B} (m1 m2 : D A) (f1 f2 : A -> D B) :
  deq m1 m2 -> (forall a, deq (f1 a) (f2 a)) -> deq (dbind m1 f1) (dbind m2 f2).
Proof.
  intros Hm Hf s. unfold dbind. rewrite Hm.
  destruct (m2 s) as [[a|e] s']; [apply Hf|reflexivity].
Qed.

Lemma deq_bind_lift {A A' B} (c : Call) (r1 : Res A) (r2 : Res A')
    (f1 : A -> D B) (f2 : A' -> D B) :
  match r1, r2 with
  | Ok a, Ok b => deq (f1 a) (f2 b)
  | Err e, Err e' => e = e'
  | _, _ => False
  end ->
  deq (dbind (lift c r1) f1) (dbind (lift c r2) f2).
Proof.
  intros H s. unfold dbind, lift.
  destruct r1, r2; try contradiction; [apply H|now subst].
Qed.

Lemma collected_keys (e1 e2 : list (string * option Type_)) (m : SMap.t string) :
  map fst e1 = map fst e2 -> collected e1 m = collected e2 m.
Proof.
  revert e2 m. induction e1 as [|x e1 IH]; intros [|y e2] m H;
    try discriminate; [reflexivity|].
  injection H as Hxy Hrest. simpl. rewrite Hxy. now apply IH.
Qed.

Lemma dump_same_answers (acc1 acc2 : InputAccessor) (filter : Path -> bool) :
  same_answers acc1 acc2 ->
  forall fuel path, deq (dump fuel acc1 filter path) (dump fuel acc2 filter path).
Proof.
  intros [Hfile [Hstat [Hlink Hdir]]].
  induction fuel as [|fuel IH]; intro path; [apply deq_refl|].
  cbn [dump]. rewrite Hstat.
  apply deq_bind; [apply deq_refl|intro st].
  apply deq_bind; [apply deq_refl|intros _].
  apply deq_bind; [|intros _; apply deq_refl].
  destruct (type st); try apply deq_refl.
  - unfold dumpContents. rewrite Hfile. apply deq_refl.
  - rewrite Hlink. apply deq_refl.
  - apply deq_bind; [apply deq_refl|intros _].
    apply deq_bind; [apply deq_refl|intros _].
    apply deq_bind_lift. specialize (Hdir path).
    destruct (readDirectory acc1 path) as [e1|x],
             (readDirectory acc2 path) as [e2|y]; try assumption.
    rewrite !collect_collected, (collected_keys e1 e2 [] Hdir).
    apply deq_bind; [apply deq_refl|intro unhacked].
    induction unhacked as [|[first second] rest IHrest]; [apply deq_refl|].
    apply deq_bind; [apply deq_refl|intro keep].
    apply deq_bind; [|intros _; exact IHrest].
    destruct keep; [|apply deq_refl].
    do 5 (apply deq_bind; [apply deq_refl|intros _]).
    apply deq_bind; [apply IH|intros _; apply deq_refl].
Qed.

Section Listing.

Variable a : FS.FSInputAccessor.
Variable absPath : Path.

Lemma listAllowed_keys_in (l : list FS.HostDirEntry) (m : DirEntries) (k : string) :
  In k (SMap.keys (FS.listAllowed a absPath l m))
  <-> In k (SMap.keys m) \/ listed a absPath l k.
Proof.
  revert m. induction l as [|e l IH]; intro m; cbn [FS.listAllowed].
  - split; [auto|]. intros [H|[e [[] _]]]. exact H.
  - destruct (FS.isAllowed a (absPath ++ "/" ++ FS.name e)) eqn:Ha;
      rewrite IH; [rewrite emplace_keys_in|]; split.
    + intros [[->|H]|[e' [Hin [Hn Hal]]]]; auto.
      * right. exists e. simpl. auto.
      * right. exists e'. simpl. auto.
    + intros [H|[e' [[->|Hin] [Hn Hal]]]]; auto.
      right. exists e'. auto.
    + intros [H|[e' [Hin [Hn Hal]]]]; auto.
      right. exists e'. simpl. auto.
    + intros [H|[e' [[->|Hin] [Hn Hal]]]]; auto.
      * congruence.
      * right. exists e'. auto.
Qed.

Lemma listAllowed_sorted (l : list FS.HostDirEntry) (m : DirEntries) :
  SSet.sorted (SMap.keys m) ->
  SSet.sorted (SMap.keys (FS.listAllowed a absPath l m)).
Proof.
  revert m. induction l as [|e l IH]; intros m H; cbn [FS.listAllowed];
    [assumption|].
  destruct (FS.isAllowed a (absPath ++ "/" ++ FS.name e)); apply IH;
    [now apply emplace_sorted|assumption].
Qed.

(** The names in the listing of the accessor do not depend on the order
    in which the host yields the entries. *)
Lemma listAllowed_permutation (l1 l2 : list FS.HostDirEntry) :
  Permutation l1 l2 ->
  map fst (FS.listAllowed a absPath l1 []) = map fst (FS.listAllowed a absPath l2 []).
Proof.
  intro HP. apply sorted_ext; try (apply listAllowed_sorted; exact I).
  intro k. fold (SMap.keys (FS.listAllowed a absPath l1 [])).
  fold (SMap.keys (FS.listAllowed a absPath l2 [])).
  rewrite !listAllowed_keys_in.
  split; (intros [[]|[e [Hin H]]]; right; exists e; split; [|exact H]).
  - now apply (Permutation_in _ HP).
  - now apply (Permutation_in _ (Permutation_sym HP)).
Qed.

End Listing.

Lemma same_tree_same_answers (h1 h2 : FS.HostFS) (a : FS.FSInputAccessor) :
  same_tree h1 h2 -> same_answers (FS.accessor h1 a) (FS.accessor h2 a).
Proof.
  intros [Hfile [Hstat [Hlink Hdir]]]. unfold same_answers, FS.accessor.
  cbn [readFile lstat readLink readDirectory].
  repeat split; intro p.
  - unfold FS.readFile. destruct (FS.makeAbsPath a p) as [q|]; [|reflexivity].
    cbn [rbind]. now rewrite Hfile.
  - unfold FS.lstat. destruct (FS.makeAbsPath a p) as [q|]; [|reflexivity].
    cbn [rbind]. now rewrite Hstat.
  - unfold FS.readLink. destruct (FS.makeAbsPath a p) as [q|]; [|reflexivity].
    cbn [rbind]. now rewrite Hlink.
  - unfold FS.readDirectory. destruct (FS.makeAbsPath a p) as [q|]; [|reflexivity].
    cbn [rbind]. destruct (FS.checkAllowed a q); [|reflexivity].
    cbn [rbind]. specialize (Hdir q).
    destruct (FS.h_readDirectory h1 q) as [l1|],
             (FS.h_readDirectory h2 q) as [l2|]; try contradiction;
      cbn [of_option rbind]; [|reflexivity].
    now apply listAllowed_permutation.
Qed.

(** C8: over two hosts that hold the same tree and differ only in the
    order in which they list the entries of their directories,
    [dumpPath] through the filesystem accessor ends alike, writes the
    same bytes and makes the same calls, for every root, predicate and
    depth: the names pass through the ordered map of the accessor's
    listing and through [unhacked] before the first entry is written. *)
Theorem dumpPath_deterministic (h1 h2 : FS.HostFS) (a : FS.FSInputAccessor)
    (fuel : nat) (path : Path) (filter : Path -> bool) :
  same_tree h1 h2 ->
  dumpPath fuel (FS.accessor h1 a) path filter
  = dumpPath fuel (FS.accessor h2 a) path filter.
Proof.
  intro H. unfold dumpPath.
  apply deq_bind; [apply deq_refl|intros _].
  apply dump_same_answers. now apply same_tree_same_answers.
Qed.

Lemma sampleHost_same_tree :
  same_tree
    (sampleHost [FS.mkEntry "b" FS.DT_DIR; FS.mkEntry "a" FS.DT_REG])
    (sampleHost [FS.mkEntry "a" FS.DT_REG; FS.mkEntry "b" FS.DT_DIR]).
Proof.
  repeat split; intro p; cbn [sampleHost FS.h_readDirectory];
    try reflexivity.
  destruct (String.eqb p "/R"); [apply perm_swap|].
  destruct (String.eqb p "/R/b"); [apply Permutation_refl|exact I].
Defined.

(** The same tree listed as [b, a] and as [a, b] is dumped to the same
    bytes. *)
Lemma dumpPath_deterministic_witness :
  same_tree
    (sampleHost [FS.mkEntry "b" FS.DT_DIR; FS.mkEntry "a" FS.DT_REG])
    (sampleHost [FS.mkEntry "a" FS.DT_REG; FS.mkEntry "b" FS.DT_DIR])
  /\ dumpPath 3
       (FS.accessor
          (sampleHost [FS.mkEntry "b" FS.DT_DIR; FS.mkEntry "a" FS.DT_REG])
          (FS.mkFS "/R" None)) "/" (fun _ => true)
     = dumpPath 3
         (FS.accessor
            (sampleHost [FS.mkEntry "a" FS.DT_REG; FS.mkEntry "b" FS.DT_DIR])
            (FS.mkFS "/R" None)) "/" (fun _ => true).
Proof.
  split; [exact sampleHost_same_tree|].
  apply (dumpPath_deterministic _ _ (FS.mkFS "/R" None) 3 "/" (fun _ => true)
           sampleHost_same_tree).
Defined.

(** On that tree the dump ends well within the depth of three, and the
    entry [a] is written before the entry [b] whichever way the host
    lists them. *)
Example sample_dump_order :
  let out := dumpPath 3
               (FS.accessor
                  (sampleHost [FS.mkEntry "b" FS.DT_DIR; FS.mkEntry "a" FS.DT_REG])
                  (FS.mkFS "/R" None)) "/" (fun _ => true) in
  fst out = Ok tt
  /\ calls (snd out)
     = [CallLstat "/"; CallReadDirectory "/";
        CallFilter "//a" true; CallLstat "//a"; CallReadFile "//a";
        CallFilter "//b" true; CallLstat "//b"; CallReadDirectory "//b";
        CallFilter "//b/c" true; CallLstat "//b/c"; CallReadFile "//b/c"].
Proof. split; reflexivity. Qed.

End DumpFacts.

(** ** [GitInputScheme::fetch] *)

Module GitFacts.

Import Fetchers Git Fixture GitSpec.

Lemma u64_small (x : Z) : 0 <= x < 2 ^ 64 -> u64 x = x.
Proof. intro H. unfold u64. now apply Z.mod_small. Qed.

Lemma Attr_eqb_refl (a : Attr) : Attr_eqb a a = true.
Proof.
  destruct a; simpl;
    [apply String.eqb_refl|apply Z.eqb_refl|now destruct b].
Qed.

Lemma Attrs_eqb_refl (a : Attrs) : Attrs_eqb a a = true.
Proof.
  induction a as [|[k v] a IH]; simpl; [reflexivity|].
  now rewrite String.eqb_refl, Attr_eqb_refl, IH.
Qed.

(** An immutable entry is found again whatever the time and the ttl. *)
Lemma lookup_after_add_immutable (ttl t t' : Z) (key info : Attrs)
    (sp : StorePath) (c : Cache) :
  cache_lookup ttl t' key (cache_add t key info sp true c) = Some (info, sp).
Proof.
  unfold cache_lookup, cache_add. cbn [List.find row_key].
  now rewrite Attrs_eqb_refl.
Qed.

(** [insert_or_assign] leaves the other keys alone. *)
Lemma find_insert_other {V} (k k' : string) (v : V) (m : SMap.t V) :
  k' <> k -> SMap.find k' (SMap.insert_or_assign k v m) = SMap.find k' m.
Proof.
  intro Hne. induction m as [|[k0 v0] m IH]; simpl.
  - now rewrite (proj2 (String.eqb_neq k' k) Hne).
  - destruct (String.compare k k0) eqn:C; simpl.
    + apply StrFacts.compare_eq in C. subst k0.
      now rewrite (proj2 (String.eqb_neq k' k) Hne).
    + now rewrite (proj2 (String.eqb_neq k' k) Hne).
    + now rewrite IH.
Qed.

Section WithEnv.

Variable E : Env.

(** *** The refresh of the mirror *)


(** *** Events of composed runs *)

Lemma bind_events_prefix {A B} (m : M A) (k : A -> M B) (w : World) :
  exists rest, events_of (bind m k w) = (events_of (m w) ++ rest)%list.
Proof.
  unfold bind, events_of. destruct (m w) as [[[a|e] w'] evs]; cbn [snd].
  - destruct (k a w') as [[r w''] evs']. cbn [snd]. eauto.
  - exists []. now rewrite app_nil_r.
Qed.

Lemma try_events_prefix {A} (m : M A) (h : Error -> M A) (w : World) :
  exists rest, events_of (try_catch m h w) = (events_of (m w) ++ rest)%list.
Proof.
  unfold try_catch, events_of. destruct (m w) as [[[a|e] w'] evs]; cbn [snd].
  - exists []. now rewrite app_nil_r.
  - destruct (h e w') as [[r w''] evs']. cbn [snd]. eauto.
Qed.

(** After a first step that is known, the run is the rest with the
    events of the first step in front. *)
Lemma bind_after {A B} (m : M A) (k : A -> M B) (w w' : World) (a : A)
    (evs : list Event) :
  m w = (Ok a, w', evs) ->
  events_of (bind m k w) = (evs ++ events_of (k a w'))%list.
Proof.
  intro H. unfold bind, events_of. rewrite H.
  now destruct (k a w') as [[r w''] evs'].
Qed.

Lemma runProgram_events (args : list string) (w : World) :
  events_of (runProgram E args w) = [EvGit args].
Proof.
  unfold runProgram, events_of.
  now destruct (statusOk (status (git E args (files w)))).
Qed.

Lemma refresh_starts (repoInfo : RepoInfo) (repoDir marker : Path)
    (input : Input) (t : Z) (ref : string) (w : World) :
  theRef input = Ok ref ->
  exists rest,
    events_of (refresh E repoInfo repoDir marker input t w)
    = EvGit (fetchArgs repoInfo repoDir ref) :: rest.
Proof.
  intro Href. unfold refresh.
  match goal with
  | |- context [bind (try_catch ?m ?h) ?k] =>
      destruct (bind_events_prefix (try_catch m h) k w) as [r1 H1];
      destruct (try_events_prefix m h w) as [r2 H2];
      assert (H3 : exists r3, events_of (m w)
                     = EvGit (fetchArgs repoInfo repoDir ref) :: r3)
  end.
  { unfold liftR. rewrite Href.
    match goal with
    | |- context [bind (fun w0 => (Ok ref, w0, [])) ?k] =>
        change (bind (fun w0 => (Ok ref, w0, [])) k w)
          with (let (p, evs') := k ref w in
                let (r, w'') := p in (r, w'', ([] ++ evs')%list))
    end.
    destruct (bind_events_prefix
                (runProgram E (fetchArgs repoInfo repoDir ref))
                (fun _ => ret tt) w) as [r3 H3].
    rewrite runProgram_events in H3.
    destruct (bind (runProgram E (fetchArgs repoInfo repoDir ref))
                (fun _ => ret tt) w) as [[r w''] evs'].
    unfold events_of in *. cbn [snd app] in *. eauto. }
  destruct H3 as [r3 H3]. rewrite H1, H2, H3. cbn [app]. eauto.
Qed.

Lemma revFromRefFile_events (marker : Path) (input : Input) (w : World) :
  getRev E input = Ok None ->
  events_of (revFromRefFile E marker input w) = [EvReadFile marker].
Proof.
  intro Hrev. unfold revFromRefFile, bind, liftR, readFile, gitRevOf, ret.
  rewrite Hrev. cbv beta iota.
  destruct (files w marker) as [[m c|m es]|]; try reflexivity.
  now destruct (parseGitRev E (chomp c)).
Qed.

(** *** The decision to refresh *)

Lemma needFetch_unpinned (repoInfo : RepoInfo) (repoDir marker : Path)
    (input : Input) (t : Z) (w : World) :
  getRev E input = Ok None ->
  needFetch E repoInfo repoDir marker input t w
  = (Ok (stale E repoInfo marker t w), w,
     if allRefs repoInfo then [] else [EvStat marker]).
Proof.
  intro Hrev. unfold needFetch, stale, bind, liftR, stat, ret.
  rewrite Hrev. destruct (allRefs repoInfo); [reflexivity|].
  cbn [orb]. now destruct (files w marker).
Qed.


(** *** Runs whose events all satisfy a predicate *)

Lemma only_bind (P : Event -> Prop) {A B} (m : M A) (k : A -> M B) :
  only P m -> (forall a, only P (k a)) -> only P (bind m k).
Proof.
  intros Hm Hk w. specialize (Hm w). unfold bind, events_of in *.
  destruct (m w) as [[[a|e] w'] evs]; cbn [snd] in *; [|assumption].
  specialize (Hk a w'). destruct (k a w') as [[r w''] evs'].
  cbn [snd] in *. apply Forall_app. now split.
Qed.

Lemma only_try (P : Event -> Prop) {A} (m : M A) (h : Error -> M A) :
  only P m -> (forall e, only P (h e)) -> only P (try_catch m h).
Proof.
  intros Hm Hh w. specialize (Hm w). unfold try_catch, events_of in *.
  destruct (m w) as [[[a|e] w'] evs]; cbn [snd] in *; [assumption|].
  specialize (Hh e w'). destruct (h e w') as [[r w''] evs'].
  cbn [snd] in *. apply Forall_app. now split.
Qed.

Lemma only_scoped (P : Event -> Prop) {A} (leave : list Event) (m : M A) :
  Forall P leave -> only P m -> only P (scoped leave m).
Proof.
  intros Hl Hm w. specialize (Hm w). unfold scoped, events_of in *.
  destruct (m w) as [[r w'] evs]. cbn [snd] in *.
  apply Forall_app. now split.
Qed.

Lemma only_quiet (P : Event -> Prop) {A} (m : M A) :
  (forall w, events_of (m w) = []) -> only P m.
Proof. intros H w. rewrite H. constructor. Qed.

Lemma only_one (P : Event -> Prop) {A} (m : M A) (e : Event) :
  P e -> (forall w, events_of (m w) = [e]) -> only P m.
Proof. intros He H w. rewrite H. now constructor. Qed.

Lemma only_ret P {A} (a : A) : only P (ret a).
Proof. now apply only_quiet. Qed.

Lemma only_throw P {A} e : only P (@throw A e).
Proof. now apply only_quiet. Qed.

Lemma only_liftR P {A} (r : Res A) : only P (liftR r).
Proof. now apply only_quiet. Qed.

Lemma only_get_world P : only P get_world.
Proof. now apply only_quiet. Qed.

Lemma only_set_files P fs : only P (set_files fs).
Proof. now apply only_quiet. Qed.

Lemma only_time P : only P time.
Proof. now apply only_quiet. Qed.

Lemma only_emit (P : Event -> Prop) e : P e -> only P (emit e).
Proof. intro H. now apply (only_one P _ e). Qed.

Lemma only_runProgram (P : Event -> Prop) args :
  P (EvGit args) -> only P (runProgram E args).
Proof. intro H. apply (only_one P _ _ H). apply runProgram_events. Qed.

Lemma only_runProgramStatus (P : Event -> Prop) args :
  P (EvGit args) -> only P (runProgramStatus E args).
Proof. intro H. now apply (only_one P _ _ H). Qed.

Lemma only_pathExists (P : Event -> Prop) p :
  P (EvPathExists p) -> only P (pathExists p).
Proof. intro H. now apply (only_one P _ _ H). Qed.

Lemma only_stat (P : Event -> Prop) p : P (EvStat p) -> only P (stat p).
Proof. intro H. now apply (only_one P _ _ H). Qed.

Lemma only_readFile (P : Event -> Prop) p :
  P (EvReadFile p) -> only P (readFile p).
Proof. intro H. now apply (only_one P _ _ H). Qed.

Lemma only_readDirectory (P : Event -> Prop) p :
  P (EvReadDirectory p) -> only P (readDirectory p).
Proof. intro H. now apply (only_one P _ _ H). Qed.

Lemma only_utimes (P : Event -> Prop) p t :
  P (EvUtimes p t) -> only P (utimes p t).
Proof. intro H. now apply (only_one P _ _ H). Qed.

Lemma only_createDirs (P : Event -> Prop) p :
  P (EvCreateDirs p) -> only P (createDirs p).
Proof. intro H. now apply (only_one P _ _ H). Qed.

Lemma only_createTempDir (P : Event -> Prop) :
  (forall p, P (EvCreateTempDir p)) -> only P (createTempDirM E).
Proof.
  intros H w. unfold createTempDirM, events_of.
  destruct (createTempDir E (files w)) as [p fs]. cbn [snd].
  constructor; [apply H|constructor].
Qed.

Lemma only_cacheLookup (P : Event -> Prop) key :
  (forall b, P (EvCacheLookup key b)) -> only P (cacheLookup E key).
Proof. intros H w. unfold cacheLookup, events_of. cbn [snd]. now constructor. Qed.

Lemma only_cacheAdd (P : Event -> Prop) key info sp b :
  P (EvCacheAdd key info sp b) -> only P (cacheAdd key info sp b).
Proof. intro H. now apply (only_one P _ _ H). Qed.

Lemma only_addToStore (P : Event -> Prop) name p f :
  P (EvAddToStore name p f) -> only P (addToStoreM E name p f).
Proof. intro H. now apply (only_one P _ _ H). Qed.

(** Decomposes a run into its steps; what is left are the facts that
    the events of the steps satisfy the predicate. *)
Ltac only_steps :=
  repeat first
    [ apply only_bind; [|intro]
    | apply only_try; [|intro]
    | apply only_scoped
    | apply only_ret | apply only_throw | apply only_liftR
    | apply only_get_world | apply only_set_files | apply only_time
    | apply only_emit | apply only_runProgram | apply only_runProgramStatus
    | apply only_pathExists | apply only_stat | apply only_readFile
    | apply only_readDirectory | apply only_utimes | apply only_createDirs
    | apply only_createTempDir; intro
    | apply only_cacheLookup; intro
    | apply only_cacheAdd | apply only_addToStore
    | match goal with
      | |- only _ (match ?x with _ => _ end) => destruct x
      end ].

Ltac preliminary_steps :=
  only_steps;
  repeat match goal with
         | |- Forall _ _ => constructor
         | |- preliminary _ => split; reflexivity
         end.

Lemma getRepoInfo_preliminary input : only preliminary (getRepoInfo E input).
Proof. unfold getRepoInfo. preliminary_steps. Qed.

Lemma lookupPinned_preliminary repoInfo name input :
  only preliminary (lookupPinned E repoInfo name input).
Proof. unfold lookupPinned. preliminary_steps. Qed.

Lemma fetchDirty_preliminary repoInfo input :
  only preliminary (fetchDirty E repoInfo input).
Proof. unfold fetchDirty, checkDirty, listFiles. preliminary_steps. Qed.

Lemma defaultRef_preliminary repoInfo input :
  only preliminary (defaultRef E repoInfo input).
Proof. unfold defaultRef, readHead. preliminary_steps. Qed.

Lemma resolveLocal_preliminary repoInfo input :
  only preliminary (resolveLocal E repoInfo input).
Proof. unfold resolveLocal. preliminary_steps. Qed.

Lemma resolveRemote_preliminary _input repoInfo mutableAttrs input :
  only preliminary (resolveRemote E _input repoInfo mutableAttrs input).
Proof.
  unfold resolveRemote, lookupMutable, useMirror, syncMirror, needFetch,
    refresh, revFromRefFile.
  preliminary_steps.
Qed.

Lemma checkShallow_preliminary repoInfo repoDir :
  only preliminary (checkShallow E repoInfo repoDir).
Proof. unfold checkShallow. preliminary_steps. Qed.

(** *** Successful runs, step by step *)

Lemma bind_ok {A B} (m : M A) (k : A -> M B) (w w' : World) (b : B)
    (evs : list Event) :
  bind m k w = (Ok b, w', evs) ->
  exists a w1 e1 e2,
    m w = (Ok a, w1, e1) /\ k a w1 = (Ok b, w', e2) /\ evs = (e1 ++ e2)%list.
Proof.
  unfold bind. destruct (m w) as [[[a|e] w1] e1]; [|discriminate].
  destruct (k a w1) as [[r w2] e2] eqn:Hk. intros [= -> -> <-].
  exists a, w1, e1, e2. repeat split; assumption || reflexivity.
Qed.

Lemma scoped_ok {A} (leave : list Event) (m : M A) (w w' : World) (a : A)
    (evs : list Event) :
  scoped leave m w = (Ok a, w', evs) ->
  exists e, m w = (Ok a, w', e) /\ evs = (e ++ leave)%list.
Proof.
  unfold scoped. destruct (m w) as [[r w1] e]. intros [= -> -> <-].
  exists e. split; reflexivity.
Qed.

Lemma liftR_ok {A} (r : Res A) (w w' : World) (a : A) (evs : list Event) :
  liftR r w = (Ok a, w', evs) -> r = Ok a /\ w' = w /\ evs = [].
Proof. unfold liftR. now intros [= -> -> <-]. Qed.

Lemma ret_ok {A} (x : A) (w w' : World) (a : A) (evs : list Event) :
  ret x w = (Ok a, w', evs) -> x = a /\ w' = w /\ evs = [].
Proof. unfold ret. now intros [= -> -> <-]. Qed.

Lemma only_events (P : Event -> Prop) {A} (m : M A) (w w' : World)
    (r : Res A) (evs : list Event) :
  only P m -> m w = (r, w', evs) -> Forall P evs.
Proof. intros H Hm. specialize (H w). now rewrite Hm in H. Qed.

Lemma preliminary_no_write (l : list Event) :
  Forall preliminary l ->
  List.filter is_cache_add l = [] /\ existsb is_ingestion l = false.
Proof.
  induction 1 as [|e l [H1 H2] _ [IH1 IH2]]; [now split|].
  cbn [List.filter existsb]. now rewrite H1, H2, IH1, IH2.
Qed.

Lemma no_cache_add_filter (l : list Event) :
  Forall no_cache_add l -> List.filter is_cache_add l = [].
Proof.
  induction 1 as [|e l H _ IH]; [reflexivity|].
  cbn [List.filter]. now rewrite H.
Qed.

Ltac no_cache_add_steps :=
  only_steps;
  repeat match goal with
         | |- Forall _ _ => constructor
         | |- no_cache_add _ => reflexivity
         end.

Lemma extract_no_cache_add repoInfo repoDir tmpDir rev :
  only no_cache_add (extract E repoInfo repoDir tmpDir rev).
Proof. unfold extract. no_cache_add_steps. Qed.

Lemma makeResult_fst _input repoInfo input info sp res :
  makeResult E _input repoInfo input info sp = Ok res -> fst res = sp.
Proof.
  unfold makeResult, rbind, assert.
  repeat match goal with
         | |- context [match ?x with _ => _ end] => destruct x
         end; try discriminate; now intros [= <-].
Qed.

(** What [recordInCache] does: the entry under the mutable key only for
    a request without [rev], then the entry under the immutable key. *)
Lemma recordInCache_spec _input repoInfo name mutableAttrs input info sp
    (w : World) (r0 : option string) (key : Attrs) :
  getRev E _input = Ok r0 ->
  getImmutableAttrs E repoInfo name input = Ok key ->
  recordInCache E _input repoInfo name mutableAttrs input info sp w
  = (Ok tt,
     mkWorld (files w)
       (cache_add (now w) key info sp true
          (match r0 with
           | None => cache_add (now w) mutableAttrs info sp false (cache w)
           | Some _ => cache w
           end))
       (now w),
     (match r0 with
      | None => [EvCacheAdd mutableAttrs info sp false]
      | Some _ => []
      end ++ [EvCacheAdd key info sp true])%list).
Proof.
  intros H0 Hk. unfold recordInCache, bind, liftR, cacheAdd, ret.
  rewrite H0, Hk. now destruct r0.
Qed.

Lemma recordInCache_ok _input repoInfo name mutableAttrs input info sp
    (w w' : World) (u : unit) (evs : list Event) :
  recordInCache E _input repoInfo name mutableAttrs input info sp w
  = (Ok u, w', evs) ->
  exists r0 key,
    getRev E _input = Ok r0
    /\ getImmutableAttrs E repoInfo name input = Ok key
    /\ evs = (match r0 with
              | None => [EvCacheAdd mutableAttrs info sp false]
              | Some _ => []
              end ++ [EvCacheAdd key info sp true])%list.
Proof.
  destruct (getRev E _input) as [r0|e] eqn:H0.
  - destruct (getImmutableAttrs E repoInfo name input) as [key|e] eqn:Hk.
    + rewrite (recordInCache_spec _ _ _ _ _ _ _ _ r0 key H0 Hk).
      intros [= _ <-]. now exists r0, key.
    + unfold recordInCache, bind, liftR, cacheAdd, ret. rewrite H0, Hk.
      now destruct r0.
  - unfold recordInCache, bind, liftR. now rewrite H0.
Qed.

Lemma getImmutableAttrs_ok repoInfo name input key :
  getImmutableAttrs E repoInfo name input = Ok key ->
  exists rev,
    getRev E input = Ok (Some rev)
    /\ key = mkAttrs [("type", AStr (cacheType repoInfo));
                      ("name", AStr name); ("rev", AStr rev)].
Proof.
  unfold getImmutableAttrs, rbind, of_option.
  destruct (getRev E input) as [[rev|]|]; try discriminate.
  intros [= <-]. now exists rev.
Qed.

Lemma extract_filter repoInfo repoDir tmpDir rev w w' f evs :
  extract E repoInfo repoDir tmpDir rev w = (Ok f, w', evs) ->
  f = defaultPathFilter \/ f = Fetchers.isNotDotGitDirectory.
Proof.
  unfold extract. destruct (submodules repoInfo); intro H.
  - apply bind_ok in H. destruct H as (? & ? & ? & ? & _ & H & _).
    apply scoped_ok in H. destruct H as (? & H & _).
    do 5 (apply bind_ok in H; destruct H as (? & ? & ? & ? & _ & H & _)).
    apply ret_ok in H. destruct H as [<- _]. now right.
  - do 5 (apply bind_ok in H; destruct H as (? & ? & ? & ? & _ & H & _)).
    apply ret_ok in H. destruct H as [<- _]. now left.
Qed.

Lemma addToStoreM_ok name p f w w' sp evs :
  addToStoreM E name p f w = (Ok sp, w', evs) -> evs = [EvAddToStore name p f].
Proof. unfold addToStoreM. now intros [= _ _ <-]. Qed.

(** A successful run of the tail of [fetch] ingests the tree and writes
    to the cache what [recordInCache] writes, and nothing else. *)
Lemma ingest_writes _input repoInfo name mutableAttrs repoDir input rev
    (w w' : World) res evs :
  ingest E _input repoInfo name mutableAttrs repoDir input rev w
  = (Ok res, w', evs) ->
  exists r0 key info,
    getRev E _input = Ok r0
    /\ getImmutableAttrs E repoInfo name input = Ok key
    /\ existsb is_ingestion evs = true
    /\ List.filter is_cache_add evs
       = (match r0 with
          | None => [EvCacheAdd mutableAttrs info (fst res) false]
          | Some _ => []
          end ++ [EvCacheAdd key info (fst res) true])%list
    /\ makeResult E _input repoInfo input info (fst res) = Ok res
    /\ (exists lm, getIntAttr info "lastModified" = Ok lm)
    /\ (if shallow repoInfo then SMap.find "revCount" info = None
        else exists n, getIntAttr info "revCount" = Ok n)
    /\ (forall t, cache_lookup (tarballTtl E) t key (cache w')
                  = Some (info, fst res)).
Proof.
  unfold ingest. intro H.
  apply bind_ok in H. destruct H as (tmpDir & w1 & e1 & e2 & Htmp & H & ->).
  apply scoped_ok in H. destruct H as (e3 & H & ->).
  apply bind_ok in H. destruct H as (result & w2 & e4 & e5 & Hcat & H & ->).
  apply bind_ok in H. destruct H as (u1 & w3 & e6 & e7 & Hbad & H & ->).
  apply bind_ok in H. destruct H as (filter & w4 & e8 & e9 & Hext & H & ->).
  apply bind_ok in H. destruct H as (sp & w5 & e10 & e11 & Hadd & H & ->).
  apply bind_ok in H. destruct H as (out & w6 & e12 & e13 & Hlog & H & ->).
  apply bind_ok in H. destruct H as (lm & w7 & e14 & e15 & Hlm & H & ->).
  apply bind_ok in H. destruct H as (info & w8 & e16 & e17 & Hinfo & H & ->).
  apply bind_ok in H. destruct H as (u2 & w9 & e18 & e19 & Hrec & H & ->).
  apply liftR_ok in H. destruct H as (Hres & -> & ->).
  destruct (recordInCache_ok _ _ _ _ _ _ _ _ _ _ _ Hrec)
    as (r0 & key & H0 & Hkey & ->).
  rewrite (recordInCache_spec _ _ _ _ _ _ _ _ r0 key H0 Hkey) in Hrec.
  injection Hrec as _ Hw9.
  pose proof (makeResult_fst _ _ _ _ _ _ Hres) as Hfst. rewrite Hfst.
  pose proof (addToStoreM_ok _ _ _ _ _ _ _ Hadd) as ->.
  assert (Hwf : (exists lm', getIntAttr info "lastModified" = Ok lm')
                /\ (if shallow repoInfo then SMap.find "revCount" info = None
                    else exists n, getIntAttr info "revCount" = Ok n)).
  { destruct (shallow repoInfo); cbn [negb] in Hinfo.
    - apply ret_ok in Hinfo. destruct Hinfo as (<- & _ & _).
      split; [now exists lm|reflexivity].
    - apply bind_ok in Hinfo. destruct Hinfo as (? & ? & ? & ? & _ & Hinfo & _).
      apply bind_ok in Hinfo. destruct Hinfo as (n & ? & ? & ? & _ & Hinfo & _).
      apply ret_ok in Hinfo. destruct Hinfo as (<- & _ & _).
      split; [now exists lm|now exists n]. }
  destruct Hwf as [Hlm' Hrc].
  exists r0, key, info. repeat split; try assumption.
  - rewrite !existsb_app. cbn [existsb is_ingestion].
    destruct (extract_filter _ _ _ _ _ _ _ _ Hext) as [-> | ->];
      rewrite ?orb_true_r; reflexivity.
  - assert (F1 : Forall no_cache_add e1)
      by (eapply only_events; [|exact Htmp]; no_cache_add_steps).
    assert (F4 : Forall no_cache_add e4)
      by (eapply only_events; [|exact Hcat]; no_cache_add_steps).
    assert (F6 : Forall no_cache_add e6)
      by (eapply only_events; [|exact Hbad]; no_cache_add_steps).
    assert (F8 : Forall no_cache_add e8)
      by (eapply only_events; [|exact Hext]; apply extract_no_cache_add).
    assert (F12 : Forall no_cache_add e12)
      by (eapply only_events; [|exact Hlog]; no_cache_add_steps).
    assert (F14 : Forall no_cache_add e14)
      by (eapply only_events; [|exact Hlm]; no_cache_add_steps).
    assert (F16 : Forall no_cache_add e16)
      by (eapply only_events; [|exact Hinfo]; no_cache_add_steps).
    rewrite !filter_app.
    rewrite (no_cache_add_filter _ F1), (no_cache_add_filter _ F4),
      (no_cache_add_filter _ F6), (no_cache_add_filter _ F8),
      (no_cache_add_filter _ F12), (no_cache_add_filter _ F14),
      (no_cache_add_filter _ F16).
    destruct r0; reflexivity.
  - intro t. rewrite <- Hw9. cbn [cache]. apply lookup_after_add_immutable.
Qed.

Lemma preliminary_not_ingested (l : list Event) :
  Forall preliminary l -> existsb is_ingestion l = true -> False.
Proof.
  intros H Hi. destruct (preliminary_no_write l H) as [_ H']. congruence.
Qed.

Lemma makeResult_attrs _input repoInfo input info sp res (k : string) :
  makeResult E _input repoInfo input info sp = Ok res ->
  k <> "revCount" -> k <> "lastModified" ->
  SMap.find k (attrs (snd res)) = SMap.find k (attrs input).
Proof.
  intros H H1 H2. revert H. unfold makeResult, rbind, assert.
  destruct (getRev E input) as [[rev|]|]; try discriminate.
  destruct (getRev E _input) as [[rev0|]|]; try discriminate;
    try (destruct (opt_eqb (Some rev0) (Some rev)); try discriminate);
    destruct (shallow repoInfo); cbn [negb];
    try (destruct (getIntAttr info "revCount"); try discriminate);
    (destruct (getIntAttr info "lastModified"); try discriminate);
    intros [= <-]; cbn [snd set_attr attrs];
    rewrite ?find_insert_other by assumption; reflexivity.
Qed.

Lemma revFromRefFile_attrs marker input w input' w' evs (k : string) :
  revFromRefFile E marker input w = (Ok input', w', evs) ->
  k <> "rev" ->
  SMap.find k (attrs input') = SMap.find k (attrs input).
Proof.
  unfold revFromRefFile. intros H Hk.
  apply bind_ok in H. destruct H as (rev & w1 & e1 & e2 & _ & H & _).
  destruct rev as [r|].
  - apply ret_ok in H. now destruct H as (<- & _).
  - do 2 (apply bind_ok in H; destruct H as (? & ? & ? & ? & _ & H & _)).
    apply ret_ok in H. destruct H as (<- & _).
    cbn [set_attr attrs]. now apply find_insert_other.
Qed.

(** The resolution of the revision changes no attribute but [rev]. *)
Lemma resolution_attrs _input repoInfo mutableAttrs input w repoDir input'
    w' evs (k : string) :
  (if isLocal repoInfo then resolveLocal E repoInfo input
   else resolveRemote E _input repoInfo mutableAttrs input) w
  = (Ok (Resolved repoDir input'), w', evs) ->
  k <> "rev" ->
  SMap.find k (attrs input') = SMap.find k (attrs input).
Proof.
  intros H Hk. destruct (isLocal repoInfo).
  - unfold resolveLocal in H.
    apply bind_ok in H. destruct H as (rev & ? & ? & ? & _ & H & _).
    apply bind_ok in H. destruct H as (input1 & ? & ? & ? & H1 & H & _).
    apply ret_ok in H. destruct H as (H & _). injection H as _ <-.
    destruct rev as [r|].
    + apply ret_ok in H1. now destruct H1 as (<- & _).
    + do 3 (apply bind_ok in H1; destruct H1 as (? & ? & ? & ? & _ & H1 & _)).
      apply ret_ok in H1. destruct H1 as (<- & _).
      cbn [set_attr attrs]. now apply find_insert_other.
  - unfold resolveRemote in H.
    apply bind_ok in H. destruct H as (hit & ? & ? & ? & _ & H & _).
    destruct hit as [r|].
    { apply ret_ok in H. destruct H as (H & _). discriminate. }
    unfold useMirror in H.
    do 2 (apply bind_ok in H; destruct H as (? & ? & ? & ? & _ & H & _)).
    apply scoped_ok in H. destruct H as (? & H & _).
    do 4 (apply bind_ok in H; destruct H as (? & ? & ? & ? & _ & H & _)).
    apply bind_ok in H. destruct H as (input1 & ? & ? & ? & H1 & H & _).
    apply ret_ok in H. destruct H as (H & _). injection H as _ <-.
    unfold syncMirror in H1.
    do 2 (apply bind_ok in H1; destruct H1 as (? & ? & ? & ? & _ & H1 & _)).
    now apply (revFromRefFile_attrs _ _ _ _ _ _ _ H1).
Qed.

(** C5: a successful [fetch] that has ingested an extracted tree has
    written the entry under the immutable key (cacheType, name, rev),
    with the identifier it returns; it has written the entry under the
    mutable key (cacheType, name, url, ref) when the request had no
    [rev], and not when it had one; and it has written nothing else to
    the cache. *)
Theorem cache_write_policy (_input : Input) (w w' : World)
    (res : StorePath * Input) (evs : list Event) :
  fetch E _input w = (Ok res, w', evs) ->
  existsb is_ingestion evs = true ->
  exists r0 repoInfo name ref rev info,
    getRev E _input = Ok r0
    /\ result_of (getRepoInfo E _input w) = Ok repoInfo
    /\ getName _input = Ok name
    /\ getRef (snd res) = Ok (Some ref)
    /\ getRev E (snd res) = Ok (Some rev)
    /\ List.filter is_cache_add evs
       = (match r0 with
          | None =>
              [EvCacheAdd (mutableAttrsOf repoInfo name ref) info (fst res) false]
          | Some _ => []
          end
          ++ [EvCacheAdd
                (mkAttrs [("type", AStr (cacheType repoInfo));
                          ("name", AStr name); ("rev", AStr rev)])
                info (fst res) true])%list.
Proof.
  unfold fetch. intros H Hing.
  apply bind_ok in H. destruct H as (repoInfo & w1 & e1 & e2 & Hrepo & H & ->).
  apply bind_ok in H. destruct H as (name & w2 & e3 & e4 & Hname & H & ->).
  apply bind_ok in H. destruct H as (pinned & w3 & e5 & e6 & Hpin & H & ->).
  assert (F1 : Forall preliminary e1)
    by (eapply only_events; [|exact Hrepo]; apply getRepoInfo_preliminary).
  assert (F3 : Forall preliminary e3)
    by (eapply only_events; [|exact Hname]; apply only_liftR).
  assert (F5 : Forall preliminary e5)
    by (eapply only_events; [|exact Hpin]; apply lookupPinned_preliminary).
  destruct pinned as [[info0 sp0]|].
  { exfalso. apply liftR_ok in H. destruct H as (_ & _ & ->).
    apply (preliminary_not_ingested (e1 ++ e3 ++ e5 ++ [])%list);
      [|exact Hing].
    repeat (apply Forall_app; split); auto. }
  destruct (isDirty repoInfo).
  { exfalso.
    assert (F6 : Forall preliminary e6)
      by (eapply only_events; [|exact H]; apply fetchDirty_preliminary).
    apply (preliminary_not_ingested ((e1 ++ e3 ++ e5 ++ e6)%list));
      [|exact Hing].
    repeat (apply Forall_app; split); auto. }
  apply bind_ok in H. destruct H as (input & w4 & e7 & e8 & Hdef & H & ->).
  apply bind_ok in H. destruct H as (ref & w5 & e9 & e10 & Href & H & ->).
  apply bind_ok in H. destruct H as (resolution & w6 & e11 & e12 & Hres & H & ->).
  assert (F7 : Forall preliminary e7)
    by (eapply only_events; [|exact Hdef]; apply defaultRef_preliminary).
  assert (F9 : Forall preliminary e9)
    by (eapply only_events; [|exact Href]; apply only_liftR).
  assert (F11 : Forall preliminary e11).
  { destruct (isLocal repoInfo); (eapply only_events; [|exact Hres]);
      [apply resolveLocal_preliminary|apply resolveRemote_preliminary]. }
  destruct resolution as [result|repoDir input'].
  { exfalso. apply ret_ok in H. destruct H as (_ & _ & ->).
    apply (preliminary_not_ingested ((e1 ++ e3 ++ e5 ++ e7 ++ e9 ++ e11 ++ [])%list));
      [|exact Hing].
    repeat (apply Forall_app; split); auto. }
  unfold fetchResolved in H.
  apply bind_ok in H. destruct H as (u & w7 & e13 & e14 & Hsh & H & ->).
  apply bind_ok in H. destruct H as (orev & w8 & e15 & e16 & Hrev & H & ->).
  apply bind_ok in H. destruct H as (rev & w9 & e17 & e18 & Hrev' & H & ->).
  apply bind_ok in H. destruct H as (key & w10 & e19 & e20 & Hkey & H & ->).
  apply bind_ok in H. destruct H as (hit & w11 & e21 & e22 & Hhit & H & ->).
  assert (F13 : Forall preliminary e13)
    by (eapply only_events; [|exact Hsh]; apply checkShallow_preliminary).
  assert (F15 : Forall preliminary e15)
    by (eapply only_events; [|exact Hrev]; apply only_liftR).
  assert (F17 : Forall preliminary e17)
    by (eapply only_events; [|exact Hrev']; apply only_liftR).
  assert (F19 : Forall preliminary e19)
    by (eapply only_events; [|exact Hkey]; apply only_liftR).
  assert (F21 : Forall preliminary e21).
  { eapply only_events; [|exact Hhit].
    apply only_cacheLookup. intro b. split; reflexivity. }
  assert (Fpre : Forall preliminary
                   (e1 ++ e3 ++ e5 ++ e7 ++ e9 ++ e11 ++ e13 ++ e15 ++ e17
                       ++ e19 ++ e21)%list)
    by (repeat (apply Forall_app; split); auto).
  destruct hit as [[info0 sp0]|].
  { exfalso. apply liftR_ok in H. destruct H as (_ & _ & ->).
    apply (preliminary_not_ingested (((e1 ++ e3 ++ e5 ++ e7 ++ e9 ++ e11 ++ e13 ++ e15 ++ e17
                        ++ e19 ++ e21) ++ [])%list)).
    - apply Forall_app. split; [exact Fpre|constructor].
    - rewrite <- Hing. f_equal. now rewrite <- !app_assoc. }
  destruct (ingest_writes _ _ _ _ _ _ _ _ _ _ _ H)
    as (r0 & key' & info & H0 & Hkey' & _ & Hfilter & Hmk & _).
  destruct (getImmutableAttrs_ok _ _ _ _ Hkey') as (rev' & Hrev'' & ->).
  exists r0, repoInfo, name, ref, rev', info. split; [exact H0|].
  split; [unfold result_of; now rewrite Hrepo|].
  split; [now apply liftR_ok in Hname|].
  split.
  { unfold getRef, maybeGetStrAttr.
    rewrite (makeResult_attrs _ _ _ _ _ _ "ref" Hmk) by discriminate.
    rewrite (resolution_attrs _ _ _ _ _ _ _ _ _ "ref" Hres) by discriminate.
    apply liftR_ok in Href. destruct Href as (Href & _).
    unfold theRef, required, getRef, maybeGetStrAttr, rbind, of_option in Href.
    destruct (SMap.find "ref" (attrs input)) as [[r| |]|]; try discriminate.
    now injection Href as ->. }
  split.
  { rewrite <- Hrev''. unfold getRev, maybeGetStrAttr.
    now rewrite (makeResult_attrs _ _ _ _ _ _ "rev" Hmk) by discriminate. }
  destruct (preliminary_no_write _ Fpre) as [Hnone _].
  replace (e1 ++ e3 ++ e5 ++ e7 ++ e9 ++ e11 ++ e13 ++ e15 ++ e17 ++ e19
              ++ e21 ++ e22)%list
    with ((e1 ++ e3 ++ e5 ++ e7 ++ e9 ++ e11 ++ e13 ++ e15 ++ e17 ++ e19
              ++ e21) ++ e22)%list
    by (now rewrite <- !app_assoc).
  rewrite filter_app, Hnone. exact Hfilter.
Qed.

(** *** The shallow check *)

Lemma makeResult_shallow _input repoInfo input info sp res :
  shallow repoInfo = true ->
  makeResult E _input repoInfo input info sp = Ok res ->
  exists n, res = (sp, set_attr input "lastModified" (AInt n)).
Proof.
  intro Hsh. unfold makeResult, rbind, assert. rewrite Hsh. cbn [negb].
  repeat match goal with
         | |- context [match ?x with _ => _ end] => destruct x
         end; try discriminate; intros [= <-]; eauto.
Qed.


(** *** A pinned revision served from the cache *)

(** With [rev] set, [getRepoInfo] runs no program and changes nothing;
    the one thing it may ask the file system is whether [<path>/.git]
    exists, for a [file] URL. *)
Lemma bind_liftR {A B} (r : Res A) (k : A -> M B) (w : World) :
  bind (liftR r) k w
  = match r with
    | Ok a => k a w
    | Err e => (Err e, w, [])
    end.
Proof.
  unfold bind, liftR. destruct r as [a|e]; [|reflexivity].
  now destruct (k a w) as [[r w'] evs].
Qed.

Lemma bind_ret {A B} (a : A) (k : A -> M B) (w : World) :
  bind (ret a) k w = k a w.
Proof. unfold bind, ret. now destruct (k a w) as [[r w'] evs]. Qed.

Lemma bind_pathExists {B} (p : Path) (k : bool -> M B) (w : World) :
  bind (pathExists p) k w
  = let '(r, w', evs) :=
      k (match files w p with Some _ => true | None => false end) w in
    (r, w', EvPathExists p :: evs).
Proof.
  unfold bind, pathExists.
  now destruct (k _ w) as [[r w'] evs].
Qed.

Lemma bind_cacheLookup {B} (key : Attrs)
    (k : option (Attrs * StorePath) -> M B) (w : World) :
  bind (cacheLookup E key) k w
  = let '(r, w', evs) :=
      k (cache_lookup (tarballTtl E) (now w) key (cache w)) w in
    (r, w',
     EvCacheLookup key
       (match cache_lookup (tarballTtl E) (now w) key (cache w) with
        | Some _ => true
        | None => false
        end) :: evs).
Proof.
  unfold bind, cacheLookup.
  now destruct (k _ w) as [[r w'] evs].
Qed.

Lemma bind_run {A B} (m : M A) (k : A -> M B) (w w' : World) (a : A)
    (evs : list Event) :
  m w = (Ok a, w', evs) ->
  bind m k w = let '(r, w'', evs') := k a w' in (r, w'', (evs ++ evs')%list).
Proof. intro H. unfold bind. now rewrite H. Qed.

Lemma bind_assoc {A B C} (m : M A) (f : A -> M B) (g : B -> M C) (w : World) :
  bind (bind m f) g w = bind m (fun a => bind (f a) g) w.
Proof.
  unfold bind. destruct (m w) as [[[a|e] w1] e1]; [|reflexivity].
  destruct (f a w1) as [[[b|e] w2] e2]; [|reflexivity].
  destruct (g b w2) as [[r w3] e3]. now rewrite app_assoc.
Qed.

Lemma getRepoInfo_pinned (input : Input) (w : World) (rev : string) :
  getRev E input = Ok (Some rev) ->
  world_of (getRepoInfo E input w) = w
  /\ (events_of (getRepoInfo E input w) = []
      \/ exists p, events_of (getRepoInfo E input w) = [EvPathExists p]).
Proof.
  intro Hrev. unfold getRepoInfo.
  rewrite bind_liftR.
  destruct (maybeGetBoolAttr (attrs input) "shallow") as [sh|]; [|now auto].
  rewrite bind_liftR.
  destruct (maybeGetBoolAttr (attrs input) "submodules") as [sm|]; [|now auto].
  rewrite bind_liftR.
  destruct (maybeGetBoolAttr (attrs input) "allRefs") as [ar|]; [|now auto].
  rewrite bind_liftR.
  destruct (getStrAttr (attrs input) "url") as [s|]; [|now auto].
  rewrite bind_liftR.
  destruct (of_option (BadURL s) (parseURL E s)) as [u|]; [|now auto].
  (* what follows the probe runs nothing *)
  match goal with
  | |- context [bind _ ?k w] =>
      assert (Htail : forall isBare,
                world_of (k isBare w) = w /\ events_of (k isBare w) = [])
  end.
  { intro isBare. rewrite bind_liftR.
    destruct (getRef input) as [[ref|]|]; [| |now auto].
    - rewrite bind_ret. now cbv beta iota.
    - rewrite bind_assoc, bind_liftR, Hrev, bind_ret. now cbv beta iota. }
  destruct (String.eqb (scheme u) "file").
  - rewrite bind_assoc, bind_pathExists, bind_ret.
    destruct (Htail (negb match files w (path u ++ "/.git") with
                           | Some _ => true
                           | None => false
                           end)) as [H1 H2].
    match goal with
    | H : world_of ?x = w |- _ => destruct x as [[r w'] evs]
    end.
    unfold world_of, events_of in *. cbn [fst snd] in *. subst.
    split; [reflexivity|]. right. eauto.
  - rewrite bind_ret. destruct (Htail false) as [H1 H2]. auto.
Qed.

Lemma run_eta {A} (x : Res A * World * list Event) :
  x = (result_of x, world_of x, events_of x).
Proof. now destruct x as [[r w] evs]. Qed.

(** C1, amended: a request whose [rev] is set and whose immutable key
    (cacheType, name, rev) is in the cache is answered from that
    look-up with the identifier of the entry: no program is run, the
    world is left as it was, and the file system is asked at most
    whether [<path>/.git] exists (by [getRepoInfo], for a [file] URL).
    Once the revision is known by resolution, the same look-up is made
    again after the shallow check, and a hit is the result, with no
    extraction. A successful ingestion leaves such an entry, with the
    attributes that make the answer succeed. *)
Theorem pinned_fetch_from_cache (input : Input) (w : World) (rev : string)
    (repoInfo : RepoInfo) (name : string) (info : Attrs) (sp : StorePath) :
  getRev E input = Ok (Some rev) ->
  let key := mkAttrs [("type", AStr (cacheType repoInfo));
                      ("name", AStr name); ("rev", AStr rev)] in
  (result_of (getRepoInfo E input w) = Ok repoInfo ->
   getName input = Ok name ->
   cache_lookup (tarballTtl E) (now w) key (cache w) = Some (info, sp) ->
   fetch E input w
   = (makeResult E input repoInfo input info sp, w,
      (events_of (getRepoInfo E input w) ++ [EvCacheLookup key true])%list)
   /\ (events_of (getRepoInfo E input w) = []
       \/ exists p, events_of (getRepoInfo E input w) = [EvPathExists p])
   /\ (forall e, In e (events_of (fetch E input w)) -> is_git e = false)
   /\ (forall lm,
         getIntAttr info "lastModified" = Ok lm ->
         (if shallow repoInfo then True
          else exists n, getIntAttr info "revCount" = Ok n) ->
         exists input',
           makeResult E input repoInfo input info sp = Ok (sp, input')))
  /\ (forall _input mutableAttrs repoDir w1 evs,
        checkShallow E repoInfo repoDir w = (Ok tt, w1, evs) ->
        cache_lookup (tarballTtl E) (now w1) key (cache w1) = Some (info, sp) ->
        fetchResolved E _input repoInfo name mutableAttrs repoDir input w
        = (makeResult E _input repoInfo input info sp, w1,
           (evs ++ [EvCacheLookup key true])%list))
  /\ (forall _input mutableAttrs repoDir w0 w0' res evs,
        ingest E _input repoInfo name mutableAttrs repoDir input rev w0
        = (Ok res, w0', evs) ->
        exists info',
          (forall t, cache_lookup (tarballTtl E) t key (cache w0')
                     = Some (info', fst res))
          /\ (exists lm, getIntAttr info' "lastModified" = Ok lm)
          /\ (if shallow repoInfo then True
              else exists n, getIntAttr info' "revCount" = Ok n)).
Proof.
  intros Hrev key.
  assert (Hkey : getImmutableAttrs E repoInfo name input = Ok key).
  { unfold getImmutableAttrs. now rewrite Hrev. }
  split; [|split].
  - intros Hrepo Hname Hhit.
    destruct (getRepoInfo_pinned input w rev Hrev) as [Hw Hev].
    assert (Hfetch :
              fetch E input w
              = (makeResult E input repoInfo input info sp, w,
                 (events_of (getRepoInfo E input w)
                    ++ [EvCacheLookup key true])%list)).
    { unfold fetch.
      rewrite (bind_run _ _ w w repoInfo (events_of (getRepoInfo E input w)))
        by (now rewrite (run_eta (getRepoInfo E input w)), Hrepo, Hw at 1).
      rewrite bind_liftR, Hname. unfold lookupPinned.
      rewrite bind_assoc, bind_liftR, Hrev.
      rewrite bind_assoc, bind_liftR, Hkey.
      rewrite bind_cacheLookup, Hhit. reflexivity. }
    split; [exact Hfetch|]. split; [exact Hev|]. split.
    + intros e Hin. rewrite Hfetch in Hin. unfold events_of in Hin.
      cbn [snd] in Hin. apply in_app_iff in Hin.
      destruct Hin as [Hin|[<-|[]]]; [|reflexivity].
      destruct Hev as [Hev|[p Hev]]; unfold events_of in Hev;
        rewrite Hev in Hin; [destruct Hin|].
      destruct Hin as [<-|[]]. reflexivity.
    + intros lm Hlm Hrc. unfold makeResult, rbind, assert.
      rewrite Hrev. cbn [opt_eqb]. rewrite String.eqb_refl.
      destruct (shallow repoInfo); cbn [negb].
      * rewrite Hlm. eauto.
      * destruct Hrc as [n ->]. cbv beta iota. rewrite Hlm. eauto.
  - intros _input mutableAttrs repoDir w1 evs Hcheck Hhit.
    unfold fetchResolved.
    rewrite (bind_run _ _ w w1 tt evs Hcheck).
    rewrite bind_liftR, Hrev, bind_liftR. cbn [of_option].
    rewrite bind_liftR, Hkey, bind_cacheLookup, Hhit. reflexivity.
  - intros _input mutableAttrs repoDir w0 w0' res evs H.
    destruct (ingest_writes _ _ _ _ _ _ _ _ _ _ _ H)
      as (r0 & key' & info' & _ & Hkey' & _ & _ & _ & Hlm & Hrc & Hlook).
    rewrite Hkey in Hkey'. injection Hkey' as <-.
    exists info'. split; [exact Hlook|]. split; [exact Hlm|].
    now destruct (shallow repoInfo).
Qed.

End WithEnv.

(** *** The sample world *)

Import Fixture.

(** C1, counterexample: a pinned revision of [file:///repo] that is in
    the cache is answered from the cache, after [getRepoInfo] has asked
    the file system whether [/repo/.git] exists. *)
Lemma pinned_hit_probes_file_system :
  ~ silent_on_pinned_hit E1 localByRev
      (afterFetch E1 localByRev (emptyWorld 1000) 5000).
Proof.
  intro H.
  destruct (H rev1
              (mkRepoInfo false false false "git" false false true "file:///repo")
              "source" fullInfo "/nix/store/0000-source"
              eq_refl eq_refl eq_refl eq_refl) as [_ Hq].
  destruct (Hq (EvPathExists "/repo/.git")) as [_ Hfs].
  - vm_compute. left. reflexivity.
  - discriminate.
Qed.

Lemma pinned_fetch_from_cache_witness :
  getRev E1 localByRev = Ok (Some rev1)
  /\ result_of (fetch E1 localByRev
                  (afterFetch E1 localByRev (emptyWorld 1000) 5000))
     = makeResult E1 localByRev
         (mkRepoInfo false false false "git" false false true "file:///repo")
         localByRev fullInfo "/nix/store/0000-source"
  /\ events_of (fetch E1 localByRev
                  (afterFetch E1 localByRev (emptyWorld 1000) 5000))
     = [EvPathExists "/repo/.git";
        EvCacheLookup
          (mkAttrs [("type", AStr "git"); ("name", AStr "source");
                    ("rev", AStr rev1)]) true].
Proof.
  split; [reflexivity|].
  destruct (pinned_fetch_from_cache E1 localByRev
              (afterFetch E1 localByRev (emptyWorld 1000) 5000) rev1
              (mkRepoInfo false false false "git" false false true "file:///repo")
              "source" fullInfo "/nix/store/0000-source" eq_refl)
    as [H _].
  destruct (H eq_refl eq_refl eq_refl) as [Hf _].
  rewrite Hf. split; reflexivity.
Defined.



(** With [ttl = 0] the second fetch, ten seconds later, refreshes. *)
Example ttl_zero_refreshes :
  existsb is_refresh
    (events_of (fetch (sampleEnv 0 true false) byRef
                  (afterFetch (sampleEnv 0 true false) byRef (emptyWorld 1000) 1010)))
  = true.
Proof. vm_compute. reflexivity. Qed.

(** With [ttl = 3600] the second fetch, ten seconds later, runs no
    program and returns what the first returned. *)
Example within_ttl_no_refresh :
  existsb is_git
    (events_of (fetch E1 byRef (afterFetch E1 byRef (emptyWorld 1000) 1010)))
  = false
  /\ result_of (fetch E1 byRef (afterFetch E1 byRef (emptyWorld 1000) 1010))
     = result_of (fetch E1 byRef (emptyWorld 1000)).
Proof. split; vm_compute; reflexivity. Qed.


(** Without a marker the same failure is the result of the fetch. *)
Example no_marker_fetch_fails :
  result_of (fetch (sampleEnv 3600 false false) byRef (emptyWorld 1000))
  = Err (ExecError true 128).
Proof. vm_compute. reflexivity. Qed.

Lemma cache_write_policy_witness :
  exists r0 repoInfo name ref rev info,
    getRev E1 byRef = Ok r0
    /\ result_of (getRepoInfo E1 byRef (emptyWorld 1000)) = Ok repoInfo
    /\ getName byRef = Ok name
    /\ getRef (snd (firstResult)) = Ok (Some ref)
    /\ getRev E1 (snd (firstResult)) = Ok (Some rev)
    /\ List.filter is_cache_add (events_of (fetch E1 byRef (emptyWorld 1000)))
       = (match r0 with
          | None =>
              [EvCacheAdd (mutableAttrsOf repoInfo name ref) info
                 "/nix/store/0000-source" false]
          | Some _ => []
          end
          ++ [EvCacheAdd
                (mkAttrs [("type", AStr (cacheType repoInfo));
                          ("name", AStr name); ("rev", AStr rev)])
                info "/nix/store/0000-source" true])%list.
Proof.
  apply (cache_write_policy E1 byRef (emptyWorld 1000)
           (world_of (fetch E1 byRef (emptyWorld 1000)))
           firstResult
           (events_of (fetch E1 byRef (emptyWorld 1000)))).
  - vm_compute. reflexivity.
  - vm_compute. reflexivity.
Defined.

(** A pinned request that has to extract writes the immutable entry
    only. *)
Example pinned_writes_immutable_only :
  List.filter is_cache_add (events_of (fetch E1 byRev (emptyWorld 1000)))
  = [EvCacheAdd
       (mkAttrs [("type", AStr "git"); ("name", AStr "source");
                 ("rev", AStr rev1)])
       fullInfo "/nix/store/0000-source" true].
Proof. vm_compute. reflexivity. Qed.


(** On a shallow repository the whole fetch fails for a request that is
    not shallow and succeeds, without [revCount], for one that is. *)
Example shallow_repository_fetches :
  result_of (fetch (sampleEnv 3600 true true) byRef (emptyWorld 1000))
  = Err (ShallowRepository remoteUrl)
  /\ result_of (fetch (sampleEnv 3600 true true) byRefShallow (emptyWorld 1000))
     = Ok ("/nix/store/0000-source",
           mkInput (mkAttrs [("type", AStr "git"); ("url", AStr remoteUrl);
                             ("ref", AStr "main"); ("shallow", ABool true);
                             ("rev", AStr rev1);
                             ("lastModified", AInt 1700000000)])).
Proof. split; vm_compute; reflexivity. Qed.

End GitFacts.

(** ** Look-ups in the ordered containers *)

Module MapFacts.

Import StrFacts.

Lemma find_none_below {V} (k : string) (m : SMap.t V) :
  (forall x, In x (SMap.keys m) -> Str.lt k x) -> SMap.find k m = None.
Proof.
  induction m as [|[k' v'] m IH]; simpl; intro H; [reflexivity|].
  destruct (String.eqb k k') eqn:He.
  - apply String.eqb_eq in He. subst k'.
    exfalso. exact (lt_irrefl k (H k (or_introl eq_refl))).
  - apply IH. intros x Hx. apply H. now right.
Qed.

(** [find] after [emplace] on a map in ascending order: a key that was
    there keeps its value. *)
Lemma find_emplace {V} (k k' : string) (v : V) (m : SMap.t V) :
  SSet.sorted (SMap.keys m) ->
  SMap.find k (fst (SMap.emplace k' v m))
  = if String.eqb k k'
    then match SMap.find k m with Some x => Some x | None => Some v end
    else SMap.find k m.
Proof.
  induction m as [|[k0 v0] m IH]; simpl.
  - intros _. now destruct (String.eqb k k').
  - intros [Hlt Hs]. destruct (String.compare k' k0) eqn:C; simpl.
    + apply compare_eq in C. subst k0.
      destruct (String.eqb k k'); reflexivity.
    + destruct (String.eqb k k') eqn:He; [|reflexivity].
      apply String.eqb_eq in He. subst k'.
      assert (Hne : String.eqb k k0 = false).
      { apply String.eqb_neq. intros ->. exact (lt_irrefl _ C). }
      rewrite Hne.
      rewrite (find_none_below k m); [reflexivity|].
      intros x Hx. apply (lt_trans _ k0); [exact C|now apply Hlt].
    + specialize (IH Hs).
      destruct (SMap.emplace k' v m) as [r b]. simpl in *.
      destruct (String.eqb k k0) eqn:He0.
      * apply String.eqb_eq in He0. subst k0.
        destruct (String.eqb k k') eqn:He; [|reflexivity].
        apply String.eqb_eq in He. subst k'.
        rewrite compare_refl in C. discriminate.
      * exact IH.
Qed.

Lemma find_in_keys {V} (k : string) (m : SMap.t V) :
  SMap.find k m <> None <-> In k (SMap.keys m).
Proof.
  induction m as [|[k0 v0] m IH]; simpl; [tauto|].
  destruct (String.eqb k k0) eqn:He.
  - apply String.eqb_eq in He. subst. split; [now left|discriminate].
  - apply String.eqb_neq in He. rewrite IH. split; [now right|].
    intros [->|H]; [contradiction|assumption].
Qed.

Lemma find_insert_same {V} (k : string) (v : V) (m : SMap.t V) :
  SMap.find k (SMap.insert_or_assign k v m) = Some v.
Proof.
  induction m as [|[k0 v0] m IH]; simpl.
  - now rewrite String.eqb_refl.
  - destruct (String.compare k k0) eqn:C; simpl.
    + now rewrite String.eqb_refl.
    + now rewrite String.eqb_refl.
    + replace (String.eqb k k0) with false; [exact IH|].
      symmetry. apply String.eqb_neq. intros ->.
      rewrite compare_refl in C. discriminate.
Qed.

Lemma emplace_values {V} (k : string) (v : V) (m : SMap.t V) (e : string * V) :
  In e (fst (SMap.emplace k v m)) -> e = (k, v) \/ In e m.
Proof.
  induction m as [|[k' v'] m IH]; simpl.
  - intros [<-|[]]. now left.
  - destruct (String.compare k k'); simpl.
    + tauto.
    + intros [<-|H]; tauto.
    + destruct (SMap.emplace k v m) as [r b]. simpl in *.
      intros [<-|H]; [tauto|]. destruct (IH H); tauto.
Qed.

Lemma insert_in (k : string) (s : SSet.t) (x : string) :
  In x (SSet.insert k s) <-> x = k \/ In x s.
Proof.
  induction s as [|k' s IH]; simpl.
  - intuition.
  - destruct (String.compare k k') eqn:C; simpl.
    + apply compare_eq in C. subst. intuition.
    + intuition.
    + rewrite IH. intuition.
Qed.

Lemma insert_sorted (k : string) (s : SSet.t) :
  SSet.sorted s -> SSet.sorted (SSet.insert k s).
Proof.
  induction s as [|k' s IH]; simpl.
  - intros _. split; [intros ? []|exact I].
  - intros [Hlt Hs]. destruct (String.compare k k') eqn:C; simpl.
    + now split.
    + split; [|now split].
      intros x [<-|Hx]; [exact C|].
      apply (lt_trans _ k'); [exact C|now apply Hlt].
    + split; [|now apply IH].
      intros x Hx. apply insert_in in Hx. destruct Hx as [->|Hx].
      * now apply compare_gt_lt.
      * now apply Hlt.
Qed.

Lemma fold_insert_sorted (l : list string) (s : SSet.t) :
  SSet.sorted s -> SSet.sorted (fold_left (fun s k => SSet.insert k s) l s).
Proof.
  revert s. induction l as [|k l IH]; intros s H; simpl; [assumption|].
  apply IH. now apply insert_sorted.
Qed.

Lemma fold_insert_in (l : list string) (s : SSet.t) (x : string) :
  In x (fold_left (fun s k => SSet.insert k s) l s) <-> In x l \/ In x s.
Proof.
  revert s. induction l as [|k l IH]; intro s; simpl; [tauto|].
  rewrite IH, insert_in. intuition.
Qed.

(** [SSet.of_list] builds a set in the sense of [SSet.sorted], with the
    elements of the list. *)
Lemma of_list_sorted (l : list string) : SSet.sorted (SSet.of_list l).
Proof. apply fold_insert_sorted. exact I. Qed.

Lemma of_list_in (l : list string) (x : string) :
  In x (SSet.of_list l) <-> In x l.
Proof. unfold SSet.of_list. rewrite fold_insert_in. simpl. tauto. Qed.

End MapFacts.

(** ** The in-memory accessor *)

Module MemoryFacts.

Import Accessor Memory MemorySpec StrFacts MapFacts.

Lemma added_sorted (adds : list (Path * string)) (m : MemoryInputAccessorImpl) :
  SSet.sorted (SMap.keys (files m)) ->
  SSet.sorted
    (SMap.keys (files (fold_left (fun m e => addFile m (fst e) (snd e)) adds m))).
Proof.
  revert m. induction adds as [|e adds IH]; intros m H; simpl; [assumption|].
  apply IH. simpl. now apply emplace_sorted.
Qed.

Lemma find_added (adds : list (Path * string)) (m : MemoryInputAccessorImpl)
    (p : Path) :
  SSet.sorted (SMap.keys (files m)) ->
  SMap.find p
    (files (fold_left (fun m e => addFile m (fst e) (snd e)) adds m))
  = match SMap.find p (files m) with
    | Some c => Some c
    | None => option_map snd (List.find (fun e => String.eqb p (fst e)) adds)
    end.
Proof.
  revert m. induction adds as [|[q c] adds IH]; intros m H; simpl.
  - now destruct (SMap.find p (files m)).
  - rewrite IH by (simpl; now apply emplace_sorted).
    simpl. rewrite (find_emplace p q c (files m) H).
    destruct (String.eqb p q); destruct (SMap.find p (files m)); reflexivity.
Qed.

(** X1: [addFile] never replaces a file. After any sequence of [addFile]
    calls on a new accessor, [readFile] of a path gives the contents of the
    first call that named this very path (paths are compared as they
    stand, nothing is canonicalised), and "does not exist" when no call
    did; [pathExists] answers [true] exactly when [readFile] has a
    result. *)
Theorem memory_first_add_wins (adds : list (Path * string)) (p : Path) :
  readFile (added adds) p
  = match List.find (fun e => String.eqb p (fst e)) adds with
    | Some e => Ok (snd e)
    | None => Err (DoesNotExist p)
    end
  /\ pathExists (added adds) p
     = Ok (match readFile (added adds) p with Ok _ => true | Err _ => false end).
Proof.
  unfold readFile, pathExists, added.
  rewrite (find_added adds makeMemoryInputAccessor p I). simpl.
  destruct (List.find (fun e => String.eqb p (fst e)) adds); simpl; auto.
Qed.

(** A second [addFile] of [/a] is lost; [/a/] is another file. *)
Example memory_second_add_lost :
  readFile (added [("/a", "one"); ("/a", "two")]) "/a" = Ok "one"
  /\ readFile (added [("/a", "one")]) "/a/" = Err (DoesNotExist "/a/").
Proof. split; reflexivity. Qed.

(** [dumpPath] over an in-memory accessor cannot serialise anything:
    whatever files were added and whatever path and filter are given, it
    writes the magic string, asks [lstat] once and fails with the
    "unimplemented" error of [MemoryInputAccessor::lstat]. *)
Example memory_dumpPath_unimplemented (m : MemoryInputAccessorImpl)
    (fuel : nat) (path : Path) (filter : Path -> bool) :
  dumpPath (S fuel) (accessor m) path filter
  = (Err (Unimplemented "MemoryInputAccessor::lstat"),
     mkDump (Sink.str narVersionMagic1) [CallLstat path]).
Proof. reflexivity. Qed.

End MemoryFacts.

(** ** Prefixes, suffixes and the order of strings *)

Module PrefixFacts.

Import StrFacts.

Local Open Scope nat_scope.

Lemma hasPrefix_substr (s p : string) :
  hasPrefix s p = true -> s = (p ++ substr s (String.length p))%string.
Proof.
  revert s. induction p as [|c p IH]; intros s H; simpl in *.
  - now destruct s.
  - destruct s as [|d s]; [discriminate|].
    apply andb_prop in H. destruct H as [Hc Hp].
    apply Ascii.eqb_eq in Hc. subst d. simpl. f_equal. now apply IH.
Qed.

Lemma substr_app (p s : string) : substr (p ++ s) (String.length p) = s.
Proof. induction p as [|c p IH]; simpl; [now destruct s|exact IH]. Qed.

Lemma take_app (a b : string) : take (a ++ b) (String.length a) = a.
Proof. induction a as [|c a IH]; simpl; [now destruct b|now rewrite IH]. Qed.

Lemma string_length_app (a b : string) :
  String.length (a ++ b) = String.length a + String.length b.
Proof. induction a as [|c a IH]; simpl; [reflexivity|now rewrite IH]. Qed.

Lemma strchr_length (s sl : string) :
  strchr_slash s = Some sl -> String.length sl <= String.length s.
Proof.
  revert sl. induction s as [|c s IH]; intros sl; simpl; [discriminate|].
  destruct (Ascii.eqb c slash).
  - intros [= <-]. simpl. lia.
  - intro H. specialize (IH _ H). lia.
Qed.

Lemma strchr_split (s sl : string) :
  strchr_slash s = Some sl ->
  s = (take s (String.length s - String.length sl) ++ sl)%string
  /\ strchr_slash (take s (String.length s - String.length sl)) = None.
Proof.
  revert sl. induction s as [|c s IH]; intros sl; cbn [strchr_slash]; [discriminate|].
  destruct (Ascii.eqb c slash) eqn:Hc.
  - intros [= <-]. rewrite Nat.sub_diag. split; reflexivity.
  - intro H. pose proof (strchr_length _ _ H) as Hl.
    destruct (IH _ H) as [Hs Hn].
    replace (String.length (String c s) - String.length sl)
      with (S (String.length s - String.length sl)) by (cbn [String.length]; lia).
    cbn [take strchr_slash append]. rewrite Hc. split; [now rewrite <- Hs|exact Hn].
Qed.

Lemma strchr_app_slash (name rest : string) :
  strchr_slash name = None ->
  strchr_slash (name ++ "/" ++ rest) = Some ("/" ++ rest)%string.
Proof.
  induction name as [|c name IH]; simpl.
  - intros _. reflexivity.
  - destruct (Ascii.eqb c slash); [discriminate|]. exact IH.
Qed.

Lemma strchr_app_none (a b : string) :
  strchr_slash a = None -> strchr_slash (a ++ b) = strchr_slash b.
Proof.
  induction a as [|c a IH]; simpl; [reflexivity|].
  destruct (Ascii.eqb c slash); [discriminate|]. exact IH.
Qed.

Lemma prefix_lt (P K : string) :
  hasPrefix K P = true -> K <> P -> Str.lt P K.
Proof.
  unfold Str.lt. revert K. induction P as [|c P IH]; intros K H Hne; simpl in *.
  - destruct K; [congruence|reflexivity].
  - destruct K as [|d K]; [discriminate|].
    apply andb_prop in H. destruct H as [Hc Hp].
    apply Ascii.eqb_eq in Hc. subst d. simpl. rewrite ascii_compare_refl.
    apply IH; [assumption|congruence].
Qed.

Lemma between_prefix (P f K : string) :
  Str.lt P f -> Str.lt f K -> hasPrefix K P = true -> hasPrefix f P = true.
Proof.
  unfold Str.lt. revert f K. induction P as [|c P IH]; intros f K H1 H2 H; simpl in *.
  - reflexivity.
  - destruct K as [|d K]; [discriminate|].
    apply andb_prop in H. destruct H as [Hc Hp].
    apply Ascii.eqb_eq in Hc. subst d.
    destruct f as [|e f]; [discriminate|]. simpl in H1, H2.
    destruct (Ascii.compare c e) eqn:C1.
    + apply Ascii.compare_eq_iff in C1. subst e. rewrite Ascii.eqb_refl. simpl.
      rewrite ascii_compare_refl in H2. now apply (IH f K).
    + rewrite Ascii.compare_antisym, C1 in H2. simpl in H2. discriminate.
    + discriminate.
Qed.

Lemma append_ne (a b : string) : b <> ""%string -> (a ++ b)%string <> a.
Proof.
  intros Hb H. apply (f_equal String.length) in H. rewrite string_length_app in H.
  destruct b; [congruence|]. simpl in H. lia.
Qed.

End PrefixFacts.

(** ** The index and the listings of the archive-backed accessor *)

Module ZipIndexFacts.

Import Accessor Zip ZipSpec ZipIndexSpec StrFacts MapFacts PrefixFacts.

Local Open Scope nat_scope.

Lemma index_members_sorted (n : nat) (es : list ZipEntry) (m : SMap.t zip_stat) :
  SSet.sorted (SMap.keys m) -> SSet.sorted (SMap.keys (index_members n es m)).
Proof.
  revert n m. induction es as [|e es IH]; intros n m H; simpl; [assumption|].
  destruct (strchr_slash (ze_name e)); [|now apply IH].
  apply IH. now apply emplace_sorted.
Qed.

Lemma find_index_members (k : string) (n : nat) (es : list ZipEntry)
    (m : SMap.t zip_stat) :
  SSet.sorted (SMap.keys m) ->
  SMap.find k (index_members n es m)
  = match SMap.find k m with
    | Some sb => Some sb
    | None => first_member k n es
    end.
Proof.
  revert n m. induction es as [|e es IH]; intros n m H; simpl.
  - now destruct (SMap.find k m).
  - destruct (strchr_slash (ze_name e)) as [slash|]; [|now apply IH].
    rewrite IH by now apply emplace_sorted.
    rewrite (find_emplace k slash _ m H).
    destruct (String.eqb k slash); destruct (SMap.find k m); reflexivity.
Qed.

Lemma first_member_some (k : string) (n : nat) (es : list ZipEntry)
    (sb : zip_stat) :
  first_member k n es = Some sb ->
  exists e,
    n <= zs_index sb
    /\ nth_error es (zs_index sb - n) = Some e
    /\ strchr_slash (ze_name e) = Some k
    /\ zs_size sb = ze_size e
    /\ forall j e', j < zs_index sb - n -> nth_error es j = Some e' ->
                    strchr_slash (ze_name e') <> Some k.
Proof.
  revert n. induction es as [|e es IH]; intros n; simpl; [discriminate|].
  assert (Hrest : first_member k (S n) es = Some sb ->
                  strchr_slash (ze_name e) <> Some k ->
                  exists e0,
                    n <= zs_index sb
                    /\ nth_error (e :: es) (zs_index sb - n) = Some e0
                    /\ strchr_slash (ze_name e0) = Some k
                    /\ zs_size sb = ze_size e0
                    /\ forall j e', j < zs_index sb - n ->
                                    nth_error (e :: es) j = Some e' ->
                                    strchr_slash (ze_name e') <> Some k).
  { intros H Hne. destruct (IH _ H) as [e0 [Hle [Hnth [Hk [Hsz Hfirst]]]]].
    exists e0. split; [lia|].
    replace (zs_index sb - n)%nat with (S (zs_index sb - S n)) by lia.
    simpl. repeat split; try assumption.
    intros [|j] e' Hj Hn; simpl in Hn.
    - injection Hn as <-. exact Hne.
    - apply (Hfirst j e'); [lia|assumption]. }
  destruct (strchr_slash (ze_name e)) as [slash|] eqn:Hs.
  - destruct (String.eqb k slash) eqn:He.
    + apply String.eqb_eq in He. subst slash. intros [= <-]. simpl.
      exists e. rewrite Nat.sub_diag. simpl.
      repeat split; try assumption; try lia.
    + intro H. apply Hrest; [assumption|].
      intros [= ->]. rewrite String.eqb_refl in He. discriminate.
  - intro H. apply Hrest; [assumption|discriminate].
Qed.

Lemma first_member_none (k : string) (n : nat) (es : list ZipEntry) :
  first_member k n es = None <->
  forall e, In e es -> strchr_slash (ze_name e) <> Some k.
Proof.
  revert n. induction es as [|e es IH]; intros n; simpl.
  - split; [intros _ ? []|reflexivity].
  - destruct (strchr_slash (ze_name e)) as [slash|] eqn:Hs.
    + destruct (String.eqb k slash) eqn:He.
      * apply String.eqb_eq in He. subst slash. split; [discriminate|].
        intro H. exfalso. apply (H e); [now left|assumption].
      * apply String.eqb_neq in He. rewrite IH. split.
        -- intros H e' [<-|Hin]; [rewrite Hs; congruence|now apply H].
        -- intros H e' Hin. apply H. now right.
    + rewrite IH. split.
      * intros H e' [<-|Hin]; [rewrite Hs; discriminate|now apply H].
      * intros H e' Hin. apply H. now right.
Qed.

(** X2: the index of the constructor. A key is found exactly when some
    member's name, from its first slash on, is this key (so a member
    without a slash in its name is out of reach), and what is found is the
    position and the size of the first such member of the archive: of two
    members under one key, the later one is ignored. *)
Theorem zip_index_first_member (archive : list ZipEntry) (k : string) :
  match SMap.find k (members (makeZipInputAccessor archive)) with
  | Some sb =>
      exists e,
        nth_error archive (zs_index sb) = Some e
        /\ strchr_slash (ze_name e) = Some k
        /\ zs_size sb = ze_size e
        /\ forall j e', j < zs_index sb -> nth_error archive j = Some e' ->
                        strchr_slash (ze_name e') <> Some k
  | None => forall e, In e archive -> strchr_slash (ze_name e) <> Some k
  end.
Proof.
  unfold makeZipInputAccessor. cbn [members].
  rewrite (find_index_members k 0 archive [] I). cbn [SMap.find].
  destruct (first_member k 0 archive) as [sb|] eqn:H.
  - destruct (first_member_some _ _ _ _ H) as [e [_ [Hn [Hk [Hs Hf]]]]].
    rewrite Nat.sub_0_r in *. exists e. auto.
  - exact (proj1 (first_member_none k 0 archive) H).
Qed.

Lemma after_key_none (p : string) (m : SMap.t zip_stat) :
  after_key p m = None <-> SMap.find p m = None.
Proof.
  induction m as [|[k v] m IH]; simpl; [tauto|].
  destruct (String.eqb p k); [split; discriminate|exact IH].
Qed.

Lemma after_key_spec (p : string) (m rest : SMap.t zip_stat) :
  SSet.sorted (SMap.keys m) ->
  after_key p m = Some rest ->
  SSet.sorted (SMap.keys rest)
  /\ (forall x, In x (SMap.keys rest) -> Str.lt p x /\ In x (SMap.keys m))
  /\ (forall K, In K (SMap.keys m) -> Str.lt p K -> In K (SMap.keys rest)).
Proof.
  induction m as [|[k v] m IH]; simpl; [discriminate|].
  intros [Hlt Hs]. destruct (String.eqb p k) eqn:He.
  - apply String.eqb_eq in He. subst k. intros [= <-].
    split; [assumption|]. split.
    + intros x Hx. split; [now apply Hlt|now right].
    + intros K [<-|HK] HpK; [|assumption].
      exfalso. exact (lt_irrefl _ HpK).
  - intro H. destruct (IH Hs H) as [H1 [H2 H3]].
    split; [assumption|]. split.
    + intros x Hx. destruct (H2 x Hx). split; [assumption|now right].
    + intros K [<-|HK] HpK; [|now apply H3].
      exfalso.
      assert (Hin : In p (SMap.keys m)).
      { apply find_in_keys. intro Hn. apply after_key_none in Hn. congruence. }
      exact (lt_asym _ _ HpK (Hlt _ Hin)).
Qed.

Lemma children_mono (path : string) (i : SMap.t zip_stat) (entries : DirEntries)
    (x : string) :
  In x (SMap.keys entries) -> In x (SMap.keys (children path i entries)).
Proof.
  revert entries. induction i as [|[first sb] i IH]; intros entries H; simpl;
    [assumption|].
  destruct (hasPrefix first path); [|assumption].
  destruct (strchr_slash (substr first (String.length path))) as [sl|].
  - destruct (String.eqb sl "/"); cbn [negb]; [|now apply IH].
    apply IH. apply emplace_keys_in. now right.
  - apply IH. apply emplace_keys_in. now right.
Qed.

Lemma children_sound (path : string) (i : SMap.t zip_stat) (entries : DirEntries)
    (name : string) :
  In name (SMap.keys (children path i entries)) ->
  In name (SMap.keys entries)
  \/ (strchr_slash name = None
      /\ (In (path ++ name)%string (SMap.keys i)
          \/ In (path ++ name ++ "/")%string (SMap.keys i))).
Proof.
  revert entries. induction i as [|[first sb] i IH]; intros entries; simpl;
    [now left|].
  destruct (hasPrefix first path) eqn:Hp; [|now left].
  pose proof (hasPrefix_substr _ _ Hp) as Hfirst.
  assert (Hstep : forall es,
    In name (SMap.keys (children path i es)) ->
    (In name (SMap.keys es) ->
     In name (SMap.keys entries)
     \/ (strchr_slash name = None
         /\ (first = (path ++ name)%string
             \/ first = (path ++ name ++ "/")%string))) ->
    In name (SMap.keys entries)
    \/ (strchr_slash name = None
        /\ ((first = (path ++ name)%string \/ In (path ++ name)%string (SMap.keys i))
            \/ (first = (path ++ name ++ "/")%string
                \/ In (path ++ name ++ "/")%string (SMap.keys i))))).
  { intros es H Hes. destruct (IH _ H) as [Hin|[Hn [Hk|Hk]]].
    - destruct (Hes Hin) as [?|[Hn [Hk|Hk]]]; [now left|right..]; tauto.
    - right. tauto.
    - right. tauto. }
  destruct (strchr_slash (substr first (String.length path))) as [sl|] eqn:Hs.
  - destruct (String.eqb sl "/") eqn:He; cbn [negb].
    + apply String.eqb_eq in He. subst sl.
      destruct (strchr_split _ _ Hs) as [Hsplit Hnone].
      intro H. apply (Hstep _ H). intro Hin.
      apply emplace_keys_in in Hin. destruct Hin as [->|Hin]; [|now left].
      right. split; [assumption|]. right.
      rewrite Hfirst at 1. now rewrite <- Hsplit.
    + intro H. apply (Hstep _ H). now left.
  - intro H. apply (Hstep _ H). intro Hin.
    apply emplace_keys_in in Hin. destruct Hin as [->|Hin]; [|now left].
    right. split; [assumption|]. left. exact Hfirst.
Qed.

Lemma children_complete (path : string) (i : SMap.t zip_stat)
    (entries : DirEntries) (name : string) :
  SSet.sorted (SMap.keys i) ->
  (forall x, In x (SMap.keys i) -> Str.lt path x) ->
  strchr_slash name = None ->
  In (path ++ name)%string (SMap.keys i)
  \/ In (path ++ name ++ "/")%string (SMap.keys i) ->
  In name (SMap.keys (children path i entries)).
Proof.
  intros Hs Hlt Hname.
  assert (Hgen : forall K,
    K = (path ++ name)%string \/ K = (path ++ name ++ "/")%string ->
    In K (SMap.keys i) -> In name (SMap.keys (children path i entries))).
  { intros K HK. assert (HpK : hasPrefix K path = true).
    { destruct HK as [->| ->]; apply DumpFacts.hasPrefix_app. }
    revert entries Hs Hlt.
    induction i as [|[first sb] i IH]; intros entries Hs Hlt; simpl; [intros []|].
    destruct Hs as [Hfirst Hs].
    intros [Heq|Hin].
    - subst first. rewrite HpK.
      destruct HK as [->| ->]; rewrite substr_app.
      + rewrite Hname. apply children_mono. apply emplace_keys_in. now left.
      + pose proof (strchr_app_slash name "" Hname) as Hsl.
        cbn [append] in Hsl. rewrite Hsl.
        cbn [append String.eqb Ascii.eqb Bool.eqb negb].
        rewrite string_length_app. cbn [String.length].
        replace (String.length name + 1 - 1) with (String.length name) by lia.
        rewrite take_app.
        apply children_mono. apply emplace_keys_in. now left.
    - assert (Hp : hasPrefix first path = true).
      { apply (between_prefix path first K).
        - apply Hlt. now left.
        - now apply Hfirst.
        - exact HpK. }
      rewrite Hp.
      assert (Hlt' : forall x, In x (SMap.keys i) -> Str.lt path x)
        by (intros x Hx; apply Hlt; now right).
      destruct (strchr_slash (substr first (String.length path))) as [sl|].
      + destruct (String.eqb sl "/"); cbn [negb]; now apply IH.
      + now apply IH. }
  intros [H|H]; [apply (Hgen _ (or_introl eq_refl) H)
                |apply (Hgen _ (or_intror eq_refl) H)].
Qed.

Lemma children_values (path : string) (i : SMap.t zip_stat) (entries : DirEntries) :
  (forall e, In e entries -> snd e = None) ->
  forall e, In e (children path i entries) -> snd e = None.
Proof.
  revert entries. induction i as [|[first sb] i IH]; intros entries H; simpl;
    [assumption|].
  destruct (hasPrefix first path); [|assumption].
  assert (Hadd : forall n e, In e (fst (SMap.emplace n None entries)) -> snd e = None).
  { intros n e He. apply emplace_values in He. destruct He as [->|He]; auto. }
  destruct (strchr_slash (substr first (String.length path))) as [sl|].
  - destruct (String.eqb sl "/"); cbn [negb]; apply IH; auto. apply Hadd.
  - apply IH. apply Hadd.
Qed.

Lemma members_sorted (archive : list ZipEntry) :
  SSet.sorted (SMap.keys (members (makeZipInputAccessor archive))).
Proof. apply index_members_sorted. exact I. Qed.

(** X3: [readDirectory] lists the immediate children. Every name it
    returns is free of slashes and is a member of the archive under the
    directory, as a file or, with a slash added, as a directory; every
    non-empty name of this kind is returned, however the other members are
    ordered around it; members further down are left out; and no entry
    carries a type. *)
Theorem zip_readDirectory_children (archive : list ZipEntry)
    (_path path : Path) (entries : DirEntries) :
  canonPath _path = Ok path ->
  readDirectory (makeZipInputAccessor archive) _path = Ok entries ->
  let m := members (makeZipInputAccessor archive) in
  (forall name, In name (SMap.keys entries) ->
     strchr_slash name = None
     /\ (SMap.find (path ++ "/" ++ name) m <> None
         \/ SMap.find (path ++ "/" ++ name ++ "/") m <> None))
  /\ (forall name, strchr_slash name = None -> name <> ""%string ->
        SMap.find (path ++ "/" ++ name) m <> None
        \/ SMap.find (path ++ "/" ++ name ++ "/") m <> None ->
        In name (SMap.keys entries))
  /\ (forall e, In e entries -> snd e = None).
Proof.
  intros Hc. unfold readDirectory. rewrite Hc. cbn [rbind]. cbv zeta.
  destruct (after_key (path ++ "/") (members (makeZipInputAccessor archive)))
    as [i|] eqn:Ha; [|discriminate].
  intros H. injection H as <-.
  set (m := members (makeZipInputAccessor archive)) in *.
  destruct (after_key_spec _ _ _ (members_sorted archive) Ha) as [Hs [Hin Hafter]].
  assert (E1 : forall name, (path ++ "/" ++ name)%string
                            = ((path ++ "/") ++ name)%string)
    by (intro; now rewrite DumpFacts.append_assoc).
  assert (E2 : forall name, (path ++ "/" ++ name ++ "/")%string
                            = ((path ++ "/") ++ name ++ "/")%string)
    by (intro; now rewrite DumpFacts.append_assoc).
  split; [|split].
  - intros name Hname. apply children_sound in Hname.
    destruct Hname as [[]|[Hn Hk]]. split; [assumption|].
    rewrite !find_in_keys, E1, E2.
    destruct Hk as [Hk|Hk]; [left|right]; exact (proj2 (Hin _ Hk)).
  - intros name Hn Hne Hk. rewrite !find_in_keys, E1, E2 in Hk.
    apply children_complete; try assumption.
    + intros x Hx. exact (proj1 (Hin _ Hx)).
    + destruct Hk as [Hk|Hk]; [left|right]; apply Hafter; try assumption;
        (apply prefix_lt; [apply DumpFacts.hasPrefix_app|apply append_ne]).
      * assumption.
      * destruct name; [congruence|discriminate].
  - apply children_values. intros e [].
Qed.

Lemma find_members (archive : list ZipEntry) (k : string) :
  SMap.find k (members (makeZipInputAccessor archive)) = first_member k 0 archive.
Proof.
  unfold makeZipInputAccessor. cbn [members].
  now rewrite (find_index_members k 0 archive [] I).
Qed.

(** X4: a directory is listed only through its own entry. [readDirectory]
    looks the canonical path up with a slash added and answers "does not
    exist" unless some member's name, from its first slash on, is exactly
    that: a directory that the archive holds files of but no entry for
    cannot be listed, and neither can the root, whose key would be [//]. *)
Theorem zip_readDirectory_needs_entry (archive : list ZipEntry)
    (_path path : Path) :
  canonPath _path = Ok path ->
  match readDirectory (makeZipInputAccessor archive) _path with
  | Ok _ =>
      exists e, In e archive /\ strchr_slash (ze_name e) = Some (path ++ "/")%string
  | Err err =>
      err = DoesNotExist (path ++ "/")
      /\ forall e, In e archive ->
                   strchr_slash (ze_name e) <> Some (path ++ "/")%string
  end.
Proof.
  intros Hc. unfold readDirectory. rewrite Hc. cbn [rbind]. cbv zeta.
  destruct (after_key (path ++ "/") (members (makeZipInputAccessor archive)))
    as [i|] eqn:Ha.
  - destruct (first_member (path ++ "/") 0 archive) as [sb|] eqn:Hf.
    + destruct (first_member_some _ _ _ _ Hf) as [e [_ [Hn [Hk _]]]].
      exists e. split; [|assumption]. now apply nth_error_In in Hn.
    + rewrite <- find_members in Hf. apply after_key_none in Hf. congruence.
  - split; [reflexivity|].
    apply after_key_none in Ha. rewrite find_members in Ha.
    exact (proj1 (first_member_none _ _ _) Ha).
Qed.

Lemma zip_readDirectory_needs_entry_witness :
  readDirectory (makeZipInputAccessor nestedArchive) "/" = Err (DoesNotExist "//")
  /\ readDirectory (makeZipInputAccessor filesOnly) "/dir" = Err (DoesNotExist "/dir/").
Proof.
  pose proof (zip_readDirectory_needs_entry nestedArchive "/" "/" eq_refl) as H1.
  pose proof (zip_readDirectory_needs_entry filesOnly "/dir" "/dir" eq_refl) as H2.
  split.
  - destruct (readDirectory (makeZipInputAccessor nestedArchive) "/");
      [|now destruct H1 as [-> _]].
    vm_compute in H1. destruct H1 as [e [He Hk]].
    repeat (destruct He as [<-|He]; [discriminate|]). destruct He.
  - destruct (readDirectory (makeZipInputAccessor filesOnly) "/dir");
      [|now destruct H2 as [-> _]].
    vm_compute in H2. destruct H2 as [e [He Hk]].
    repeat (destruct He as [<-|He]; [discriminate|]). destruct He.
Defined.

(** X5: [readFile] returns a member whole or not at all. When it has a
    result, the canonical path is a key of the index as it stands (a
    directory's key ends in a slash, so a directory cannot be read),
    [pathExists] answers [true], and the result is the first bytes of the
    member's data, exactly as many as the index recorded: data that ends
    before that is an error, not a short read. *)
Theorem zip_readFile_whole_member (data : nat -> option string)
    (z : ZipInputAccessor) (_path : Path) (contents : string) :
  readFile data z _path = Ok contents ->
  exists path sb bytes,
    canonPath _path = Ok path
    /\ SMap.find path (members z) = Some sb
    /\ data (zs_index sb) = Some bytes
    /\ contents = take bytes (String.length contents)
    /\ Z.of_nat (String.length contents) = zs_size sb
    /\ pathExists z _path = Ok true.
Proof.
  unfold readFile, pathExists.
  destruct (canonPath _path) as [path|]; [|discriminate]. cbn [rbind].
  destruct (SMap.find path (members z)) as [sb|] eqn:Hf; [|discriminate].
  destruct (data (zs_index sb)) as [bytes|] eqn:Hd; [|discriminate]. cbv zeta.
  destruct (Z.eqb (Z.of_nat (String.length (take bytes (Z.to_nat (zs_size sb)))))
              (zs_size sb)) eqn:He; cbn [negb]; [|discriminate].
  intros [= <-]. apply Z.eqb_eq in He.
  exists path, sb, bytes. repeat split; try assumption; try reflexivity.
  f_equal. rewrite <- He at 1. now rewrite Nat2Z.id.
Qed.

Lemma zip_readFile_whole_member_witness :
  readFile (fun _ => Some "#!/bin/sh and more") (makeZipInputAccessor sampleArchive)
    "/dir/tool" = Ok "#!/b"
  /\ pathExists (makeZipInputAccessor sampleArchive) "/dir/tool" = Ok true.
Proof.
  split; [reflexivity|].
  destruct (zip_readFile_whole_member (fun _ => Some "#!/bin/sh and more")
              (makeZipInputAccessor sampleArchive) "/dir/tool" "#!/b" eq_refl)
    as [path [sb [bytes [_ [_ [_ [_ [_ H]]]]]]]].
  exact H.
Defined.

Lemma zip_readDirectory_children_witness :
  readDirectory (makeZipInputAccessor nestedArchive) "/dir"
  = Ok [("sub", None); ("tool", None)]
  /\ SMap.find "/dir/tool" (members (makeZipInputAccessor nestedArchive)) <> None.
Proof.
  split; [reflexivity|].
  destruct (zip_readDirectory_children nestedArchive "/dir" "/dir"
              [("sub", None); ("tool", None)] eq_refl eq_refl) as [Hs _].
  destruct (Hs "tool" (or_intror (or_introl eq_refl))) as [_ [H|H]].
  - exact H.
  - vm_compute in H. congruence.
Defined.

End ZipIndexFacts.

(** ** What [dumpPath] writes *)

Module NarFacts.

Import Accessor DumpSpec NarSpec StrFacts MapFacts PrefixFacts DumpFacts.

Local Open Scope nat_scope.

Lemma keeps_bind (I : DumpState -> Prop) {A B} (m : D A) (f : A -> D B) :
  keeps I m -> (forall a, keeps I (f a)) -> keeps I (dbind m f).
Proof.
  intros Hm Hf s Hs. unfold dbind. specialize (Hm s Hs).
  destruct (m s) as [[a|e] s']; simpl in *; [now apply Hf|assumption].
Qed.

Lemma keeps_quiet (I : DumpState -> Prop) {A} (m : D A) :
  (forall s, sink (snd (m s)) = sink s) ->
  (forall s s', sink s = sink s' -> I s -> I s') -> keeps I m.
Proof. intros H Hext s Hs. apply (Hext s); [now rewrite H|assumption]. Qed.

Lemma aligned_ext (s s' : DumpState) : sink s = sink s' -> aligned s -> aligned s'.
Proof. unfold aligned. now intros ->. Qed.

Lemma length_zeros (n : nat) : String.length (Sink.zeros n) = n.
Proof. induction n; simpl; [reflexivity|now rewrite IHn]. Qed.

Lemma length_u64 (n : N) : String.length (Sink.u64 n) = 8.
Proof. reflexivity. Qed.

Lemma padded_aligned (n : nat) :
  Nat.modulo (n + String.length (Sink.padding n)) 8 = 0.
Proof.
  unfold Sink.padding.
  pose proof (Nat.div_mod_eq n 8) as Hd.
  pose proof (Nat.mod_upper_bound n 8) as Hb.
  destruct (Nat.modulo n 8) as [|r] eqn:Hr.
  - simpl. rewrite Nat.add_0_r. exact Hr.
  - rewrite length_zeros.
    replace (n + (8 - S r)) with ((n / 8 + 1) * 8) by lia.
    apply Nat.Div0.mod_mul.
Qed.

Lemma length_str_aligned (s : string) : Nat.modulo (String.length (Sink.str s)) 8 = 0.
Proof.
  unfold Sink.str. rewrite !string_length_app, length_u64.
  pose proof (padded_aligned (String.length s)) as H.
  rewrite <- Nat.Div0.add_mod_idemp_r, H. reflexivity.
Qed.

Lemma aligned_app (a b : string) :
  Nat.modulo (String.length a) 8 = 0 -> Nat.modulo (String.length b) 8 = 0 ->
  Nat.modulo (String.length (a ++ b)) 8 = 0.
Proof.
  intros Ha Hb. rewrite string_length_app.
  rewrite Nat.Div0.add_mod, Ha, Hb. reflexivity.
Qed.

Lemma keeps_put_str s : keeps aligned (put_str s).
Proof. intros st H. unfold aligned in *. simpl. apply aligned_app; [assumption|apply length_str_aligned]. Qed.

Lemma keeps_put_u64 n : keeps aligned (put_u64 n).
Proof. intros st H. unfold aligned in *. simpl. apply aligned_app; [assumption|reflexivity]. Qed.

Lemma keeps_put_raw s : keeps aligned (put_raw_padded s).
Proof.
  intros st H. unfold aligned in *. simpl. apply aligned_app; [assumption|].
  rewrite string_length_app. apply padded_aligned.
Qed.

Lemma keeps_lift {A} c (r : Res A) : keeps aligned (lift c r).
Proof. intros st H. exact H. Qed.

Lemma keeps_ask filter p : keeps aligned (ask_filter filter p).
Proof. intros st H. exact H. Qed.

Lemma keeps_dret {A} (a : A) : keeps aligned (dret a).
Proof. intros st H. exact H. Qed.

Lemma keeps_dfail {A} e : keeps aligned (@dfail A e).
Proof. intros st H. exact H. Qed.

Lemma keeps_pure {A} (r : Res A) : keeps aligned (fun s => (r, s)).
Proof. intros st H. exact H. Qed.

Ltac keeps_step :=
  first [ apply keeps_put_str | apply keeps_put_u64 | apply keeps_put_raw
        | apply keeps_lift | apply keeps_ask | apply keeps_dret
        | apply keeps_dfail | apply keeps_pure
        | apply keeps_bind; [|intro] ].

Lemma dump_keeps_aligned (acc : InputAccessor) (filter : Path -> bool) (fuel : nat) :
  forall path, keeps aligned (dump fuel acc filter path).
Proof.
  induction fuel as [|fuel IH]; intro path; [apply keeps_dfail|].
  cbn [dump].
  apply keeps_bind; [apply keeps_lift|intro st].
  apply keeps_bind; [apply keeps_put_str|intros _].
  apply keeps_bind; [|intros _; apply keeps_put_str].
  destruct (type st).
  - repeat keeps_step. unfold dumpContents. destruct (isExecutable st); repeat keeps_step.
  - repeat keeps_step.
  - apply keeps_bind; [apply keeps_put_str|intros _].
    apply keeps_bind; [apply keeps_put_str|intros _].
    apply keeps_bind; [apply keeps_lift|intro entries].
    apply keeps_bind; [apply keeps_pure|intro unhacked].
    induction unhacked as [|[first second] rest IHrest].
    + apply keeps_dret.
    + apply keeps_bind; [apply keeps_ask|intro keep].
      apply keeps_bind; [|intros _; exact IHrest].
      destruct keep; [|apply keeps_dret].
      do 5 (apply keeps_bind; [apply keeps_put_str|intros _]).
      apply keeps_bind; [apply IH|intros _; apply keeps_put_str].
  - apply keeps_dfail.
Qed.

(** X6: whatever the accessor answers and however the run ends (done,
    failed or out of fuel), what [dumpPath] has written to the sink is a
    whole number of 8-byte words: every string and every file's contents
    is padded to the next multiple of eight. *)
Theorem dumpPath_aligned (fuel : nat) (acc : InputAccessor) (path : Path)
    (filter : Path -> bool) :
  Nat.modulo (String.length (sink (snd (dumpPath fuel acc path filter)))) 8 = 0.
Proof.
  unfold dumpPath.
  apply (keeps_bind aligned (put_str narVersionMagic1)
           (fun _ => dump fuel acc filter path)).
  - apply keeps_put_str.
  - intros _. apply dump_keeps_aligned.
  - reflexivity.
Qed.

Lemma append_nil_r (s : string) : (s ++ "")%string = s.
Proof. induction s; simpl; [reflexivity|now rewrite IHs]. Qed.

Lemma yields_bind {A B} (a : A) (b : B) (o1 o2 : string) (m : D A) (f : A -> D B) :
  yields a o1 m -> yields b o2 (f a) -> yields b (o1 ++ o2) (dbind m f).
Proof.
  intros Hm Hf s. unfold dbind. destruct (Hm s) as [H1 H2].
  destruct (m s) as [r s']. simpl in *. subst r.
  destruct (Hf s') as [H3 H4]. rewrite H3, H4, H2.
  split; [reflexivity|apply append_assoc].
Qed.

Lemma yields_eq {A} (a : A) (o o' : string) (m : D A) :
  yields a o m -> o = o' -> yields a o' m.
Proof. now intros H <-. Qed.

Lemma yields_bind_quiet {A B} (a : A) (b : B) (o : string) (m : D A) (f : A -> D B) :
  yields a "" m -> yields b o (f a) -> yields b o (dbind m f).
Proof. intros Hm Hf. apply (yields_bind a b "" o m f Hm Hf). Qed.

Lemma yields_put_str s : yields tt (Sink.str s) (put_str s).
Proof. intro st. split; reflexivity. Qed.

Lemma yields_put_u64 n : yields tt (Sink.u64 n) (put_u64 n).
Proof. intro st. split; reflexivity. Qed.

Lemma yields_put_raw s :
  yields tt (s ++ Sink.padding (String.length s)) (put_raw_padded s).
Proof. intro st. split; reflexivity. Qed.

Lemma yields_lift {A} c (r : Res A) (a : A) : r = Ok a -> yields a "" (lift c r).
Proof. intros -> st. split; [reflexivity|]. simpl. now rewrite append_nil_r. Qed.

Lemma yields_ask filter p : yields (filter p) "" (ask_filter filter p).
Proof. intro st. split; [reflexivity|]. simpl. now rewrite append_nil_r. Qed.

Lemma yields_dret {A} (a : A) : yields a "" (dret a).
Proof. intro st. split; [reflexivity|]. simpl. now rewrite append_nil_r. Qed.

Lemma yields_pure {A} (a : A) : yields a "" (fun s => (Ok a, s)).
Proof. intro st. split; [reflexivity|]. simpl. now rewrite append_nil_r. Qed.

Lemma same_value_map (m : SMap.t string) :
  Forall (fun e => fst e = snd e) m -> m = map (fun n => (n, n)) (SMap.keys m).
Proof.
  induction 1 as [|[k v] m Hk _ IH]; simpl; [reflexivity|].
  simpl in Hk. subst v. now rewrite <- IH.
Qed.

Lemma dump_yields_nar (acc : InputAccessor) (filter : Path -> bool) (fuel : nat) :
  forall path t,
    depth t <= fuel -> holds acc filter path t ->
    yields tt (nar filter path t) (dump fuel acc filter path).
Proof.
  induction fuel as [|fuel IH]; intros path t Hd Hh.
  { destruct t; simpl in Hd; lia. }
  destruct t as [x contents|target|f]; cbn [dump holds nar depth] in *.
  - destruct Hh as [Hl Hr].
    eapply yields_bind_quiet; [apply yields_lift; exact Hl|]. cbn [type isExecutable].
    eapply yields_bind; [apply yields_put_str|].
    eapply yields_eq.
    + eapply yields_bind; [|apply yields_put_str].
      eapply yields_bind; [apply yields_put_str|].
      eapply yields_bind; [apply yields_put_str|].
      eapply yields_bind.
      { instantiate (1 := if x then (Sink.str "executable" ++ Sink.str "")%string else ""%string).
        destruct x.
        - eapply yields_bind; apply yields_put_str.
        - apply yields_dret. }
      unfold dumpContents.
      eapply yields_bind_quiet; [apply yields_lift; exact Hr|].
      eapply yields_bind; [apply yields_put_str|].
      eapply yields_bind; [apply yields_put_u64|].
      apply yields_put_raw.
    + now rewrite !append_assoc.
  - destruct Hh as [[x Hl] Hr].
    eapply yields_bind_quiet; [apply yields_lift; exact Hl|]. cbn [type isExecutable].
    eapply yields_bind; [apply yields_put_str|].
    eapply yields_eq.
    + eapply yields_bind; [|apply yields_put_str].
      eapply yields_bind; [apply yields_put_str|].
      eapply yields_bind; [apply yields_put_str|].
      eapply yields_bind; [apply yields_put_str|].
      eapply yields_bind_quiet; [apply yields_lift; exact Hr|].
      apply yields_put_str.
    + now rewrite !append_assoc.
  - destruct Hh as [[x Hl] [[entries [Hr Hk]] Hc]].
    eapply yields_bind_quiet; [apply yields_lift; exact Hl|]. cbn [type isExecutable].
    eapply yields_bind; [apply yields_put_str|].
    eapply yields_eq.
    + eapply yields_bind; [|apply yields_put_str].
      eapply yields_bind; [apply yields_put_str|].
      eapply yields_bind; [apply yields_put_str|].
      eapply yields_bind_quiet; [apply yields_lift; exact Hr|].
      rewrite collect_collected.
      eapply yields_bind_quiet; [apply yields_pure|].
      rewrite (same_value_map _ (collected_same_value entries [] (Forall_nil _))).
      rewrite Hk. clear Hk Hr Hl entries.
      assert (Hdc : depth_children f <= fuel) by lia. clear Hd.
      instantiate (1 := nar_children filter path f).
      induction f as [|name node rest IHrest]; cbn [names map nar_children].
      * apply yields_dret.
      * cbn [holds_children depth_children] in Hc, Hdc. destruct Hc as [Hnode Hrest].
        eapply yields_bind_quiet; [apply yields_ask|].
        eapply yields_bind; [|apply IHrest; [assumption|lia]].
        destruct (filter (path ++ "/" ++ name)) eqn:Hkeep; [|apply yields_dret].
        do 5 (eapply yields_bind; [apply yields_put_str|]).
        eapply yields_bind; [|apply yields_put_str].
        apply IH; [lia|now apply Hnode].
    + now rewrite !append_assoc.
Qed.

(** X7: [dumpPath] writes the serialisation of the tree. If the accessor
    shows the tree [t] at [path] and the fuel reaches the depth of [t],
    [dumpPath] succeeds and the sink holds the magic string followed by
    [nar filter path t]: the node in parentheses, a directory's children in
    the ascending order of their names, each once, those that the filter
    refuses left out together with everything below them. *)
Theorem dumpPath_writes_nar (acc : InputAccessor) (filter : Path -> bool)
    (fuel : nat) (path : Path) (t : Tree) :
  holds acc filter path t ->
  depth t <= fuel ->
  fst (dumpPath fuel acc path filter) = Ok tt
  /\ sink (snd (dumpPath fuel acc path filter))
     = (Sink.str narVersionMagic1 ++ nar filter path t)%string.
Proof.
  intros Hh Hd. unfold dumpPath.
  exact (yields_bind tt tt _ _ (put_str narVersionMagic1)
           (fun _ => dump fuel acc filter path)
           (yields_put_str _) (dump_yields_nar acc filter fuel path t Hd Hh)
           (mkDump "" [])).
Qed.

Lemma dumpPath_writes_nar_witness :
  fst (dumpPath 3
         (FS.accessor (sampleHost [FS.mkEntry "b" FS.DT_DIR; FS.mkEntry "a" FS.DT_REG])
            (FS.mkFS "/R" None)) "/" (fun _ => true)) = Ok tt
  /\ sink (snd (dumpPath 3
         (FS.accessor (sampleHost [FS.mkEntry "b" FS.DT_DIR; FS.mkEntry "a" FS.DT_REG])
            (FS.mkFS "/R" None)) "/" (fun _ => true)))
     = (Sink.str narVersionMagic1 ++ nar (fun _ => true) "/" sampleTree)%string.
Proof.
  apply dumpPath_writes_nar.
  - cbn [holds holds_children sampleTree]. repeat split; try reflexivity.
    + exists false. reflexivity.
    + eexists. split; reflexivity.
    + exists false. reflexivity.
    + eexists. split; reflexivity.
  - simpl. lia.
Defined.

End NarFacts.

(** ** The listings of the filesystem-backed accessor *)

Module FSListingFacts.

Import Accessor FS FSSpec FSListingSpec StrFacts MapFacts PrefixFacts DumpSpec
  DumpFacts FSFacts.

Lemma split_slash_free (cur k : string) :
  strchr_slash k = None -> split_slash cur k = [(cur ++ k)%string].
Proof.
  revert cur. induction k as [|c k IH]; intros cur; simpl.
  - intros _. now rewrite NarFacts.append_nil_r.
  - destruct (Ascii.eqb c slash); [discriminate|]. intro H.
    rewrite (IH _ H). now rewrite append_assoc.
Qed.

Lemma split_slash_child (cur x k : string) :
  strchr_slash k = None ->
  split_slash cur (x ++ "/" ++ k) = (split_slash cur x ++ [k])%list.
Proof.
  intro Hk. revert cur. induction x as [|c x IH]; intro cur; simpl.
  - now rewrite (split_slash_free "" k Hk).
  - destruct (Ascii.eqb c slash); simpl; now rewrite IH.
Qed.

Lemma concat_snoc (l : list string) (x : string) :
  String.concat "" (l ++ [x]) = (String.concat "" l ++ x)%string.
Proof.
  induction l as [|a l IH]; simpl; [reflexivity|].
  destruct l as [|b l].
  - simpl. reflexivity.
  - change ((b :: l) ++ [x])%list with (b :: (l ++ [x]))%list in *.
    cbn [app]. rewrite IH. now rewrite append_assoc.
Qed.

Lemma join_child (cs : list string) (k : string) :
  cs <> [] ->
  join_components (cs ++ [k]) = (join_components cs ++ "/" ++ k)%string.
Proof.
  intro Hne. destruct cs as [|c cs]; [contradiction|].
  change (join_components ((c :: cs) ++ [k]))
    with (String.concat "" (map (fun c => String slash c) ((c :: cs) ++ [k]))).
  change (join_components (c :: cs))
    with (String.concat "" (map (fun c => String slash c) (c :: cs))).
  rewrite map_app. cbn [map]. now rewrite concat_snoc.
Qed.

Lemma canon_components_child (x k : string) :
  plain k ->
  fold_left canon_step (split_slash "" (x ++ "/" ++ k)) []
  = (fold_left canon_step (split_slash "" x) [] ++ [k])%list.
Proof.
  intros [Hk [H1 [H2 H3]]].
  rewrite (split_slash_child "" x k Hk).
  rewrite fold_left_app. cbn [fold_left].
  unfold canon_step at 1.
  now rewrite (proj2 (String.eqb_neq k "") H1), (proj2 (String.eqb_neq k ".") H2),
    (proj2 (String.eqb_neq k "..") H3).
Qed.

Lemma canonPath_child (x ax k : string) :
  canonPath x = Ok ax -> ax <> "/" -> plain k ->
  canonPath (x ++ "/" ++ k) = Ok (ax ++ "/" ++ k)%string.
Proof.
  intros Hx Hax Hk.
  destruct x as [|c x]; [discriminate|].
  change (String c x ++ "/" ++ k)%string with (String c (x ++ "/" ++ k)).
  unfold canonPath in *.
  destruct (Ascii.eqb c slash); [|discriminate].
  change (String c (x ++ "/" ++ k)) with (String c x ++ "/" ++ k)%string.
  rewrite (canon_components_child (String c x) k Hk).
  rewrite join_child; [congruence|].
  intro Hnil. rewrite Hnil in Hx. cbn [join_components] in Hx. congruence.
Qed.

Lemma listAllowed_values (a : FSInputAccessor) (absPath : Path)
    (l : list HostDirEntry) (m : DirEntries) (x : string * option Type_) :
  In x (listAllowed a absPath l m) ->
  In x m \/ exists e, In e l /\ name e = fst x /\ snd x = entryType (d_type e).
Proof.
  revert m. induction l as [|e l IH]; intro m; cbn [listAllowed]; [now left|].
  destruct (isAllowed a (absPath ++ "/" ++ name e)); intro H; apply IH in H.
  - destruct H as [H|[e' [Hin H]]].
    + apply emplace_values in H. destruct H as [->|H]; [|now left].
      right. exists e. simpl. auto.
    + right. exists e'. simpl. auto.
  - destruct H as [H|[e' [Hin H]]]; [now left|].
    right. exists e'. simpl. auto.
Qed.

(** X8: what [readDirectory] lists. When it has a result, the directory
    itself passed the access check, the names come out in ascending order,
    a name is listed exactly when the host lists an entry of this name and
    the entry's path passes the access check (an entry outside the
    allow-list is hidden, not an error), and the type attached to a name
    is read off the [d_type] of a host entry of this name. *)
Theorem fs_readDirectory_listing (host : HostFS) (a : FSInputAccessor)
    (path : Path) (entries : DirEntries) :
  readDirectory host a path = Ok entries ->
  exists absPath l,
    makeAbsPath a path = Ok absPath
    /\ isAllowed a absPath = true
    /\ h_readDirectory host absPath = Some l
    /\ SSet.sorted (SMap.keys entries)
    /\ (forall k, In k (SMap.keys entries) <->
                  exists e, In e l /\ name e = k
                            /\ isAllowed a (absPath ++ "/" ++ k) = true)
    /\ (forall k t, In (k, t) entries ->
                    exists e, In e l /\ name e = k /\ t = entryType (d_type e)).
Proof.
  unfold readDirectory, checkAllowed.
  destruct (makeAbsPath a path) as [absPath|] eqn:Habs; [|discriminate].
  cbn [rbind].
  destruct (isAllowed a absPath) eqn:Hal; cbn [negb rbind]; [|discriminate].
  destruct (h_readDirectory host absPath) as [l|] eqn:Hl; [|discriminate].
  cbn [of_option rbind]. intros [= <-].
  exists absPath, l. repeat split; try assumption.
  - apply listAllowed_sorted. exact I.
  - intro H. apply listAllowed_keys_in in H. destruct H as [[]|[e [Hin [Hn Ha]]]].
    exists e. subst k. auto.
  - intros [e [Hin [Hn Ha]]]. apply listAllowed_keys_in. right.
    exists e. subst k. auto.
  - intros k t H. apply listAllowed_values in H.
    destruct H as [[]|[e [Hin [Hn Ht]]]]. exists e. auto.
Qed.

(** X9: what is listed can be visited. For a directory whose absolute
    path is not [/] and a listed name that is a plain component (no slash,
    not empty, not [.] or [..]), the path that [dumpPath] descends to, the
    directory's path with a slash and the name added, canonicalises to
    the very path that the listing checked: [readFile] of it is the
    host's and [lstat] of it is never "access not allowed". *)
Theorem fs_listed_child_accessible (host : HostFS) (a : FSInputAccessor)
    (path absPath : Path) (entries : DirEntries) (k : string) :
  readDirectory host a path = Ok entries ->
  In k (SMap.keys entries) ->
  makeAbsPath a path = Ok absPath ->
  absPath <> "/" ->
  strchr_slash k = None /\ k <> "" /\ k <> "." /\ k <> ".." ->
  makeAbsPath a (path ++ "/" ++ k) = Ok (absPath ++ "/" ++ k)%string
  /\ isAllowed a (absPath ++ "/" ++ k) = true
  /\ readFile host a (path ++ "/" ++ k)
     = of_option (SysError "readFile" (absPath ++ "/" ++ k))
         (h_readFile host (absPath ++ "/" ++ k))
  /\ (forall p, lstat host a (path ++ "/" ++ k) <> Err (AccessNotAllowed p)).
Proof.
  intros Hr Hk Habs Hne Hplain.
  assert (Hchild : makeAbsPath a (path ++ "/" ++ k) = Ok (absPath ++ "/" ++ k)%string).
  { unfold makeAbsPath, assert in *.
    destruct (hasPrefix path "/") eqn:Hp; [|discriminate].
    assert (Hp' : hasPrefix (path ++ "/" ++ k) "/" = true)
      by (destruct path; [discriminate|exact Hp]).
    rewrite Hp'. cbn [rbind] in *.
    rewrite <- append_assoc. now apply canonPath_child. }
  assert (Hal : isAllowed a (absPath ++ "/" ++ k) = true).
  { unfold readDirectory, checkAllowed in Hr. rewrite Habs in Hr. cbn [rbind] in Hr.
    destruct (isAllowed a absPath); cbn [negb rbind] in Hr; [|discriminate].
    destruct (h_readDirectory host absPath) as [l|]; [|discriminate].
    cbn [of_option rbind] in Hr. injection Hr as <-.
    apply listAllowed_keys_in in Hk. destruct Hk as [[]|[e [_ [<- Ha]]]].
    exact Ha. }
  split; [assumption|]. split; [assumption|].
  unfold readFile, lstat, checkAllowed. rewrite Hchild. cbn [rbind].
  rewrite Hal. cbn [negb rbind].
  split; [reflexivity|].
  intro p. destruct (h_lstat host (absPath ++ "/" ++ k)); cbn; discriminate.
Qed.

Lemma fs_listed_child_accessible_witness :
  readDirectory (sampleHost [mkEntry "b" DT_DIR; mkEntry "a" DT_REG])
    (mkFS "/R" (Some ["a"])) "/" = Ok [("a", Some tRegular)]
  /\ readFile (sampleHost [mkEntry "b" DT_DIR; mkEntry "a" DT_REG])
       (mkFS "/R" (Some ["a"])) "//a" = Ok "hello".
Proof.
  split; [reflexivity|].
  destruct (fs_listed_child_accessible
              (sampleHost [mkEntry "b" DT_DIR; mkEntry "a" DT_REG])
              (mkFS "/R" (Some ["a"])) "/" "/R" [("a", Some tRegular)] "a"
              eq_refl (or_introl eq_refl) eq_refl)
    as [_ [_ [H _]]].
  - discriminate.
  - repeat split; discriminate.
  - exact H.
Defined.

Lemma fs_readDirectory_listing_witness :
  exists absPath l,
    makeAbsPath (mkFS "/R" (Some ["a"])) "/" = Ok absPath
    /\ h_readDirectory (sampleHost [mkEntry "b" DT_DIR; mkEntry "a" DT_REG]) absPath
       = Some l
    /\ SSet.sorted (SMap.keys [("a", Some tRegular)]).
Proof.
  destruct (fs_readDirectory_listing
              (sampleHost [mkEntry "b" DT_DIR; mkEntry "a" DT_REG])
              (mkFS "/R" (Some ["a"])) "/" [("a", Some tRegular)] eq_refl)
    as [absPath [l [H1 [_ [H2 [H3 _]]]]]].
  exists absPath, l. auto.
Defined.

End FSListingFacts.

(** ** The inputs of the Git scheme *)

Module GitSchemeFacts.

Import Fetchers Git GitScheme Fixture GitSpec GitSchemeSpec StrFacts MapFacts
  PrefixFacts GitFacts.

Section WithEnv.

Variable E : Env.

Lemma getRepoInfo_inv (input : Input) (w w' : World) (r : RepoInfo)
    (evs : list Event) :
  getRepoInfo E input w = (Ok r, w', evs) ->
  exists sh sm ar s u ref,
    maybeGetBoolAttr (attrs input) "shallow" = Ok sh
    /\ maybeGetBoolAttr (attrs input) "submodules" = Ok sm
    /\ maybeGetBoolAttr (attrs input) "allRefs" = Ok ar
    /\ getStrAttr (attrs input) "url" = Ok s
    /\ parseURL E s = Some u
    /\ getRef input = Ok ref
    /\ shallow r = value_or false sh
    /\ submodules r = value_or false sm
    /\ allRefs r = value_or false ar
    /\ cacheType r
       = "git" ++ (if shallow r then "-shallow" else "")
               ++ (if submodules r then "-submodules" else "")
               ++ (if allRefs r then "-all-refs" else "")
    /\ url r = (if isLocal r then path u else base u)
    /\ (isLocal r = true -> scheme u = "file" /\ forceHttp E = false)
    /\ (isDirty r = true \/ hasCommits r = false ->
        isLocal r = true /\ ref = None /\ getRev E input = Ok None)
    /\ (hasCommits r = false -> isDirty r = true)
    /\ (ref <> None \/ (exists rev, getRev E input = Ok (Some rev))
        \/ isLocal r = false ->
        w' = w /\ Forall (fun e => is_git e = false) evs).
Proof.
  unfold getRepoInfo. intro H.
  apply bind_ok in H. destruct H as (sh & ? & ? & ? & H1 & H & ->).
  apply liftR_ok in H1. destruct H1 as (Hsh & -> & ->).
  apply bind_ok in H. destruct H as (sm & ? & ? & ? & H1 & H & ->).
  apply liftR_ok in H1. destruct H1 as (Hsm & -> & ->).
  apply bind_ok in H. destruct H as (ar & ? & ? & ? & H1 & H & ->).
  apply liftR_ok in H1. destruct H1 as (Har & -> & ->).
  apply bind_ok in H. destruct H as (s & ? & ? & ? & H1 & H & ->).
  apply liftR_ok in H1. destruct H1 as (Hs & -> & ->).
  apply bind_ok in H. destruct H as (u & ? & ? & ? & H1 & H & ->).
  apply liftR_ok in H1. destruct H1 as (Hu & -> & ->).
  apply bind_ok in H. destruct H as (isBare & w1 & e1 & ? & Hbare & H & ->).
  assert (Hb : w1 = w /\ Forall (fun e => is_git e = false) e1
               /\ (String.eqb (scheme u) "file" = false -> isBare = false)).
  { destruct (String.eqb (scheme u) "file").
    - apply bind_ok in Hbare. destruct Hbare as (? & ? & ? & ? & H1 & H2 & ->).
      apply ret_ok in H2. destruct H2 as (_ & -> & ->).
      unfold pathExists in H1. injection H1 as _ <- <-.
      repeat split; [|discriminate]. repeat constructor.
    - apply ret_ok in Hbare. destruct Hbare as (<- & -> & ->). auto. }
  destruct Hb as (-> & He1 & Hbare').
  apply bind_ok in H. destruct H as (ref & ? & ? & ? & H1 & H & ->).
  apply liftR_ok in H1. destruct H1 as (Href & -> & ->).
  apply bind_ok in H. destruct H as (wt & w2 & e2 & e3 & Hwt & H & ->).
  set (isLocal_ := String.eqb (scheme u) "file" && negb (forceHttp E)
                   && negb isBare) in *.
  assert (Hw : w2 = w /\ e2 = []
               /\ (wt = true ->
                   ref = None /\ getRev E input = Ok None /\ isLocal_ = true)
               /\ (wt = false ->
                   ~ (ref = None /\ getRev E input = Ok None /\ isLocal_ = true))).
  { destruct ref as [ref|].
    - apply ret_ok in Hwt. destruct Hwt as (<- & -> & ->).
      split; [reflexivity|]. split; [reflexivity|]. split; [discriminate|].
      intros _ [? _]. discriminate.
    - apply bind_ok in Hwt. destruct Hwt as (rev & ? & ? & ? & H1 & H2 & ->).
      apply liftR_ok in H1. destruct H1 as (Hrev & -> & ->).
      apply ret_ok in H2. destruct H2 as (<- & -> & ->).
      destruct rev as [rev|].
      + split; [reflexivity|]. split; [reflexivity|]. split; [discriminate|].
        intros _ [_ [? _]]. congruence.
      + split; [reflexivity|]. split; [reflexivity|]. split; [now auto|].
        intros Hf (_ & _ & Ht). congruence. }
  destruct Hw as (-> & -> & Hwt1 & Hwt0).
  assert (Hlocal : isLocal_ = true -> scheme u = "file" /\ forceHttp E = false).
  { unfold isLocal_. intro Hl.
    apply andb_prop in Hl. destruct Hl as [Hl _].
    apply andb_prop in Hl. destruct Hl as [Hf Hh].
    apply String.eqb_eq in Hf. now destruct (forceHttp E). }
  exists sh, sm, ar, s, u, ref.
  destruct (parseURL E s) as [u0|] eqn:Hp; [|discriminate].
  simpl in Hu. injection Hu as ->.
  destruct wt.
  - destruct (Hwt1 eq_refl) as (-> & Hrev & Hl).
    apply bind_ok in H. destruct H as (out & ? & ? & ? & _ & H & ->).
    apply bind_ok in H. destruct H as (heads & ? & ? & ? & _ & H & ->).
    apply bind_ok in H. destruct H as (dirty & ? & ? & ? & Hd & H & ->).
    apply ret_ok in H. destruct H as (<- & -> & ->).
    cbn [shallow submodules allRefs cacheType url isLocal isDirty hasCommits].
    repeat match goal with |- _ /\ _ => split end;
      try assumption; try reflexivity; try (now apply Hlocal).
    + intros _. auto.
    + intro Hh. destruct heads; [|discriminate].
      unfold try_catch, ret in Hd. now injection Hd as <- _ _.
    + intros [?|[[rev ?]|?]]; congruence.
  - apply ret_ok in H. destruct H as (<- & -> & ->).
    cbn [shallow submodules allRefs cacheType url isLocal isDirty hasCommits].
    rewrite !app_nil_r.
    repeat match goal with |- _ /\ _ => split end;
      try assumption; try reflexivity; try discriminate;
      try (now apply Hlocal).
    + intros [?|?]; discriminate.
    + intros _. auto.
Qed.


Lemma makeResult_inv _input repoInfo input info sp res :
  makeResult E _input repoInfo input info sp = Ok res ->
  exists rev lm,
    getRev E input = Ok (Some rev)
    /\ (getRev E _input = Ok None \/ getRev E _input = Ok (Some rev))
    /\ fst res = sp
    /\ SMap.find "lastModified" (attrs (snd res)) = Some (AInt lm)
    /\ (shallow repoInfo = false ->
        exists n, SMap.find "revCount" (attrs (snd res)) = Some (AInt n))
    /\ (forall k, k <> "revCount" -> k <> "lastModified" ->
                  SMap.find k (attrs (snd res)) = SMap.find k (attrs input)).
Proof.
  intro H. pose proof (fun k => makeResult_attrs E _ _ _ _ _ _ k H) as Hat.
  revert H. unfold makeResult, rbind, assert.
  destruct (getRev E input) as [[rev|]|]; try discriminate.
  destruct (getRev E _input) as [[rev0|]|] eqn:Hr0; try discriminate.
  - destruct (opt_eqb (Some rev0) (Some rev)) eqn:He; [|discriminate].
    simpl in He. apply String.eqb_eq in He. subst rev0.
    destruct (shallow repoInfo); cbn [negb].
    + destruct (getIntAttr info "lastModified") as [lm|]; [|discriminate].
      intros [= <-]. exists rev, lm. cbn [fst snd set_attr attrs].
      rewrite find_insert_same.
      repeat match goal with |- _ /\ _ => split end; auto. discriminate.
    + destruct (getIntAttr info "revCount") as [n|]; [|discriminate].
      destruct (getIntAttr info "lastModified") as [lm|]; [|discriminate].
      intros [= <-]. exists rev, lm. cbn [fst snd set_attr attrs].
      rewrite find_insert_same.
      repeat match goal with |- _ /\ _ => split end; auto.
      intros _. exists n. rewrite find_insert_other by discriminate.
      apply find_insert_same.
  - destruct (shallow repoInfo); cbn [negb].
    + destruct (getIntAttr info "lastModified") as [lm|]; [|discriminate].
      intros [= <-]. exists rev, lm. cbn [fst snd set_attr attrs].
      rewrite find_insert_same.
      repeat match goal with |- _ /\ _ => split end; auto. discriminate.
    + destruct (getIntAttr info "revCount") as [n|]; [|discriminate].
      destruct (getIntAttr info "lastModified") as [lm|]; [|discriminate].
      intros [= <-]. exists rev, lm. cbn [fst snd set_attr attrs].
      rewrite find_insert_same.
      repeat match goal with |- _ /\ _ => split end; auto.
      intros _. exists n. rewrite find_insert_other by discriminate.
      apply find_insert_same.
Qed.

Lemma resolved_from_refl (input : Input) : resolved_from input input.
Proof. split; auto. Qed.

Lemma resolved_from_rev (_input input : Input) (v : Attr) :
  resolved_from _input input -> resolved_from _input (set_attr input "rev" v).
Proof.
  intros [H1 H2]. split.
  - intros k Hk1 Hk2. cbn [set_attr attrs].
    rewrite find_insert_other by assumption. now apply H1.
  - cbn [set_attr attrs]. rewrite find_insert_other by discriminate. exact H2.
Qed.

Lemma resolved_from_ext (_input input input' : Input) :
  resolved_from _input input ->
  (forall k, k <> "rev" -> SMap.find k (attrs input') = SMap.find k (attrs input)) ->
  resolved_from _input input'.
Proof.
  intros [H1 H2] H. split.
  - intros k Hk1 Hk2. rewrite H by assumption. now apply H1.
  - rewrite H by discriminate. exact H2.
Qed.

Lemma defaultRef_resolved repoInfo input w input1 w1 e1 :
  defaultRef E repoInfo input w = (Ok input1, w1, e1) ->
  resolved_from input input1.
Proof.
  unfold defaultRef. intro H.
  apply bind_ok in H. destruct H as (ref & ? & ? & ? & H1 & H & ->).
  apply liftR_ok in H1. destruct H1 as (Href & -> & ->).
  destruct ref as [ref|].
  - apply ret_ok in H. destruct H as (<- & _). apply resolved_from_refl.
  - apply bind_ok in H. destruct H as (r & ? & ? & ? & _ & H & ->).
    apply ret_ok in H. destruct H as (<- & _). split.
    + intros k Hk1 Hk2. cbn [set_attr attrs]. now apply find_insert_other.
    + right. split; [assumption|]. exists r. cbn [set_attr attrs].
      apply find_insert_same.
Qed.

(** A successful [fetch] ends in the dirty-tree branch or in [makeResult]. *)
Lemma fetch_shape (_input : Input) (w w' : World) (res : StorePath * Input)
    (evs : list Event) :
  fetch E _input w = (Ok res, w', evs) ->
  exists repoInfo w1 e1,
    getRepoInfo E _input w = (Ok repoInfo, w1, e1)
    /\ ((isDirty repoInfo = true
         /\ allowDirty E = true
         /\ exists n, snd res = set_attr _input "lastModified" (AInt n))
        \/ (exists input info sp,
              makeResult E _input repoInfo input info sp = Ok res
              /\ resolved_from _input input)).
Proof.
  unfold fetch. intro H.
  apply bind_ok in H. destruct H as (repoInfo & w1 & e1 & ? & Hinfo & H & ->).
  exists repoInfo, w1, e1. split; [assumption|].
  apply bind_ok in H. destruct H as (name & ? & ? & ? & H1 & H & ->).
  apply liftR_ok in H1. destruct H1 as (Hname & -> & ->).
  apply bind_ok in H. destruct H as (pinned & w2 & e2 & ? & Hpin & H & ->).
  destruct pinned as [[info sp]|].
  { apply liftR_ok in H. destruct H as (H & _).
    right. exists _input, info, sp. split; [assumption|apply resolved_from_refl]. }
  destruct (isDirty repoInfo) eqn:Hdirty.
  { left. split; [reflexivity|].
    unfold fetchDirty in H.
    apply bind_ok in H. destruct H as (? & ? & ? & ? & Hcd & H & ->).
    assert (Had : allowDirty E = true).
    { unfold checkDirty in Hcd. rewrite Hdirty in Hcd.
      destruct (allowDirty E); [reflexivity|discriminate]. }
    split; [assumption|].
    do 4 (apply bind_ok in H; destruct H as (? & ? & ? & ? & _ & H & ->)).
    apply ret_ok in H. destruct H as (<- & _). cbn [snd]. eauto. }
  right.
  apply bind_ok in H. destruct H as (input1 & w3 & e3 & ? & Hdef & H & ->).
  pose proof (defaultRef_resolved _ _ _ _ _ _ Hdef) as Hres1.
  apply bind_ok in H. destruct H as (ref & ? & ? & ? & H1 & H & ->).
  apply liftR_ok in H1. destruct H1 as (Href & -> & ->).
  apply bind_ok in H. destruct H as (resolution & w4 & e4 & ? & Hres & H & ->).
  destruct resolution as [result|repoDir input2].
  - apply ret_ok in H. destruct H as (<- & _).
    destruct (isLocal repoInfo).
    + unfold resolveLocal in Hres.
      do 2 (apply bind_ok in Hres; destruct Hres as (? & ? & ? & ? & _ & Hres & _)).
      apply ret_ok in Hres. destruct Hres as (Hres & _). discriminate.
    + unfold resolveRemote in Hres.
      apply bind_ok in Hres. destruct Hres as (hit & ? & ? & ? & Hhit & Hres & _).
      destruct hit as [result'|].
      * apply ret_ok in Hres. destruct Hres as (Hres & _). injection Hres as ->.
        unfold lookupMutable in Hhit.
        apply bind_ok in Hhit. destruct Hhit as ([[info sp]|] & ? & ? & ? & _ & Hhit & _).
        -- do 3 (apply bind_ok in Hhit;
                 destruct Hhit as (? & ? & ? & ? & _ & Hhit & _)).
           match type of Hhit with
           | (if ?c then _ else _) _ = _ => destruct c
           end.
           ++ apply bind_ok in Hhit. destruct Hhit as (r & ? & ? & ? & H1 & Hhit & _).
              apply liftR_ok in H1. destruct H1 as (Hmk & _).
              apply ret_ok in Hhit. destruct Hhit as (Hhit & _).
              injection Hhit as <-.
              eexists _, info, sp. split; [exact Hmk|].
              now apply resolved_from_rev.
           ++ apply ret_ok in Hhit. destruct Hhit as (Hhit & _). discriminate.
        -- apply ret_ok in Hhit. destruct Hhit as (Hhit & _). discriminate.
      * unfold useMirror in Hres.
        do 2 (apply bind_ok in Hres; destruct Hres as (? & ? & ? & ? & _ & Hres & _)).
        apply scoped_ok in Hres. destruct Hres as (? & Hres & _).
        do 5 (apply bind_ok in Hres; destruct Hres as (? & ? & ? & ? & _ & Hres & _)).
        apply ret_ok in Hres. destruct Hres as (Hres & _). discriminate.
  - assert (Hres2 : resolved_from _input input2).
    { apply (resolved_from_ext _ input1); [assumption|].
      intros k Hk.
      now apply (resolution_attrs E _ _ _ _ _ _ _ _ _ k Hres). }
    unfold fetchResolved in H.
    apply bind_ok in H. destruct H as (? & ? & ? & ? & _ & H & ->).
    do 3 (apply bind_ok in H; destruct H as (? & ? & ? & ? & _ & H & ->)).
    apply bind_ok in H. destruct H as (hit & ? & ? & ? & _ & H & ->).
    destruct hit as [[info sp]|].
    + apply liftR_ok in H. destruct H as (H & _). eauto.
    + apply ingest_writes in H.
      destruct H as (r0 & key & info & _ & _ & _ & _ & Hmk & _).
      eauto.
Qed.


(** X10: what [fetch] returns is complete. The input of every successful
    [fetch] satisfies [hasAllInfo]: it has [lastModified], and it has
    [revCount] unless it is shallow or has no [ref] (the result of the
    dirty-tree branch). *)
Theorem fetch_result_has_all_info (_input : Input) (w w' : World)
    (res : StorePath * Input) (evs : list Event) :
  fetch E _input w = (Ok res, w', evs) ->
  hasAllInfo (snd res) = Ok true.
Proof.
  intro H. apply fetch_shape in H.
  destruct H as (repoInfo & w1 & e1 & Hinfo & Hcase).
  apply getRepoInfo_inv in Hinfo.
  destruct Hinfo as (sh & sm & ar & s & u & ref & Hsh & _ & _ & _ & _ & Href
                     & Hshallow & _ & _ & _ & _ & _ & Hdirty & _).
  unfold hasAllInfo, getRef, maybeGetStrAttr, maybeGetBoolAttr, maybeGetIntAttr
    in *.
  destruct Hcase as [(Hd & _ & n & ->)|(input & info & sp & Hmk & Hfrom & Hfrom')].
  - destruct (Hdirty (or_introl Hd)) as (_ & -> & _).
    cbn [set_attr attrs]. rewrite find_insert_same.
    rewrite !find_insert_other by discriminate.
    destruct (SMap.find "ref" (attrs _input)) as [[]|]; try discriminate.
    destruct (SMap.find "shallow" (attrs _input)) as [[]|]; try discriminate;
      cbn [rbind]; now rewrite orb_true_r.
  - apply makeResult_inv in Hmk.
    destruct Hmk as (rev & lm & _ & _ & _ & Hlm & Hrc & Hsame).
    rewrite Hlm, (Hsame "ref"), (Hsame "shallow") by discriminate.
    rewrite (Hfrom "shallow") by discriminate.
    assert (Hr : exists o, match SMap.find "ref" (attrs input) with
                           | Some (AStr s0) => Ok (Some s0)
                           | Some _ => Err (AttrError "ref")
                           | None => Ok None
                           end = Ok o).
    { destruct Hfrom' as [->|[_ [r ->]]]; eauto. }
    destruct Hr as [o ->]. cbn [rbind].
    destruct (SMap.find "shallow" (attrs _input)) as [[| |b]|];
      try discriminate; injection Hsh as <-; cbn [rbind value_or] in *.
    + destruct b; cbn [orb]; [reflexivity|].
      destruct o; [|reflexivity].
      destruct (Hrc Hshallow) as [n ->]. reflexivity.
    + destruct o; cbn [orb]; [|reflexivity].
      destruct (Hrc Hshallow) as [n ->]. reflexivity.
Qed.

(** X11: [fetch] only adds to the request. In the input of a successful
    [fetch] every attribute other than [ref], [rev], [revCount] and
    [lastModified] is as the request has it, a [ref] that the request
    names is kept, and so is a [rev] that the request names. *)
Theorem fetch_keeps_request (_input : Input) (w w' : World)
    (res : StorePath * Input) (evs : list Event) :
  fetch E _input w = (Ok res, w', evs) ->
  (forall k, k <> "ref" -> k <> "rev" -> k <> "revCount" -> k <> "lastModified" ->
             SMap.find k (attrs (snd res)) = SMap.find k (attrs _input))
  /\ (forall ref, getRef _input = Ok (Some ref) -> getRef (snd res) = Ok (Some ref))
  /\ (forall rev, getRev E _input = Ok (Some rev) ->
                  getRev E (snd res) = Ok (Some rev)).
Proof.
  intro H. apply fetch_shape in H.
  destruct H as (repoInfo & w1 & e1 & Hinfo & Hcase).
  apply getRepoInfo_inv in Hinfo.
  destruct Hinfo as (sh & sm & ar & s & u & ref & _ & _ & _ & _ & _ & Href
                     & _ & _ & _ & _ & _ & _ & Hdirty & _).
  destruct Hcase as [(Hd & _ & n & ->)|(input & info & sp & Hmk & Hfrom & Hfrom')].
  - destruct (Hdirty (or_introl Hd)) as (_ & -> & Hrev).
    split; [|split].
    + intros k _ _ _ Hk. cbn [set_attr attrs]. now apply find_insert_other.
    + intros r Hr. congruence.
    + intros r Hr. congruence.
  - apply makeResult_inv in Hmk.
    destruct Hmk as (rev & lm & Hrev & Hrev0 & _ & _ & _ & Hsame).
    split; [|split].
    + intros k H1 H2 H3 H4. rewrite Hsame by assumption. now apply Hfrom.
    + intros r Hr. unfold getRef, maybeGetStrAttr in *.
      rewrite Hsame by discriminate.
      destruct Hfrom' as [->|[Hnone _]]; [assumption|congruence].
    + intros r Hr.
      assert (rev = r) by (destruct Hrev0; congruence). subst r.
      unfold getRev, maybeGetStrAttr in *.
      now rewrite Hsame by discriminate.
Qed.

(** X12: a dirty working tree is refused before anything is read from
    it. When [getRepoInfo] finds the tree dirty and [allowDirty] is off,
    [fetch] and [lazyFetch] fail with "Git tree is dirty" and have done
    nothing beyond what [getRepoInfo] did: no file is listed, nothing is
    added to the store, the cache is not consulted. *)
Theorem dirty_tree_rejected (input : Input) (w w1 : World)
    (repoInfo : RepoInfo) (e1 : list Event) (name : string) :
  getRepoInfo E input w = (Ok repoInfo, w1, e1) ->
  getName input = Ok name ->
  isDirty repoInfo = true ->
  allowDirty E = false ->
  fetch E input w = (Err (DirtyTree (url repoInfo)), w1, e1)
  /\ lazyFetch E input w = (Err (DirtyTree (url repoInfo)), w1, e1).
Proof.
  intros Hinfo Hname Hd Had.
  pose proof (getRepoInfo_inv _ _ _ _ _ Hinfo) as Hinv.
  destruct Hinv as (sh & sm & ar & s & u & ref & _ & _ & _ & _ & _ & Href
                    & _ & _ & _ & _ & _ & _ & Hdirty & _).
  destruct (Hdirty (or_introl Hd)) as (Hl & -> & Hrev).
  split.
  - unfold fetch. rewrite (bind_run _ _ _ _ _ _ Hinfo).
    rewrite bind_liftR, Hname.
    unfold lookupPinned. rewrite bind_assoc, bind_liftR, Hrev, bind_ret.
    rewrite Hd. unfold fetchDirty, checkDirty. rewrite Hd, Had. cbn [negb].
    unfold bind, throw. now rewrite app_nil_r.
  - unfold lazyFetch. rewrite (bind_run _ _ _ _ _ _ Hinfo).
    rewrite bind_liftR, Href, bind_assoc, bind_liftR, Hrev, bind_ret, Hl.
    cbn [negb]. unfold checkDirty. rewrite Hd, Had. cbn [negb].
    unfold bind, throw. now rewrite app_nil_r.
Qed.

End WithEnv.

Lemma fetch_result_has_all_info_witness :
  hasAllInfo (snd firstResult) = Ok true.
Proof.
  apply (fetch_result_has_all_info E1 byRef (emptyWorld 1000)
           (world_of (fetch E1 byRef (emptyWorld 1000)))
           firstResult
           (events_of (fetch E1 byRef (emptyWorld 1000)))).
  vm_compute. reflexivity.
Defined.

Lemma fetch_keeps_request_witness :
  SMap.find "url" (attrs (snd firstResult)) = SMap.find "url" (attrs byRef)
  /\ getRef (snd firstResult) = Ok (Some "main").
Proof.
  destruct (fetch_keeps_request E1 byRef (emptyWorld 1000)
              (world_of (fetch E1 byRef (emptyWorld 1000)))
              firstResult
              (events_of (fetch E1 byRef (emptyWorld 1000))))
    as [H1 [H2 _]].
  - vm_compute. reflexivity.
  - split.
    + apply H1; discriminate.
    + apply H2. reflexivity.
Defined.

Lemma dirty_tree_rejected_witness :
  result_of (fetch (workEnv false) workTree workWorld) = Err (DirtyTree "/repo")
  /\ result_of (lazyFetch (workEnv false) workTree workWorld)
     = Err (DirtyTree "/repo").
Proof.
  destruct (dirty_tree_rejected (workEnv false) workTree workWorld
              (world_of (getRepoInfo (workEnv false) workTree workWorld))
              workInfo
              (events_of (getRepoInfo (workEnv false) workTree workWorld))
              "source") as [H1 H2].
  - vm_compute. reflexivity.
  - reflexivity.
  - reflexivity.
  - reflexivity.
  - rewrite H1, H2. split; reflexivity.
Defined.

Lemma hasPrefix_refl (s : string) : hasPrefix s s = true.
Proof. induction s as [|c s IH]; simpl; [reflexivity|]. now rewrite Ascii.eqb_refl. Qed.

Lemma prefix_not_lt (t P : string) : hasPrefix t P = true -> ~ Str.lt t P.
Proof.
  intros H Hlt. destruct (String.eqb t P) eqn:He.
  - apply String.eqb_eq in He. subst. exact (lt_irrefl _ Hlt).
  - apply String.eqb_neq in He.
    exact (lt_asym _ _ Hlt (prefix_lt _ _ H He)).
Qed.

Lemma not_ltb_cases (x P : string) : Str.ltb x P = false -> P = x \/ Str.lt P x.
Proof.
  intro H. destruct (String.compare P x) eqn:C.
  - left. now apply compare_eq.
  - right. exact C.
  - exfalso. apply compare_gt_lt in C. apply ltb_lt in C. congruence.
Qed.

(** The first element not below a prefix has the prefix when any element
    has it. *)
Lemma lower_bound_prefix (P : string) (s : SSet.t) (t : string) :
  SSet.sorted s -> In t s -> hasPrefix t P = true ->
  exists i, SSet.lower_bound P s = Some i /\ hasPrefix i P = true.
Proof.
  induction s as [|x s IH]; simpl; [intros _ []|].
  intros [Hlt Hs] Hin Hp. destruct (Str.ltb x P) eqn:Hx.
  - destruct Hin as [->|Hin]; [|now apply IH].
    apply ltb_lt in Hx. exfalso. exact (prefix_not_lt _ _ Hp Hx).
  - exists x. split; [reflexivity|].
    destruct Hin as [->|Hin]; [assumption|].
    destruct (not_ltb_cases _ _ Hx) as [->|HPx]; [apply hasPrefix_refl|].
    apply (between_prefix P x t); auto.
Qed.

Lemma count_in (k : string) (s : SSet.t) : SSet.count k s = true <-> In k s.
Proof.
  unfold SSet.count. rewrite existsb_exists. split.
  - intros [x [Hin He]]. apply String.eqb_eq in He. now subst.
  - intro H. exists k. split; [assumption|apply String.eqb_refl].
Qed.

(** X13: the filter of the dirty-tree branch lets through what is
    tracked. For a path below the repository, with the set of tracked
    files in the order of [std::set]: a regular file passes exactly when
    its path relative to the repository is tracked, and a directory
    passes exactly when some tracked file lies below it, whatever else
    sorts between the directory's name and its contents. The filter has
    an answer only for a path longer than the repository's: asked about
    the repository itself it throws [std::out_of_range]. *)
Theorem tracked_filter_correct (fs : Files) (url : Path) (tracked : SSet.t)
    (p : Path) (b : bool) :
  SSet.sorted tracked ->
  trackedFilter fs url tracked p = Ok b ->
  hasPrefix p url = true
  /\ (String.length url < String.length p)%nat
  /\ trackedFilter fs url tracked url
     = Err (OutOfRange "basic_string::basic_string")
  /\ match fs p with
     | Some (Directory _ _) =>
         b = true <->
         exists t, In t tracked
                   /\ hasPrefix t (substr p (String.length url + 1) ++ "/") = true
     | Some (RegularFile _ _) =>
         b = true <-> In (substr p (String.length url + 1)) tracked
     | None => False
     end.
Proof.
  intros Hs. unfold trackedFilter, assert.
  rewrite hasPrefix_refl. cbn [rbind].
  replace (Nat.ltb (String.length url) (String.length url + 1)) with true
    by (symmetry; apply Nat.ltb_lt; lia).
  destruct (hasPrefix p url); [|discriminate]. cbn [rbind].
  destruct (Nat.ltb (String.length p) (String.length url + 1)) eqn:Hlen;
    [discriminate|].
  apply Nat.ltb_ge in Hlen. cbn [rbind].
  destruct (fs p) as [[t c|t es]|]; cbn [of_option rbind]; [| |discriminate].
  - intros [= <-]. split; [reflexivity|]. split; [lia|].
    split; [reflexivity|]. apply count_in.
  - destruct (SSet.lower_bound (substr p (String.length url + 1) ++ "/") tracked)
      as [i|] eqn:Hlb.
    + intros [= <-]. split; [reflexivity|]. split; [lia|].
      split; [reflexivity|]. split.
      * intro Hi. exists i. split; [|assumption].
        now apply (lower_bound_in _ _ _ Hlb).
      * intros [t0 [Hin Hp]].
        destruct (lower_bound_prefix _ _ _ Hs Hin Hp) as [i' [Hi' Hp']].
        congruence.
    + intros [= <-]. split; [reflexivity|]. split; [lia|].
      split; [reflexivity|]. split; [discriminate|].
      intros [t0 [Hin Hp]].
      destruct (lower_bound_prefix _ _ _ Hs Hin Hp) as [i' [Hi' Hp']].
      congruence.
Qed.

Lemma tracked_filter_correct_witness :
  trackedFilter (fun _ => Some (Directory 0 [])) "/R" ["foo.nix"; "foo/bar.nix"]
    "/R/foo" = Ok true
  /\ trackedFilter (fun _ => Some (Directory 0 [])) "/R" ["foo.nix"; "foo/bar.nix"]
       "/R" = Err (OutOfRange "basic_string::basic_string")
  /\ exists t, In t ["foo.nix"; "foo/bar.nix"] /\ hasPrefix t "foo/" = true.
Proof.
  split; [reflexivity|].
  destruct (tracked_filter_correct (fun _ => Some (Directory 0 [])) "/R"
              ["foo.nix"; "foo/bar.nix"] "/R/foo" true) as (_ & _ & He & H).
  - simpl. split; [intros k [<-|[]]; reflexivity|].
    split; [intros k []|exact I].
  - reflexivity.
  - split; [exact He|]. apply H. reflexivity.
Defined.

Lemma tokens_nonempty (s cur f : string) : In f (tokens cur s) -> f <> "".
Proof.
  revert cur. induction s as [|c s IH]; intro cur; simpl.
  - destruct (String.eqb cur "") eqn:He; [intros []|].
    intros [<-|[]]. now apply String.eqb_neq.
  - destruct (Ascii.eqb c zero).
    + destruct (String.eqb cur "") eqn:He; [apply IH|].
      intros [<-|H]; [now apply String.eqb_neq|now apply (IH "")].
    + apply IH.
Qed.

Lemma get_app_slash (a b : string) :
  String.get (String.length a) (a ++ "/" ++ b) = Some "/"%char.
Proof. induction a as [|c a IH]; simpl; [reflexivity|exact IH]. Qed.

Lemma isInDir_child (root f : string) :
  hasPrefix root "/" = true -> f <> "" ->
  isInDir (root ++ "/" ++ f) root = true.
Proof.
  intros Hr Hf. unfold isInDir.
  rewrite take_app.
  rewrite (String.eqb_refl root).
  rewrite get_app_slash.
  destruct root as [|c root]; [discriminate|].
  cbn [hasPrefix] in Hr. apply andb_prop in Hr. destruct Hr as [Hc _].
  apply Ascii.eqb_eq in Hc. subst c.
  cbn [append take].
  replace (take (root ++ String "/" f) 0) with "" by (now destruct root).
  cbn [String.eqb Ascii.eqb Bool.eqb andb].
  rewrite andb_true_r. apply Nat.leb_le.
  change (String "/" (root ++ String "/" f)) with (String "/" root ++ "/" ++ f).
  rewrite !string_length_app. destruct f; [congruence|]. cbn [String.length]. lia.
Qed.

Lemma subPathOf_child (root f : string) (allowed : option SSet.t) :
  FS.subPathOf (FS.mkFS root allowed) (root ++ "/" ++ f) = f.
Proof.
  unfold FS.subPathOf. cbn [FS.root]. rewrite substr_app.
  cbn [append hasPrefix]. rewrite Ascii.eqb_refl. cbn [andb substr].
  now destruct f.
Qed.

Section WorkingTree.

Variable E : Env.

(** X14: the accessor of [lazyFetch]. When [lazyFetch] answers with an
    accessor on the working tree, the request had neither [ref] nor [rev],
    the repository is local, a dirty tree was allowed, the input comes
    back as it was given, the accessor is rooted at the repository with
    the files that [git ls-files] printed as its allow-list, and each of
    these files passes the accessor's check. *)
Theorem lazy_accessor_allows_tracked (input input' : Input) (w w' : World)
    (a : FS.FSInputAccessor) (evs : list Event) :
  lazyFetch E input w = (Ok (WorkingTree a input'), w', evs) ->
  input' = input
  /\ getRef input = Ok None
  /\ getRev E input = Ok None
  /\ exists repoInfo w1 e1 out,
       getRepoInfo E input w = (Ok repoInfo, w1, e1)
       /\ isLocal repoInfo = true
       /\ (isDirty repoInfo = true -> allowDirty E = true)
       /\ FS.root a = url repoInfo
       /\ FS.allowedPaths a = Some (SSet.of_list (tokens "" out))
       /\ forall f, In f (tokens "" out) ->
                    hasPrefix (FS.root a) "/" = true ->
                    FS.isAllowed a (FS.root a ++ "/" ++ f) = true.
Proof.
  unfold lazyFetch. intro H.
  apply bind_ok in H. destruct H as (repoInfo & w1 & e1 & ? & Hinfo & H & ->).
  apply bind_ok in H. destruct H as (ref & ? & ? & ? & H1 & H & ->).
  apply liftR_ok in H1. destruct H1 as (Href & -> & ->).
  apply bind_ok in H. destruct H as (viaStore & w2 & e2 & ? & Hvia & H & ->).
  destruct viaStore.
  { apply ret_ok in H. destruct H as (H & _). discriminate. }
  assert (Hv : ref = None /\ getRev E input = Ok None /\ isLocal repoInfo = true).
  { destruct ref as [ref|].
    - apply ret_ok in Hvia. destruct Hvia as (Hvia & _). discriminate.
    - apply bind_ok in Hvia. destruct Hvia as (rev & ? & ? & ? & H1 & H2 & _).
      apply liftR_ok in H1. destruct H1 as (Hrev & _).
      apply ret_ok in H2. destruct H2 as (H2 & _).
      destruct rev; [discriminate|]. destruct (isLocal repoInfo); [auto|discriminate]. }
  destruct Hv as (-> & Hrev & Hl).
  apply bind_ok in H. destruct H as (? & ? & ? & ? & Hcd & H & ->).
  apply bind_ok in H. destruct H as (files & ? & ? & ? & Hfiles & H & ->).
  apply bind_ok in H. destruct H as (acc & ? & ? & ? & H1 & H & ->).
  apply liftR_ok in H1. destruct H1 as (Hacc & _).
  apply ret_ok in H. destruct H as (H & _). injection H as <- <-.
  unfold listFiles in Hfiles.
  apply bind_ok in Hfiles. destruct Hfiles as (out & ? & ? & ? & _ & Hfiles & _).
  apply ret_ok in Hfiles. destruct Hfiles as (<- & _).
  unfold FS.makeFSInputAccessor, assert in Hacc.
  destruct (FS.constructor_ok _); [|discriminate].
  cbn [rbind] in Hacc. injection Hacc as <-.
  repeat match goal with |- _ /\ _ => split end; try reflexivity; try assumption.
  exists repoInfo, w1, e1, out.
  repeat match goal with |- _ /\ _ => split end; try reflexivity; try assumption.
  - intro Hd. unfold checkDirty in Hcd. rewrite Hd in Hcd.
    destruct (allowDirty E); [reflexivity|discriminate].
  - intros f Hf Hroot. cbn [FS.root] in *.
    apply (FSFacts.allowed_entry_itself _ (SSet.of_list (tokens "" out))).
    + reflexivity.
    + apply of_list_sorted.
    + unfold isDirOrInDir. cbn [FS.root].
      rewrite (isInDir_child _ _ Hroot (tokens_nonempty _ _ _ Hf)).
      apply orb_true_r.
    + rewrite subPathOf_child. now apply of_list_in.
Qed.

End WorkingTree.

Lemma lazy_accessor_allows_tracked_witness :
  result_of (lazyFetch (workEnv true) workTree workWorld)
  = Ok (WorkingTree (FS.mkFS "/repo" (Some ["a"; "b/c"])) workTree)
  /\ FS.isAllowed (FS.mkFS "/repo" (Some ["a"; "b/c"])) "/repo/b/c" = true.
Proof.
  split; [reflexivity|].
  destruct (lazy_accessor_allows_tracked (workEnv true) workTree workTree workWorld
              (world_of (lazyFetch (workEnv true) workTree workWorld))
              (FS.mkFS "/repo" (Some ["a"; "b/c"]))
              (events_of (lazyFetch (workEnv true) workTree workWorld)))
    as (_ & _ & _ & repoInfo & w1 & e1 & out & _ & _ & _ & _ & _ & _).
  - vm_compute. reflexivity.
  - reflexivity.
Defined.

Section Operations.

Variable E : Env.

(** X15: what [applyOverrides] returns has the overrides in place of the
    attributes [ref] and [rev], every other attribute as before, and
    never a commit hash without a branch or tag name. *)
Theorem applyOverrides_result (input res : Input) (ref rev : option string) :
  applyOverrides E input ref rev = Done res ->
  (forall r, ref = Some r -> getRef res = Ok (Some r))
  /\ (forall r, rev = Some r -> SMap.find "rev" (attrs res) = Some (AStr r))
  /\ (ref = None -> SMap.find "ref" (attrs res) = SMap.find "ref" (attrs input))
  /\ (rev = None -> SMap.find "rev" (attrs res) = SMap.find "rev" (attrs input))
  /\ (forall k, k <> "ref" -> k <> "rev" ->
                SMap.find k (attrs res) = SMap.find k (attrs input))
  /\ ((exists r, getRef res = Ok (Some r)) \/ getRev E res = Ok None).
Proof.
  unfold applyOverrides. cbv zeta.
  set (res1 := match rev with
               | Some r => set_attr input "rev" (AStr r)
               | None => input
               end).
  set (res2 := match ref with
               | Some r => set_attr res1 "ref" (AStr r)
               | None => res1
               end).
  intro H.
  assert (Hres : res = res2 /\ ((exists r, getRef res2 = Ok (Some r))
                                \/ getRev E res2 = Ok None)).
  { destruct (getRef res2) as [[r|]|]; cbn [raised obind] in H.
    - injection H as <-. split; [reflexivity|]. left. eauto.
    - destruct (getRev E res2) as [[rv|]|]; cbn [raised obind] in H;
        try discriminate.
      injection H as <-. auto.
    - discriminate. }
  destruct Hres as [-> Hinv]. clear H.
  repeat match goal with |- _ /\ _ => split end; try assumption.
  - intros r ->. unfold res2, getRef, maybeGetStrAttr. cbn [set_attr attrs].
    now rewrite find_insert_same.
  - intros r ->. unfold res2, res1. destruct ref; cbn [set_attr attrs].
    + rewrite find_insert_other by discriminate. apply find_insert_same.
    + apply find_insert_same.
  - intros ->. unfold res2, res1. destruct rev; cbn [set_attr attrs];
      [now rewrite find_insert_other by discriminate|reflexivity].
  - intros ->. unfold res2, res1. destruct ref; cbn [set_attr attrs];
      [now rewrite find_insert_other by discriminate|reflexivity].
  - intros k Hk1 Hk2. unfold res2, res1.
    destruct ref, rev; cbn [set_attr attrs];
      rewrite ?find_insert_other by assumption; reflexivity.
Qed.

(** X16: [clone]. For a request with [rev], [clone] fails with
    "cloning a specific revision is not implemented" and has run no
    program; for one without, it runs [git clone <url> [--branch <ref>]
    <destDir>] once what [getRepoInfo] did is done. *)
Theorem clone_runs (input : Input) (destDir : Path) (w w1 : World)
    (repoInfo : RepoInfo) (e1 : list Event) :
  getRepoInfo E input w = (Ok repoInfo, w1, e1) ->
  match getRev E input with
  | Ok (Some _) =>
      clone E input destDir w
      = (Err (Unimplemented "cloning a specific revision is not implemented"),
         w, e1)
      /\ Forall (fun e => is_git e = false) e1
  | Ok None =>
      exists ref,
        getRef input = Ok ref
        /\ events_of (clone E input destDir w)
           = (e1 ++ [EvGit (["clone"; url repoInfo]
                            ++ match ref with
                               | Some r => ["--branch"; r]
                               | None => []
                               end ++ [destDir])])%list
  | Err e => result_of (clone E input destDir w) = Err e
  end.
Proof.
  intro Hinfo.
  pose proof (getRepoInfo_inv _ _ _ _ _ _ Hinfo) as Hinv.
  destruct Hinv as (sh & sm & ar & s & u & ref & _ & _ & _ & _ & _ & Href
                    & _ & _ & _ & _ & _ & _ & _ & _ & Hquiet).
  unfold clone. rewrite (bind_run _ _ _ _ _ _ Hinfo).
  rewrite bind_liftR, Href, bind_liftR.
  destruct (getRev E input) as [[rev|]|] eqn:Hrev.
  - destruct (Hquiet (or_intror (or_introl (ex_intro _ rev eq_refl)))) as [-> Hq].
    unfold throw. rewrite app_nil_r. auto.
  - exists ref. split; [reflexivity|].
    unfold bind, runProgram, ret.
    destruct (statusOk _); cbn [events_of snd];
      destruct ref; now rewrite ?app_nil_r, <- ?app_assoc.
  - reflexivity.
Qed.

(** X17: for a request with [rev], whether the mirror is refreshed is
    decided by [git cat-file -e <rev>] alone, neither the marker file nor
    the clock being looked at: no refresh when it exits with 0, a refresh
    when it exits with any other status, and an error when it was
    killed. *)
Theorem needFetch_pinned (repoInfo : RepoInfo) (repoDir marker : Path)
    (input : Input) (t : Z) (w : World) (rev : string) :
  getRev E input = Ok (Some rev) ->
  let run := git E ["-C"; repoDir; "cat-file"; "-e"; rev] (files w) in
  events_of (needFetch E repoInfo repoDir marker input t w)
  = [EvGit ["-C"; repoDir; "cat-file"; "-e"; rev]]
  /\ result_of (needFetch E repoInfo repoDir marker input t w)
     = match status run with
       | Exited 0 => Ok false
       | Exited _ => Ok true
       | Killed n => Err (ExecError false n)
       end.
Proof.
  intros Hrev run. unfold needFetch.
  rewrite bind_liftR, Hrev. unfold try_catch, bind, runProgram, ret, throw.
  fold run. destruct (status run) as [[|c|c]|n]; cbn; auto.
Qed.

End Operations.

Lemma checkNames_done (attrs : Attrs) :
  checkNames attrs = Done tt <->
  forall k, In k (SMap.keys attrs) -> unsupported k = false.
Proof.
  induction attrs as [|[k v] attrs IH]; simpl.
  - split; [intros _ ? []|reflexivity].
  - destruct (unsupported k) eqn:Hk.
    + split; [discriminate|]. intro H. rewrite (H k) in Hk; [discriminate|now left].
    + rewrite IH. split.
      * intros H k' [<-|Hin]; [assumption|now apply H].
      * intros H k' Hin. apply H. now right.
Qed.

Lemma checkNames_thrown (attrs : Attrs) :
  match checkNames attrs with
  | Done _ => True
  | Thrown e =>
      exists k, e = UnsupportedAttribute k /\ In k (SMap.keys attrs)
                /\ unsupported k = true
  end.
Proof.
  induction attrs as [|[k v] attrs IH]; simpl; [exact I|].
  destruct (unsupported k) eqn:Hk.
  - exists k. auto.
  - destruct (checkNames attrs); [exact I|].
    destruct IH as [k' [-> [Hin Hu]]]. exists k'. auto.
Qed.

Section Validation.

Variable E : Env.
Variable badGitRef : string -> bool.

(** X18: [inputFromAttrs]. An input that it accepts is the attributes
    as given, of type [git], with supported names only and a [ref] that
    the bad-name expression does not match, and [getRepoInfo] succeeds on
    it without running a program once it has [ref] or a readable [rev];
    attributes of another type are not an error but no input; and with
    the type [git], an unsupported name is an error before anything else
    is looked at. *)
Theorem inputFromAttrs_validates (attrs : Attrs) :
  (forall input,
     inputFromAttrs E badGitRef attrs = Done (Some input) ->
     input = mkInput attrs
     /\ maybeGetStrAttr attrs "type" = Ok (Some "git")
     /\ (forall k, In k (SMap.keys attrs) -> unsupported k = false)
     /\ (exists ref, getRef input = Ok ref
                     /\ forall r, ref = Some r -> badGitRef r = false)
     /\ forall w,
          (exists r, getRef input = Ok (Some r))
          \/ (exists rev, getRev E input = Ok (Some rev)) ->
          exists repoInfo,
            getRepoInfo E input w = (Ok repoInfo, w, [])
            \/ exists p, getRepoInfo E input w = (Ok repoInfo, w, [EvPathExists p]))
  /\ (forall t, maybeGetStrAttr attrs "type" = Ok t -> t <> Some "git" ->
                inputFromAttrs E badGitRef attrs = Done None)
  /\ (maybeGetStrAttr attrs "type" = Ok (Some "git") ->
      forall k, In k (SMap.keys attrs) -> unsupported k = true ->
      exists k', inputFromAttrs E badGitRef attrs = Thrown (UnsupportedAttribute k')
                 /\ In k' (SMap.keys attrs) /\ unsupported k' = true).
Proof.
  split; [|split].
  - intros input. unfold inputFromAttrs.
    destruct (maybeGetStrAttr attrs "type") as [t|] eqn:Ht; [|discriminate].
    cbn [raised obind].
    destruct (opt_eqb t (Some "git")) eqn:Hg; cbn [negb]; [|discriminate].
    assert (t = Some "git").
    { destruct t as [t|]; [|discriminate]. simpl in Hg.
      apply String.eqb_eq in Hg. now subst. }
    subst t.
    destruct (checkNames attrs) as [[]|] eqn:Hn; [|discriminate].
    cbn [obind].
    destruct (getStrAttr attrs "url") as [s|] eqn:Hs; [|discriminate].
    cbn [raised obind].
    destruct (parseURL E s) as [u|] eqn:Hu; [|discriminate].
    cbn [of_option raised obind].
    destruct (maybeGetBoolAttr attrs "shallow") as [sh|] eqn:Hsh; [|discriminate].
    destruct (maybeGetBoolAttr attrs "submodules") as [sm|] eqn:Hsm; [|discriminate].
    destruct (maybeGetBoolAttr attrs "allRefs") as [ar|] eqn:Har; [|discriminate].
    cbn [raised obind].
    destruct (maybeGetStrAttr attrs "ref") as [ref|] eqn:Href; [|discriminate].
    cbn [raised obind].
    intro H.
    assert (Hbad : forall r, ref = Some r -> badGitRef r = false).
    { intros r ->. destruct (badGitRef r); [|reflexivity].
      cbn [obind] in H. discriminate. }
    assert (input = mkInput attrs).
    { destruct ref as [r|]; [rewrite (Hbad r eq_refl) in H|];
        cbn [obind] in H; now injection H as <-. }
    subst input. clear H.
    repeat match goal with |- _ /\ _ => split end; try reflexivity.
    + exact (proj1 (checkNames_done attrs) Hn).
    + exists ref. split; assumption.
    + intros w Hpin. unfold getRepoInfo. cbn [Fetchers.attrs].
      rewrite bind_liftR, Hsh, bind_liftR, Hsm, bind_liftR, Har, bind_liftR, Hs.
      rewrite bind_liftR, Hu. cbn [of_option].
      match goal with
      | |- context [bind _ ?k w] =>
          assert (Htail : forall isBare, exists repoInfo,
                    k isBare w = (Ok repoInfo, w, []))
      end.
      { intro isBare. rewrite bind_liftR. unfold getRef. cbn [Fetchers.attrs].
        rewrite Href.
        destruct ref as [r|].
        - rewrite bind_ret. cbv beta iota. unfold ret. eauto.
        - destruct Hpin as [[r Hr]|[rev Hrev]].
          + unfold getRef in Hr. cbn [Fetchers.attrs] in Hr. congruence.
          + rewrite bind_assoc, bind_liftR, Hrev, bind_ret. cbv beta iota.
            unfold ret. eauto. }
      destruct (String.eqb (scheme u) "file").
      * rewrite bind_assoc, bind_pathExists, bind_ret.
        destruct (Htail (negb match files w (path u ++ "/.git") with
                              | Some _ => true
                              | None => false
                              end)) as [repoInfo Hr].
        exists repoInfo. right. exists (path u ++ "/.git"). now rewrite Hr.
      * rewrite bind_ret. destruct (Htail false) as [repoInfo Hr].
        exists repoInfo. left. exact Hr.
  - intros t Ht Hne. unfold inputFromAttrs. rewrite Ht. cbn [raised obind].
    destruct t as [t|]; [|reflexivity]. simpl.
    destruct (String.eqb t "git") eqn:He; [|reflexivity].
    apply String.eqb_eq in He. congruence.
  - intros Ht k Hin Hk. unfold inputFromAttrs. rewrite Ht. cbn [raised obind].
    cbn [opt_eqb String.eqb Ascii.eqb Bool.eqb andb negb].
    pose proof (checkNames_thrown attrs) as Hth.
    destruct (checkNames attrs) as [[]|e] eqn:Hn.
    + rewrite (proj1 (checkNames_done attrs) Hn k Hin) in Hk. discriminate.
    + destruct Hth as [k' [-> [Hin' Hu']]]. exists k'. cbn [obind]. auto.
Qed.

End Validation.


Lemma silent_bind {A B} (m : M A) (k : A -> M B) :
  cache_silent m -> (forall a, cache_silent (k a)) -> cache_silent (bind m k).
Proof.
  intros Hm Hk w. unfold bind. destruct (Hm w) as [H1 H2].
  destruct (m w) as [[[a|e] w1] e1]; [|auto].
  destruct (Hk a w1) as [H3 H4].
  destruct (k a w1) as [[r w2] e2]. unfold world_of, events_of in *.
  cbn [fst snd] in *. split; [congruence|]. apply Forall_app. auto.
Qed.

Lemma silent_try {A} (m : M A) (h : Error -> M A) :
  cache_silent m -> (forall e, cache_silent (h e)) -> cache_silent (try_catch m h).
Proof.
  intros Hm Hh w. unfold try_catch. destruct (Hm w) as [H1 H2].
  destruct (m w) as [[[a|e] w1] e1]; [auto|].
  destruct (Hh e w1) as [H3 H4].
  destruct (h e w1) as [[r w2] e2]. unfold world_of, events_of in *.
  cbn [fst snd] in *. split; [congruence|]. apply Forall_app. auto.
Qed.

Lemma silent_pure {A} (m : M A) :
  (forall w, cache (world_of (m w)) = cache w
             /\ Forall (fun e => is_cache_access e = false) (events_of (m w))) ->
  cache_silent m.
Proof. auto. Qed.

Section DirtyTree.

Variable E : Env.

Lemma silent_ret {A} (a : A) : cache_silent (ret a).
Proof. intro w. split; [reflexivity|constructor]. Qed.

Lemma silent_throw {A} e : cache_silent (@throw A e).
Proof. intro w. split; [reflexivity|constructor]. Qed.

Lemma silent_liftR {A} (r : Res A) : cache_silent (liftR r).
Proof. intro w. split; [reflexivity|constructor]. Qed.

Lemma silent_emit msg : cache_silent (emit (EvWarn msg)).
Proof. intro w. split; [reflexivity|repeat constructor]. Qed.

Lemma silent_runProgram args : cache_silent (runProgram E args).
Proof.
  intro w. unfold runProgram. destruct (statusOk _);
    (split; [reflexivity|repeat constructor]).
Qed.

Lemma silent_pathExists p : cache_silent (pathExists p).
Proof. intro w. split; [reflexivity|repeat constructor]. Qed.

Lemma silent_readDirectory p : cache_silent (readDirectory p).
Proof. intro w. split; [reflexivity|repeat constructor]. Qed.

Lemma silent_addToStore name p f : cache_silent (addToStoreM E name p f).
Proof. intro w. split; [reflexivity|repeat constructor]. Qed.

Ltac silent_steps :=
  repeat first
    [ apply silent_bind; [|intro]
    | apply silent_try; [|intro]
    | apply silent_ret | apply silent_throw | apply silent_liftR
    | apply silent_emit | apply silent_runProgram | apply silent_pathExists
    | apply silent_readDirectory | apply silent_addToStore
    | match goal with
      | |- cache_silent (match ?x with _ => _ end) => destruct x
      end ].

Lemma getRepoInfo_silent input : cache_silent (getRepoInfo E input).
Proof. unfold getRepoInfo. silent_steps. Qed.

Lemma fetchDirty_silent repoInfo input : cache_silent (fetchDirty E repoInfo input).
Proof. unfold fetchDirty, checkDirty, listFiles. silent_steps. Qed.

(** X19: a dirty working tree bypasses the cache. A successful [fetch]
    of a tree that [getRepoInfo] found dirty has neither consulted nor
    changed the cache, has handed the working tree to the store with the
    filter of the tracked files, and returns the request with
    [lastModified] added and without [rev]. *)
Theorem dirty_tree_bypasses_cache (input : Input) (w w1 w' : World)
    (repoInfo : RepoInfo) (e1 evs : list Event) (res : StorePath * Input) :
  getRepoInfo E input w = (Ok repoInfo, w1, e1) ->
  isDirty repoInfo = true ->
  fetch E input w = (Ok res, w', evs) ->
  cache w' = cache w
  /\ Forall (fun e => is_cache_access e = false) evs
  /\ getRev E (snd res) = Ok None
  /\ exists name out n,
       getName input = Ok name
       /\ snd res = set_attr input "lastModified" (AInt n)
       /\ In (EvAddToStore name (url repoInfo)
                (trackedFiles (url repoInfo) (SSet.of_list (tokens "" out)))) evs.
Proof.
  intros Hinfo Hd Hfetch.
  pose proof (getRepoInfo_inv _ _ _ _ _ _ Hinfo) as Hinv.
  destruct Hinv as (sh & sm & ar & s & u & ref & _ & _ & _ & _ & _ & Href
                    & _ & _ & _ & _ & _ & _ & Hdirty & _).
  destruct (Hdirty (or_introl Hd)) as (_ & -> & Hrev).
  pose proof (getRepoInfo_silent input w) as Hs1. rewrite Hinfo in Hs1.
  unfold world_of, events_of in Hs1. cbn [fst snd] in Hs1.
  destruct Hs1 as [Hc1 Hq1].
  revert Hfetch. unfold fetch. rewrite (bind_run _ _ _ _ _ _ Hinfo).
  rewrite bind_liftR.
  destruct (getName input) as [name|] eqn:Hname; [|discriminate].
  unfold lookupPinned. rewrite bind_assoc, bind_liftR, Hrev, bind_ret. rewrite Hd.
  pose proof (fetchDirty_silent repoInfo input w1) as Hs2.
  destruct (fetchDirty E repoInfo input w1) as [[r w2] e2] eqn:Hfd.
  unfold world_of, events_of in Hs2. cbn [fst snd] in Hs2.
  destruct Hs2 as [Hc2 Hq2].
  intros [= -> -> <-].
  split; [congruence|]. split; [apply Forall_app; auto|].
  unfold fetchDirty in Hfd.
  apply bind_ok in Hfd. destruct Hfd as (? & ? & ? & ? & _ & H & ->).
  apply bind_ok in H. destruct H as (files & ? & ? & ? & Hfiles & H & ->).
  apply bind_ok in H. destruct H as (name' & ? & ? & ? & H1 & H & ->).
  apply liftR_ok in H1. destruct H1 as (Hname' & -> & ->).
  assert (name' = name) by congruence. subst name'.
  apply bind_ok in H. destruct H as (sp & ? & ? & ? & Hadd & H & ->).
  apply bind_ok in H. destruct H as (n & ? & ? & ? & _ & H & ->).
  apply ret_ok in H. destruct H as (<- & _).
  unfold listFiles in Hfiles.
  apply bind_ok in Hfiles. destruct Hfiles as (out & ? & ? & ? & _ & Hfiles & _).
  apply ret_ok in Hfiles. destruct Hfiles as (<- & _).
  unfold addToStoreM in Hadd. injection Hadd as _ _ <-.
  cbn [snd]. split.
  - unfold getRev, maybeGetStrAttr in *. cbn [set_attr attrs].
    now rewrite find_insert_other by discriminate.
  - exists name, out, n. split; [reflexivity|]. split; [reflexivity|].
    rewrite !in_app_iff. simpl. intuition.
Qed.

End DirtyTree.

Lemma Attr_eqb_eq (a b : Attr) : Attr_eqb a b = true -> a = b.
Proof.
  destruct a, b; simpl; try discriminate; intro H.
  - apply String.eqb_eq in H. now subst.
  - apply Z.eqb_eq in H. now subst.
  - apply Bool.eqb_prop in H. now subst.
Qed.

Lemma cacheType_flags (s1 m1 a1 s2 m2 a2 : bool) :
  "git" ++ (if s1 then "-shallow" else "") ++ (if m1 then "-submodules" else "")
        ++ (if a1 then "-all-refs" else "")
  = "git" ++ (if s2 then "-shallow" else "") ++ (if m2 then "-submodules" else "")
          ++ (if a2 then "-all-refs" else "") ->
  s1 = s2 /\ m1 = m2 /\ a1 = a2.
Proof.
  destruct s1, m1, a1, s2, m2, a2; simpl; intro H;
    try discriminate; repeat split; reflexivity.
Qed.

Section CacheKeys.

Variable E : Env.

(** X20: the cache keys keep apart what must not be shared. Two
    immutable keys are equal only for the same name, the same revision
    and the same shallow/submodules/allRefs mode; two mutable keys only
    for the same name, url, ref and mode; and an immutable key is never a
    mutable one. *)
Theorem cache_keys_separate (i1 i2 : Input) (w1 w2 w1' w2' : World)
    (r1 r2 : RepoInfo) (e1 e2 : list Event) :
  getRepoInfo E i1 w1 = (Ok r1, w1', e1) ->
  getRepoInfo E i2 w2 = (Ok r2, w2', e2) ->
  (forall n1 n2 k1 k2,
     getImmutableAttrs E r1 n1 i1 = Ok k1 ->
     getImmutableAttrs E r2 n2 i2 = Ok k2 ->
     Attrs_eqb k1 k2 = true ->
     shallow r1 = shallow r2 /\ submodules r1 = submodules r2
     /\ allRefs r1 = allRefs r2 /\ n1 = n2 /\ getRev E i1 = getRev E i2)
  /\ (forall n1 n2 ref1 ref2,
        Attrs_eqb (mutableAttrsOf r1 n1 ref1) (mutableAttrsOf r2 n2 ref2) = true ->
        shallow r1 = shallow r2 /\ submodules r1 = submodules r2
        /\ allRefs r1 = allRefs r2 /\ n1 = n2 /\ url r1 = url r2 /\ ref1 = ref2)
  /\ (forall n1 n2 ref k1,
        getImmutableAttrs E r1 n1 i1 = Ok k1 ->
        Attrs_eqb k1 (mutableAttrsOf r2 n2 ref) = false).
Proof.
  intros H1 H2.
  apply getRepoInfo_inv in H1.
  destruct H1 as (? & ? & ? & ? & ? & ? & _ & _ & _ & _ & _ & _
                  & _ & _ & _ & Hc1 & _).
  apply getRepoInfo_inv in H2.
  destruct H2 as (? & ? & ? & ? & ? & ? & _ & _ & _ & _ & _ & _
                  & _ & _ & _ & Hc2 & _).
  assert (Hflags : cacheType r1 = cacheType r2 ->
                   shallow r1 = shallow r2 /\ submodules r1 = submodules r2
                   /\ allRefs r1 = allRefs r2).
  { rewrite Hc1, Hc2. apply cacheType_flags. }
  split; [|split].
  - intros n1 n2 k1 k2. unfold getImmutableAttrs, rbind.
    destruct (getRev E i1) as [[rev1|]|]; try discriminate.
    destruct (getRev E i2) as [[rev2|]|]; try discriminate.
    cbn [of_option]. intros [= <-] [= <-]. cbn.
    intro H.
    repeat match goal with
           | H : (_ && _)%bool = true |- _ => apply andb_prop in H; destruct H
           end.
    repeat match goal with
           | H : String.eqb _ _ = true |- _ => apply String.eqb_eq in H
           end.
    subst.
    match goal with
    | H : cacheType r1 = cacheType r2 |- _ => destruct (Hflags H) as (? & ? & ?)
    end.
    repeat split; auto.
  - intros n1 n2 ref1 ref2. unfold mutableAttrsOf. cbn.
    intro H.
    repeat match goal with
           | H : (_ && _)%bool = true |- _ => apply andb_prop in H; destruct H
           end.
    repeat match goal with
           | H : String.eqb _ _ = true |- _ => apply String.eqb_eq in H
           end.
    subst.
    match goal with
    | H : cacheType r1 = cacheType r2 |- _ => destruct (Hflags H) as (? & ? & ?)
    end.
    repeat split; auto.
  - intros n1 n2 ref k1. unfold getImmutableAttrs, rbind, mutableAttrsOf.
    destruct (getRev E i1) as [[rev1|]|]; try discriminate.
    cbn [of_option]. intros [= <-]. cbn.
    now rewrite andb_false_r.
Qed.

End CacheKeys.

Lemma applyOverrides_result_witness :
  applyOverrides E1 byRef (Some "dev") None
  = Done (set_attr byRef "ref" (AStr "dev"))
  /\ getRef (set_attr byRef "ref" (AStr "dev")) = Ok (Some "dev").
Proof.
  split; [reflexivity|].
  destruct (applyOverrides_result E1 byRef (set_attr byRef "ref" (AStr "dev"))
              (Some "dev") None eq_refl) as [H _].
  exact (H "dev" eq_refl).
Defined.

Lemma clone_runs_witness :
  clone E1 byRev "/dest" (emptyWorld 1000)
  = (Err (Unimplemented "cloning a specific revision is not implemented"),
     emptyWorld 1000, []).
Proof.
  pose proof (clone_runs E1 byRev "/dest" (emptyWorld 1000) (emptyWorld 1000)
                (remoteInfo false false "git") [] eq_refl) as H.
  replace (getRev E1 byRev) with (@Ok (option string) (Some rev1)) in H
    by reflexivity.
  destruct H as [H _]. exact H.
Defined.

Lemma needFetch_pinned_witness :
  result_of (needFetch E1 (remoteInfo false false "git") mirror mainMarker byRev
               1000 (emptyWorld 1000)) = Ok true.
Proof.
  destruct (needFetch_pinned E1 (remoteInfo false false "git") mirror mainMarker
              byRev 1000 (emptyWorld 1000) rev1 eq_refl) as [_ H].
  rewrite H. reflexivity.
Defined.

Lemma inputFromAttrs_validates_witness :
  inputFromAttrs E1 (fun _ => false) (attrs byRef) = Done (Some byRef)
  /\ inputFromAttrs E1 (fun _ => false)
       (mkAttrs [("type", AStr "git"); ("url", AStr remoteUrl); ("tag", AStr "v1")])
     = Thrown (UnsupportedAttribute "tag")
  /\ inputFromAttrs E1 (fun _ => false)
       (mkAttrs [("type", AStr "tarball"); ("tag", AStr "v1")])
     = Done None.
Proof.
  split; [reflexivity|]. split; [reflexivity|].
  apply (proj1 (proj2 (inputFromAttrs_validates E1 (fun _ => false)
                         (mkAttrs [("type", AStr "tarball"); ("tag", AStr "v1")])))
           (Some "tarball")).
  - reflexivity.
  - discriminate.
Defined.

Lemma dirty_tree_bypasses_cache_witness :
  result_of (fetch (workEnv true) workTree workWorld)
  = Ok ("/nix/store/0000-source",
        set_attr workTree "lastModified" (AInt 1700000000))
  /\ cache (world_of (fetch (workEnv true) workTree workWorld)) = [].
Proof.
  split; [reflexivity|].
  destruct (dirty_tree_bypasses_cache (workEnv true) workTree workWorld
              (world_of (getRepoInfo (workEnv true) workTree workWorld))
              (world_of (fetch (workEnv true) workTree workWorld))
              workInfo
              (events_of (getRepoInfo (workEnv true) workTree workWorld))
              (events_of (fetch (workEnv true) workTree workWorld))
              ("/nix/store/0000-source",
               set_attr workTree "lastModified" (AInt 1700000000)))
    as [H _].
  - vm_compute. reflexivity.
  - reflexivity.
  - vm_compute. reflexivity.
  - exact H.
Defined.

Lemma cache_keys_separate_witness :
  Attrs_eqb
    (mkAttrs [("type", AStr "git"); ("name", AStr "source"); ("rev", AStr rev1)])
    (mutableAttrsOf (remoteInfo true false "git-shallow") "source" "main")
  = false.
Proof.
  destruct (cache_keys_separate E1 byRev byRefShallow
              (emptyWorld 1000) (emptyWorld 1000) (emptyWorld 1000) (emptyWorld 1000)
              (remoteInfo false false "git") (remoteInfo true false "git-shallow")
              [] [] eq_refl eq_refl) as [_ [_ H]].
  exact (H "source" "source" "main" _ eq_refl).
Defined.

Section Inspection.

Variable E : Env.

(** X21: [getRepoInfo] looks into the working tree only. A tree is
    reported dirty or without commits only for a local repository and a
    request with neither [ref] nor [rev]; a tree without commits counts
    as dirty; for a request with [ref] or [rev], or a repository that is
    not local, no program is run and nothing changes; and the repository
    is local only for the scheme [file] with [_NIX_FORCE_HTTP] off, its
    url being then the path of the URL and else the URL itself. *)
Theorem getRepoInfo_inspects_working_tree_only (input : Input) (w w' : World)
    (repoInfo : RepoInfo) (evs : list Event) :
  getRepoInfo E input w = (Ok repoInfo, w', evs) ->
  (isDirty repoInfo = true \/ hasCommits repoInfo = false ->
   isLocal repoInfo = true /\ getRef input = Ok None /\ getRev E input = Ok None)
  /\ (hasCommits repoInfo = false -> isDirty repoInfo = true)
  /\ ((exists ref, getRef input = Ok (Some ref))
      \/ (exists rev, getRev E input = Ok (Some rev))
      \/ isLocal repoInfo = false ->
      w' = w /\ Forall (fun e => is_git e = false) evs)
  /\ exists s u,
       getStrAttr (attrs input) "url" = Ok s
       /\ parseURL E s = Some u
       /\ (isLocal repoInfo = true -> scheme u = "file" /\ forceHttp E = false)
       /\ url repoInfo = (if isLocal repoInfo then path u else base u).
Proof.
  intro H. apply getRepoInfo_inv in H.
  destruct H as (sh & sm & ar & s & u & ref & _ & _ & _ & Hs & Hu & Href
                 & _ & _ & _ & _ & Hurl & Hl & Hdirty & Hcommits & Hquiet).
  repeat match goal with |- _ /\ _ => split end.
  - intro H. destruct (Hdirty H) as (? & -> & ?). auto.
  - exact Hcommits.
  - intros [[r Hr]|[Hrev|Hrem]]; apply Hquiet; auto.
    left. congruence.
  - exists s, u. auto.
Qed.

(** X22: [markChangedFile] works on a working tree only. When
    [getSourcePath] has no path (the scheme is not [file], or the request
    has [ref] or [rev]) it fails on its assertion and runs nothing; else
    it runs [git add --force --intent-to-add] in the path of the URL, and
    [git commit] after it when a message is given and the first run
    succeeded. *)
Theorem markChangedFile_runs (input : Input) (file : string)
    (commitMsg : option string) (w : World) (sourcePath : option Path) :
  getSourcePath E input = Ok sourcePath ->
  match sourcePath with
  | None =>
      markChangedFile E input file commitMsg w
      = (Err (AssertionFailed "sourcePath"), w, [])
  | Some p =>
      getRef input = Ok None /\ getRev E input = Ok None
      /\ (exists s u, getStrAttr (attrs input) "url" = Ok s
                      /\ parseURL E s = Some u /\ scheme u = "file" /\ path u = p)
      /\ let add := ["-C"; p; "add"; "--force"; "--intent-to-add"; "--"; file] in
         events_of (markChangedFile E input file commitMsg w)
         = EvGit add
           :: match commitMsg with
              | Some msg =>
                  if statusOk (status (git E add (files w)))
                  then [EvGit ["-C"; p; "commit"; file; "-m"; msg]]
                  else []
              | None => []
              end
  end.
Proof.
  intro H. unfold markChangedFile. rewrite bind_liftR, H.
  destruct sourcePath as [p|].
  - rewrite bind_liftR. cbn [of_option].
    unfold getSourcePath, rbind in H.
    destruct (getStrAttr (attrs input) "url") as [s|] eqn:Hs; [|discriminate].
    destruct (parseURL E s) as [u|] eqn:Hu; [|discriminate]. cbn [of_option] in H.
    destruct (String.eqb (scheme u) "file") eqn:Hf; [|discriminate].
    destruct (getRef input) as [[r|]|]; try discriminate.
    destruct (getRev E input) as [[rv|]|]; try discriminate.
    injection H as <-. apply String.eqb_eq in Hf.
    repeat match goal with |- _ /\ _ => split end; try reflexivity.
    + exists s, u. auto.
    + cbv zeta. unfold bind, runProgram, ret.
      destruct (statusOk (status (git E _ (files w))));
        [|now destruct commitMsg].
      destruct commitMsg as [msg|]; [|reflexivity].
      cbn [files]. destruct (statusOk _); reflexivity.
  - rewrite bind_liftR. reflexivity.
Qed.

(** X23: a revision that the repository lacks. When [git cat-file
    commit <rev>] exits with 128 and prints "bad file", the extraction
    fails with "cannot find Git revision" naming the rev, the ref and the
    url: the temporary directory is created and deleted again, nothing
    else is run, nothing is added to the store, and the cache is as it
    was. *)
Theorem missing_revision_not_ingested (_input : Input) (repoInfo : RepoInfo)
    (name : string) (mutableAttrs : Attrs) (repoDir : Path) (input : Input)
    (rev ref : string) (w : World) :
  theRef input = Ok ref ->
  let tmp := createTempDir E (files w) in
  let probe := git E ["-C"; repoDir; "cat-file"; "commit"; rev] (snd tmp) in
  WEXITSTATUS (status probe) = 128 ->
  contains "bad file" (output probe) = true ->
  result_of (ingest E _input repoInfo name mutableAttrs repoDir input rev w)
  = Err (RevisionNotFound rev ref (url repoInfo))
  /\ events_of (ingest E _input repoInfo name mutableAttrs repoDir input rev w)
     = [EvCreateTempDir (fst tmp);
        EvGit ["-C"; repoDir; "cat-file"; "commit"; rev];
        EvDelete (fst tmp)]
  /\ cache (world_of (ingest E _input repoInfo name mutableAttrs repoDir input
                        rev w)) = cache w.
Proof.
  intros Href tmp probe Hs Hc.
  unfold ingest, bind, createTempDirM, scoped, runProgramStatus.
  fold tmp. destruct tmp as [p fs] eqn:Htmp. cbn [files fst snd] in *.
  fold probe. rewrite Hs, Hc. cbn [Z.eqb Pos.eqb andb liftR].
  unfold liftR. rewrite Href. cbn. auto.
Qed.

End Inspection.


Lemma getRepoInfo_inspects_working_tree_only_witness :
  getRepoInfo E1 byRev (emptyWorld 1000)
  = (Ok (remoteInfo false false "git"), emptyWorld 1000, [])
  /\ isDirty (remoteInfo false false "git") = false.
Proof.
  split; [reflexivity|].
  destruct (getRepoInfo_inspects_working_tree_only E1 byRev (emptyWorld 1000)
              (emptyWorld 1000) (remoteInfo false false "git") [] eq_refl)
    as [H _].
  destruct (isDirty (remoteInfo false false "git")) eqn:Hd; [|reflexivity].
  destruct (H (or_introl eq_refl)) as [Hl _]. discriminate.
Defined.

Lemma markChangedFile_runs_witness :
  events_of (markChangedFile (workEnv true) workTree "flake.lock" (Some "update")
               workWorld)
  = [EvGit ["-C"; "/repo"; "add"; "--force"; "--intent-to-add"; "--"; "flake.lock"];
     EvGit ["-C"; "/repo"; "commit"; "flake.lock"; "-m"; "update"]].
Proof.
  destruct (markChangedFile_runs (workEnv true) workTree "flake.lock"
              (Some "update") workWorld (Some "/repo") eq_refl)
    as [_ [_ [_ H]]].
  exact H.
Defined.

Lemma missing_revision_not_ingested_witness :
  result_of (ingest lostEnv byRev (remoteInfo false false "git") "source"
               (mutableAttrsOf (remoteInfo false false "git") "source" "main")
               mirror byRev rev1 (emptyWorld 1000))
  = Err (RevisionNotFound rev1 "main" remoteUrl).
Proof.
  destruct (missing_revision_not_ingested lostEnv byRev
              (remoteInfo false false "git") "source"
              (mutableAttrsOf (remoteInfo false false "git") "source" "main")
              mirror byRev rev1 "main" (emptyWorld 1000) eq_refl eq_refl eq_refl)
    as [H _].
  exact H.
Defined.

Lemma replay_app t e1 e2 c : replay t (e1 ++ e2) c = replay t e2 (replay t e1 c).
Proof. unfold replay. apply fold_left_app. Qed.

Lemma replay_quiet t evs c :
  Forall (fun e => is_cache_add e = false) evs -> replay t evs c = c.
Proof.
  induction 1 as [|e evs He _ IH]; [reflexivity|].
  simpl. destruct e; try discriminate; exact IH.
Qed.

Lemma logged_bind {A B} (m : M A) (k : A -> M B) :
  logged m -> (forall a, logged (k a)) -> logged (bind m k).
Proof.
  intros Hm Hk w. unfold bind. destruct (Hm w) as [H1 H2].
  destruct (m w) as [[[a|e] w1] e1]; [|auto].
  destruct (Hk a w1) as [H3 H4].
  destruct (k a w1) as [[r w2] e2]. unfold world_of, events_of in *.
  cbn [fst snd] in *. split; [congruence|].
  rewrite replay_app, H4, H1. congruence.
Qed.

Lemma logged_try {A} (m : M A) (h : Error -> M A) :
  logged m -> (forall e, logged (h e)) -> logged (try_catch m h).
Proof.
  intros Hm Hh w. unfold try_catch. destruct (Hm w) as [H1 H2].
  destruct (m w) as [[[a|e] w1] e1]; [auto|].
  destruct (Hh e w1) as [H3 H4].
  destruct (h e w1) as [[r w2] e2]. unfold world_of, events_of in *.
  cbn [fst snd] in *. split; [congruence|].
  rewrite replay_app, H4, H1. congruence.
Qed.

Lemma logged_scoped {A} (leave : list Event) (m : M A) :
  Forall (fun e => is_cache_add e = false) leave ->
  logged m -> logged (scoped leave m).
Proof.
  intros Hl Hm w. unfold scoped. destruct (Hm w) as [H1 H2].
  destruct (m w) as [[r w1] e1]. unfold world_of, events_of in *.
  cbn [fst snd] in *. split; [assumption|].
  now rewrite replay_app, (replay_quiet _ leave) by assumption.
Qed.

(** A step that leaves the clock and the cache alone and records no
    write. *)
Lemma logged_quiet {A} (m : M A) :
  (forall w, now (world_of (m w)) = now w /\ cache (world_of (m w)) = cache w
             /\ Forall (fun e => is_cache_add e = false) (events_of (m w))) ->
  logged m.
Proof.
  intros H w. destruct (H w) as (H1 & H2 & H3). split; [assumption|].
  now rewrite replay_quiet.
Qed.

Section Frame.

Variable E : Env.

Ltac quiet := apply logged_quiet; intro; repeat split; repeat constructor.

Lemma logged_ret {A} (a : A) : logged (ret a).
Proof. quiet. Qed.
Lemma logged_throw {A} e : logged (@throw A e).
Proof. quiet. Qed.
Lemma logged_liftR {A} (r : Res A) : logged (liftR r).
Proof. quiet. Qed.
Lemma logged_get_world : logged get_world.
Proof. quiet. Qed.
Lemma logged_set_files fs : logged (set_files fs).
Proof. quiet. Qed.
Lemma logged_time : logged time.
Proof. quiet. Qed.
Lemma logged_emit e : is_cache_add e = false -> logged (emit e).
Proof. intro. quiet. assumption. Qed.
Lemma logged_runProgram args : logged (runProgram E args).
Proof.
  apply logged_quiet. intro w. unfold runProgram.
  destruct (statusOk _); repeat split; repeat constructor.
Qed.
Lemma logged_runProgramStatus args : logged (runProgramStatus E args).
Proof. quiet. Qed.
Lemma logged_pathExists p : logged (pathExists p).
Proof. quiet. Qed.
Lemma logged_stat p : logged (stat p).
Proof. quiet. Qed.
Lemma logged_readFile p : logged (readFile p).
Proof. quiet. Qed.
Lemma logged_readDirectory p : logged (readDirectory p).
Proof. quiet. Qed.
Lemma logged_utimes p t : logged (utimes p t).
Proof. quiet. Qed.
Lemma logged_createDirs p : logged (createDirs p).
Proof. quiet. Qed.
Lemma logged_createTempDir : logged (createTempDirM E).
Proof.
  apply logged_quiet. intro w. unfold createTempDirM.
  destruct (createTempDir E (files w)). repeat split; repeat constructor.
Qed.
Lemma logged_cacheLookup key : logged (cacheLookup E key).
Proof. quiet. Qed.
Lemma logged_addToStore name p f : logged (addToStoreM E name p f).
Proof. quiet. Qed.
Lemma logged_cacheAdd key info sp b : logged (cacheAdd key info sp b).
Proof. intro w. split; reflexivity. Qed.

Ltac logged_steps :=
  repeat first
    [ apply logged_bind; [|intro]
    | apply logged_try; [|intro]
    | apply logged_scoped; [repeat constructor|]
    | apply logged_ret | apply logged_throw | apply logged_liftR
    | apply logged_get_world | apply logged_set_files | apply logged_time
    | apply logged_emit; reflexivity
    | apply logged_runProgram | apply logged_runProgramStatus
    | apply logged_pathExists | apply logged_stat | apply logged_readFile
    | apply logged_readDirectory | apply logged_utimes | apply logged_createDirs
    | apply logged_createTempDir | apply logged_cacheLookup
    | apply logged_cacheAdd | apply logged_addToStore
    | match goal with
      | |- logged (match ?x with _ => _ end) => destruct x
      end ].

Lemma fetch_logged (input : Input) : logged (fetch E input).
Proof.
  unfold fetch, getRepoInfo, lookupPinned, fetchDirty, checkDirty, listFiles,
    defaultRef, readHead, resolveLocal, resolveRemote, lookupMutable, useMirror,
    syncMirror, needFetch, refresh, revFromRefFile, fetchResolved, checkShallow,
    ingest, extract, recordInCache.
  logged_steps.
Qed.

End Frame.

Lemma Attrs_eqb_eq (a b : Attrs) : Attrs_eqb a b = true -> a = b.
Proof.
  revert b. induction a as [|[k v] a IH]; intros [|[k' v'] b]; simpl;
    try discriminate; [reflexivity|].
  intro H. apply andb_prop in H. destruct H as [H Hr].
  apply andb_prop in H. destruct H as [Hk Hv].
  apply String.eqb_eq in Hk. apply Attr_eqb_eq in Hv. subst.
  now rewrite (IH _ Hr).
Qed.

Lemma find_filter {A} (f g : A -> bool) (l : list A) :
  (forall x, f x = true -> g x = true) ->
  List.find f (List.filter g l) = List.find f l.
Proof.
  intro H. induction l as [|x l IH]; simpl; [reflexivity|].
  destruct (g x) eqn:Hg; simpl.
  - destruct (f x); [reflexivity|exact IH].
  - destruct (f x) eqn:Hf; [|exact IH].
    rewrite (H x Hf) in Hg. discriminate.
Qed.

Lemma lookup_after_add_other (ttl t t' : Z) (k key info : Attrs)
    (sp : StorePath) (b : bool) (c : Cache) :
  Attrs_eqb k key = false ->
  cache_lookup ttl t' key (cache_add t k info sp b c) = cache_lookup ttl t' key c.
Proof.
  intro Hne. unfold cache_lookup, cache_add. cbn [List.find row_key].
  rewrite Hne. rewrite find_filter; [reflexivity|].
  intros r Hr. apply Attrs_eqb_eq in Hr. rewrite Hr.
  destruct (Attrs_eqb key k) eqn:Hk; [|reflexivity].
  apply Attrs_eqb_eq in Hk. subst k.
  rewrite Attrs_eqb_refl in Hne. discriminate.
Qed.

Lemma lookup_replay (ttl t t' : Z) (key : Attrs) (evs : list Event) (c : Cache) :
  (forall k i sp b, In (EvCacheAdd k i sp b) evs -> Attrs_eqb k key = false) ->
  cache_lookup ttl t' key (replay t evs c) = cache_lookup ttl t' key c.
Proof.
  revert c. induction evs as [|e evs IH]; intros c H; [reflexivity|].
  simpl. rewrite IH by (intros; eapply H; right; eassumption).
  destruct e; try reflexivity.
  apply lookup_after_add_other. eapply H. now left.
Qed.

Section FrameTheorem.

Variable E : Env.

(** X24: [fetch] leaves the entries of other keys alone. However a
    [fetch] ends, it has not touched the clock, and the look-up under
    any key that none of its recorded cache writes uses gives, at any
    time and for any TTL, what it gave before: an entry is never evicted
    or altered as a side effect. *)
Theorem fetch_cache_frame (input : Input) (w w' : World)
    (r : Res (StorePath * Input)) (evs : list Event) (key : Attrs) :
  fetch E input w = (r, w', evs) ->
  (forall k i sp b, In (EvCacheAdd k i sp b) evs -> Attrs_eqb k key = false) ->
  now w' = now w
  /\ forall ttl t, cache_lookup ttl t key (cache w') = cache_lookup ttl t key (cache w).
Proof.
  intros Hf Hkey. destruct (fetch_logged E input w) as [Hn Hc].
  rewrite Hf in Hn, Hc. unfold world_of, events_of in *. cbn [fst snd] in *.
  split; [assumption|]. intros ttl t. rewrite Hc. now apply lookup_replay.
Qed.

End FrameTheorem.

Lemma fetch_cache_frame_witness :
  cache_lookup 3600 5000 otherKey
    (cache (world_of (fetch E1 byRef (emptyWorld 1000)))) = None.
Proof.
  destruct (fetch_cache_frame E1 byRef (emptyWorld 1000)
              (world_of (fetch E1 byRef (emptyWorld 1000)))
              (result_of (fetch E1 byRef (emptyWorld 1000)))
              (events_of (fetch E1 byRef (emptyWorld 1000)))
              otherKey) as [_ H].
  - vm_compute. reflexivity.
  - intros k i sp b Hin. vm_compute in Hin.
    repeat (destruct Hin as [Hin|Hin];
            [try discriminate; injection Hin as <- _ _ _; reflexivity|]).
    destruct Hin.
  - rewrite H. reflexivity.
Defined.

Lemma fromQuery_spec (q : SMap.t string) (a0 : Attrs) (q0 : SMap.t string) :
  SSet.sorted (SMap.keys a0) -> SSet.sorted (SMap.keys q0) ->
  SSet.sorted (SMap.keys (fst (fold_left fromQuery q (a0, q0))))
  /\ (forall k,
        SMap.find k (fst (fold_left fromQuery q (a0, q0)))
        = match SMap.find k a0 with
          | Some v => Some v
          | None => attrOfQuery k q
          end)
  /\ (forall k,
        SMap.find k (snd (fold_left fromQuery q (a0, q0)))
        = match SMap.find k q0 with
          | Some v => Some v
          | None => restOfQuery k q
          end).
Proof.
  revert a0 q0. induction q as [|[name value] q IH]; intros a0 q0 Ha Hq.
  - simpl. split; [assumption|]. split; intro k.
    + unfold attrOfQuery. simpl.
      destruct (SMap.find k a0); [reflexivity|].
      now destruct (String.eqb k "rev" || String.eqb k "ref"),
                   (String.eqb k "shallow" || String.eqb k "submodules").
    + unfold restOfQuery. simpl.
      destruct (SMap.find k q0); [reflexivity|].
      now destruct (String.eqb k "rev" || String.eqb k "ref"
                    || String.eqb k "shallow" || String.eqb k "submodules").
  - cbn [fold_left fromQuery].
    destruct (String.eqb name "rev" || String.eqb name "ref") eqn:H1;
      [|destruct (String.eqb name "shallow" || String.eqb name "submodules") eqn:H2].
    + destruct (IH (fst (SMap.emplace name (AStr value) a0)) q0) as (Hs & Hfa & Hfq);
        [now apply emplace_sorted|assumption|].
      split; [assumption|]. split; intro k.
      * rewrite Hfa, (find_emplace k name _ a0 Ha).
        unfold attrOfQuery. cbn [SMap.find].
        destruct (String.eqb k name) eqn:He.
        -- apply String.eqb_eq in He. subst k. rewrite H1.
           now destruct (SMap.find name a0).
        -- reflexivity.
      * rewrite Hfq. unfold restOfQuery. cbn [SMap.find].
        destruct (String.eqb k name) eqn:He; [|reflexivity].
        apply String.eqb_eq in He. subst k.
        destruct (SMap.find name q0); [reflexivity|].
        apply orb_prop in H1. destruct H1 as [-> | ->]; cbn [orb];
          now rewrite ?orb_true_r.
    + destruct (IH (fst (SMap.emplace name (ABool (String.eqb value "1")) a0)) q0)
        as (Hs & Hfa & Hfq); [now apply emplace_sorted|assumption|].
      split; [assumption|]. split; intro k.
      * rewrite Hfa, (find_emplace k name _ a0 Ha).
        unfold attrOfQuery. cbn [SMap.find].
        destruct (String.eqb k name) eqn:He.
        -- apply String.eqb_eq in He. subst k. rewrite H1, H2.
           now destruct (SMap.find name a0).
        -- reflexivity.
      * rewrite Hfq. unfold restOfQuery. cbn [SMap.find].
        destruct (String.eqb k name) eqn:He; [|reflexivity].
        apply String.eqb_eq in He. subst k.
        destruct (SMap.find name q0); [reflexivity|].
        rewrite H1. cbn [orb]. now rewrite H2.
    + destruct (IH a0 (fst (SMap.emplace name value q0))) as (Hs & Hfa & Hfq);
        [assumption|now apply emplace_sorted|].
      split; [assumption|]. split; intro k.
      * rewrite Hfa. unfold attrOfQuery. cbn [SMap.find].
        destruct (String.eqb k name) eqn:He; [|reflexivity].
        apply String.eqb_eq in He. subst k. now rewrite H1, H2.
      * rewrite Hfq, (find_emplace k name _ q0 Hq).
        unfold restOfQuery. cbn [SMap.find].
        destruct (String.eqb k name) eqn:He.
        -- apply String.eqb_eq in He. subst k.
           apply orb_false_elim in H1. destruct H1 as [-> ->].
           apply orb_false_elim in H2. destruct H2 as [-> ->].
           now destruct (SMap.find name q0).
        -- reflexivity.
Qed.

Lemma fromQuery_result (q : SMap.t string) (a0 a : Attrs) (q0 q2 : SMap.t string) :
  fold_left fromQuery q (a0, q0) = (a, q2) ->
  SSet.sorted (SMap.keys a0) -> SSet.sorted (SMap.keys q0) ->
  SSet.sorted (SMap.keys a)
  /\ (forall k,
        SMap.find k a
        = match SMap.find k a0 with
          | Some v => Some v
          | None => attrOfQuery k q
          end)
  /\ (forall k,
        SMap.find k q2
        = match SMap.find k q0 with
          | Some v => Some v
          | None => restOfQuery k q
          end).
Proof.
  intros H Ha Hq. pose proof (fromQuery_spec q a0 q0 Ha Hq) as Hspec.
  now rewrite H in Hspec.
Qed.

Lemma attrOfQuery_supported (k : string) (q : SMap.t string) :
  attrOfQuery k q <> None -> unsupported k = false.
Proof.
  unfold attrOfQuery, unsupported.
  destruct (String.eqb k "rev") eqn:H1; [now rewrite !andb_false_r|].
  destruct (String.eqb k "ref") eqn:H2; [now rewrite !andb_false_r|].
  destruct (String.eqb k "shallow") eqn:H3; [now rewrite !andb_false_r|].
  destruct (String.eqb k "submodules") eqn:H4; [now rewrite !andb_false_r|].
  cbn [orb]. congruence.
Qed.

Section URLFacts.

Variable E : Env.
Variable badGitRef : string -> bool.
Variable to_string : URL -> string.
Variable parseURLq : string -> option URL.

Lemma inputFromAttrs_done (given : Attrs) (input : Input) :
  inputFromAttrs E badGitRef given = Done (Some input) -> input = mkInput given.
Proof.
  unfold inputFromAttrs.
  destruct (maybeGetStrAttr given "type"); [|discriminate]. cbn [raised obind].
  destruct (negb _); [discriminate|].
  destruct (checkNames given); [|discriminate]. cbn [obind].
  destruct (getStrAttr given "url") as [s|]; [|discriminate]. cbn [raised obind].
  destruct (parseURL E s); [|discriminate]. cbn [of_option raised obind].
  destruct (maybeGetBoolAttr given "shallow"); [|discriminate].
  destruct (maybeGetBoolAttr given "submodules"); [|discriminate].
  destruct (maybeGetBoolAttr given "allRefs"); [|discriminate].
  cbn [raised obind].
  destruct (maybeGetStrAttr given "ref") as [[r|]|]; [| |discriminate];
    cbn [raised obind].
  - destruct (badGitRef r); cbn [obind]; [discriminate|]. now intros [= <-].
  - now intros [= <-].
Qed.

(** The attributes that [inputFromURL] hands to [inputFromAttrs]. *)
Lemma inputFromURL_built (url : URL) :
  negb (String.eqb (u_scheme url) "git")
  && negb (String.eqb (u_scheme url) "git+http")
  && negb (String.eqb (u_scheme url) "git+https")
  && negb (String.eqb (u_scheme url) "git+ssh")
  && negb (String.eqb (u_scheme url) "git+file") = false ->
  exists given url2,
    inputFromURL E badGitRef to_string url = inputFromAttrs E badGitRef given
    /\ u_scheme url2
       = (if hasPrefix (u_scheme url) "git+" then substr (u_scheme url) 4
          else u_scheme url)
    /\ u_rest url2 = u_rest url
    /\ (forall k, SMap.find k (query url2) = restOfQuery k (query url))
    /\ forall k,
         SMap.find k given
         = if String.eqb k "type" then Some (AStr "git")
           else if String.eqb k "url" then Some (AStr (to_string url2))
           else attrOfQuery k (query url).
Proof.
  intro Hs. unfold inputFromURL. rewrite Hs. cbv zeta.
  destruct (fold_left fromQuery (query url) _) as [a q2] eqn:Hfold.
  destruct (fromQuery_result _ _ _ _ _ Hfold) as (Hsorted & Hfa & Hfq).
  { simpl. split; [intros ? []|exact I]. }
  { exact I. }
  eexists _, (mkParsedURL _ (u_rest url) q2).
  split; [reflexivity|]. split; [reflexivity|]. split; [reflexivity|].
  split; [exact Hfq|].
  intro k. rewrite (find_emplace k "url" _ a Hsorted), Hfa.
  cbn [SMap.emplace fst SMap.find].
  destruct (String.eqb k "type") eqn:Ht.
  - apply String.eqb_eq in Ht. subst k. reflexivity.
  - destruct (String.eqb k "url") eqn:Hu; [|reflexivity].
    apply String.eqb_eq in Hu. subst k. reflexivity.
Qed.

(** X25: [inputFromURL]. A URL whose scheme is none of [git],
    [git+http], [git+https], [git+ssh], [git+file] is not an error but no
    input; whatever the query holds, the error "unsupported Git input
    attribute" cannot arise; and the attributes of an input that comes
    out are [type = git], [rev] and [ref] as the query has them,
    [shallow] and [submodules] as booleans that are true exactly for the
    value [1], and [url], the URL printed with its scheme stripped of
    [git+] and with the other parameters of the query, and no other
    attribute. *)
Theorem inputFromURL_attributes (url : URL) :
  (negb (String.eqb (u_scheme url) "git")
   && negb (String.eqb (u_scheme url) "git+http")
   && negb (String.eqb (u_scheme url) "git+https")
   && negb (String.eqb (u_scheme url) "git+ssh")
   && negb (String.eqb (u_scheme url) "git+file") = true ->
   inputFromURL E badGitRef to_string url = Done None)
  /\ (forall k,
        inputFromURL E badGitRef to_string url <> Thrown (UnsupportedAttribute k))
  /\ (forall input,
        inputFromURL E badGitRef to_string url = Done (Some input) ->
        exists url2,
          u_scheme url2
          = (if hasPrefix (u_scheme url) "git+" then substr (u_scheme url) 4
             else u_scheme url)
          /\ u_rest url2 = u_rest url
          /\ (forall k, SMap.find k (query url2) = restOfQuery k (query url))
          /\ forall k,
               SMap.find k (attrs input)
               = if String.eqb k "type" then Some (AStr "git")
                 else if String.eqb k "url" then Some (AStr (to_string url2))
                 else attrOfQuery k (query url)).
Proof.
  destruct (negb (String.eqb (u_scheme url) "git")
            && negb (String.eqb (u_scheme url) "git+http")
            && negb (String.eqb (u_scheme url) "git+https")
            && negb (String.eqb (u_scheme url) "git+ssh")
            && negb (String.eqb (u_scheme url) "git+file")) eqn:Hs.
  - assert (Hnone : inputFromURL E badGitRef to_string url = Done None)
      by (unfold inputFromURL; now rewrite Hs).
    rewrite Hnone. split; [reflexivity|]. split; [discriminate|]. discriminate.
  - destruct (inputFromURL_built url Hs)
      as (given & url2 & -> & Hsch & Hrest & Hq & Hfind).
    split; [discriminate|]. split.
    + intros k Hthrown. unfold inputFromAttrs in Hthrown.
      unfold maybeGetStrAttr at 1 in Hthrown. rewrite (Hfind "type") in Hthrown.
      cbn [String.eqb Ascii.eqb Bool.eqb raised obind opt_eqb negb] in Hthrown.
      assert (Hn : checkNames given = Done tt).
      { apply checkNames_done. intros k' Hin.
        apply find_in_keys in Hin. rewrite Hfind in Hin.
        destruct (String.eqb k' "type") eqn:Ht;
          [apply String.eqb_eq in Ht; now subst|].
        destruct (String.eqb k' "url") eqn:Hu;
          [apply String.eqb_eq in Hu; now subst|].
        now apply (attrOfQuery_supported k' (query url)). }
      rewrite Hn in Hthrown. cbn [obind] in Hthrown.
      destruct (getStrAttr given "url") as [s|]; [|discriminate].
      cbn [raised obind] in Hthrown.
      destruct (parseURL E s); [|discriminate].
      cbn [of_option raised obind] in Hthrown.
      destruct (maybeGetBoolAttr given "shallow"); [|discriminate].
      destruct (maybeGetBoolAttr given "submodules"); [|discriminate].
      destruct (maybeGetBoolAttr given "allRefs"); [|discriminate].
      cbn [raised obind] in Hthrown.
      destruct (maybeGetStrAttr given "ref") as [[r|]|]; [| |discriminate];
        cbn [raised obind] in Hthrown; [|discriminate].
      destruct (badGitRef r); discriminate.
    + intros input Hin. apply inputFromAttrs_done in Hin. subst input.
      exists url2. cbn [attrs]. auto.
Qed.

(** X26: from a URL to an input and back. If [parseURL] reads the [url]
    attribute back as [inputFromURL] had it printed, [toURL] of the input
    that [inputFromURL] made has the scheme and the rest of the URL it
    came from, and the same query but for three parameters: [rev] comes
    back as the hash prints it, [shallow] comes back only if it was [1],
    and [submodules] does not come back. *)
Theorem url_round_trip (url url' : URL) (input : Input) :
  inputFromURL E badGitRef to_string url = Done (Some input) ->
  toURL E parseURLq input = Ok url' ->
  (forall s u2,
     getStrAttr (attrs input) "url" = Ok s -> parseURLq s = Some u2 ->
     u_scheme u2
     = (if hasPrefix (u_scheme url) "git+" then substr (u_scheme url) 4
        else u_scheme url)
     /\ u_rest u2 = u_rest url
     /\ forall k, SMap.find k (query u2) = restOfQuery k (query url)) ->
  u_scheme url' = u_scheme url
  /\ u_rest url' = u_rest url
  /\ forall k,
       SMap.find k (query url')
       = if String.eqb k "rev"
         then match SMap.find "rev" (query url) with
              | Some v => parseGitRev E v
              | None => None
              end
         else if String.eqb k "shallow"
         then match SMap.find "shallow" (query url) with
              | Some v => if String.eqb v "1" then Some "1" else None
              | None => None
              end
         else if String.eqb k "submodules" then None
         else SMap.find k (query url).
Proof.
  intros Hin Hto Hparse.
  destruct (negb (String.eqb (u_scheme url) "git")
            && negb (String.eqb (u_scheme url) "git+http")
            && negb (String.eqb (u_scheme url) "git+https")
            && negb (String.eqb (u_scheme url) "git+ssh")
            && negb (String.eqb (u_scheme url) "git+file")) eqn:Hs.
  { unfold inputFromURL in Hin. rewrite Hs in Hin. discriminate. }
  destruct (inputFromURL_built url Hs)
    as (given & url0 & Heq & _ & _ & _ & Hfind).
  rewrite Heq in Hin. apply inputFromAttrs_done in Hin. subst input.
  cbn [attrs] in Hparse.
  assert (Hurl : getStrAttr given "url" = Ok (to_string url0)).
  { unfold getStrAttr, required, maybeGetStrAttr. now rewrite (Hfind "url"). }
  revert Hto. unfold toURL. cbn [attrs]. rewrite Hurl. cbn [rbind].
  destruct (parseURLq (to_string url0)) as [url2|] eqn:Hp; [|discriminate].
  destruct (Hparse _ _ Hurl Hp) as (Hsch & Hrest & Hq).
  unfold getRev, getRef, gitRevOf, maybeGetStrAttr, maybeGetBoolAttr.
  cbn [attrs].
  rewrite (Hfind "rev"), (Hfind "ref"), (Hfind "shallow").
  cbn [String.eqb Ascii.eqb Bool.eqb rbind of_option]. cbv zeta.
  unfold attrOfQuery. cbn [String.eqb Ascii.eqb Bool.eqb orb].
  set (url3 := if negb (String.eqb (u_scheme url2) "git")
               then mkParsedURL ("git+" ++ u_scheme url2) (u_rest url2) (query url2)
               else url2).
  assert (H3 : u_scheme url3 = u_scheme url /\ u_rest url3 = u_rest url
               /\ query url3 = query url2).
  { assert (Hcase : u_scheme url = "git" \/ u_scheme url = "git+http"
                     \/ u_scheme url = "git+https" \/ u_scheme url = "git+ssh"
                     \/ u_scheme url = "git+file").
    { destruct (String.eqb (u_scheme url) "git") eqn:H1;
        [apply String.eqb_eq in H1; auto|].
      destruct (String.eqb (u_scheme url) "git+http") eqn:H2;
        [apply String.eqb_eq in H2; auto|].
      destruct (String.eqb (u_scheme url) "git+https") eqn:H3;
        [apply String.eqb_eq in H3; auto|].
      destruct (String.eqb (u_scheme url) "git+ssh") eqn:H4;
        [apply String.eqb_eq in H4; auto 6|].
      destruct (String.eqb (u_scheme url) "git+file") eqn:H5;
        [apply String.eqb_eq in H5; auto 6|].
      discriminate. }
    unfold url3.
    destruct Hcase as [Hc|[Hc|[Hc|[Hc|Hc]]]]; rewrite Hc in Hsch |- *;
      cbn in Hsch; rewrite Hsch; cbn; auto. }
  destruct H3 as (Hs3 & Hr3 & Hq3).
  destruct (SMap.find "rev" (query url)) as [rv|] eqn:Hrv; cbn [option_map rbind];
    [destruct (parseGitRev E rv) as [r|] eqn:Hr; cbn [of_option rbind];
       [|discriminate]|];
    (destruct (SMap.find "ref" (query url)) as [rf|] eqn:Hrf; cbn [option_map rbind]);
    (destruct (SMap.find "shallow" (query url)) as [sv|] eqn:Hsv;
       cbn [option_map rbind value_or];
       [destruct (String.eqb sv "1") eqn:Hsv1|]);
    intros [= <-]; cbn [u_scheme u_rest query];
    (split; [assumption|]); (split; [assumption|]); intro k;
    (destruct (String.eqb k "rev") eqn:Hk1;
       [apply String.eqb_eq in Hk1; subst k;
        rewrite ?find_insert_other by discriminate;
        rewrite ?find_insert_same; rewrite ?Hq3, ?Hq; reflexivity|]);
    (destruct (String.eqb k "shallow") eqn:Hk2;
       [apply String.eqb_eq in Hk2; subst k;
        rewrite ?find_insert_other by discriminate;
        rewrite ?find_insert_same; rewrite ?Hq3, ?Hq; reflexivity|]);
    (destruct (String.eqb k "submodules") eqn:Hk3;
       [apply String.eqb_eq in Hk3; subst k;
        rewrite ?find_insert_other by discriminate;
        rewrite ?Hq3, ?Hq; reflexivity|]);
    (destruct (String.eqb k "ref") eqn:Hk4;
       [apply String.eqb_eq in Hk4; subst k;
        rewrite ?find_insert_other by discriminate;
        rewrite ?find_insert_same; rewrite ?Hq3, ?Hq;
        unfold restOfQuery; cbn; congruence|]);
    apply String.eqb_neq in Hk1, Hk2, Hk3, Hk4;
    rewrite ?find_insert_other by assumption;
    rewrite Hq3, Hq; unfold restOfQuery;
    rewrite (proj2 (String.eqb_neq _ _) Hk1), (proj2 (String.eqb_neq _ _) Hk2),
      (proj2 (String.eqb_neq _ _) Hk3), (proj2 (String.eqb_neq _ _) Hk4);
    reflexivity.
Qed.

End URLFacts.


Lemma url_round_trip_witness :
  inputFromURL E1 (fun _ => false) printURL sampleURL = Done (Some fromSampleURL)
  /\ toURL E1 readURL fromSampleURL
     = Ok (mkParsedURL "git+https" "example.org/repo"
             [("ref", "main"); ("shallow", "1")])
  /\ SMap.find "submodules" [("ref", "main"); ("shallow", "1")] = None.
Proof.
  split; [reflexivity|]. split; [reflexivity|].
  destruct (url_round_trip E1 (fun _ => false) printURL readURL sampleURL
              (mkParsedURL "git+https" "example.org/repo"
                 [("ref", "main"); ("shallow", "1")])
              fromSampleURL eq_refl eq_refl) as [_ [_ H]].
  - intros s u2 Hs Hp. vm_compute in Hs. injection Hs as <-.
    vm_compute in Hp. injection Hp as <-.
    split; [reflexivity|]. split; [reflexivity|].
    intro k. unfold restOfQuery. cbn [query sampleURL SMap.find].
    destruct (String.eqb k "rev"), (String.eqb k "ref"), (String.eqb k "shallow"),
      (String.eqb k "submodules"); reflexivity.
  - exact (H "submodules").
Defined.

(** [?shallow=true] does not ask for a shallow clone, only [?shallow=1]
    does; and [allRefs] cannot be given in a URL: the parameter stays in
    the query. *)
Example shallow_true_is_false :
  inputFromURL E1 (fun _ => false) printURL
    (mkParsedURL "git+https" "example.org/repo"
       [("allRefs", "1"); ("shallow", "true")])
  = Done (Some (mkInput [("shallow", ABool false); ("type", AStr "git");
                         ("url", AStr remoteUrl)])).
Proof. reflexivity. Qed.

End GitSchemeFacts.
